(** * aws-c-compression: the streaming Huffman bit codec of [source/huffman.c]

    A shallow embedding of the encoder and decoder state machines of
    [source/huffman.c] (with the types of [include/aws/compression/huffman.h])
    and the properties of the specification that are settled on it,
    followed by further properties of the encoder and of the decoder that
    the code shows by itself.

    Machine integers are values of [Z]; every assignment to a [uint8_t],
    [uint32_t], [uint64_t] or [size_t] object is written with its wrap-around
    ([u8], [u32], [u64], [usize]).  Byte buffers and byte cursors are lists of
    bytes.  The [userdata] pointer of a symbol coder is the closure of the two
    Rocq functions that stand for its function pointers.  Loops are
    fixpoints, over the cursor where the loop reads it to its end and over a
    bound on the iterations ([fuel]) otherwise; the proofs show that the
    bounds used are never reached.

    A shift by the width of its operand or more is undefined in C; it happens
    only for a code of more than 32 bits or for 64 or more bits reported as
    read, and every property below is stated for coders within those bounds
    ([valid_codes], [decode_bounded]). *)

From Stdlib Require Import ZArith List Lia Bool.
Import ListNotations.
Local Open Scope Z_scope.

(** * The program *)

(** ** Machine integers *)

Definition u8 (z : Z) : Z := z mod 2 ^ 8.
Definition u32 (z : Z) : Z := z mod 2 ^ 32.
Definition u64 (z : Z) : Z := z mod 2 ^ 64.
Definition usize (z : Z) : Z := z mod 2 ^ 64.

(** [BITSIZEOF(((struct aws_huffman_code * )0)->pattern)] *)
Definition MAX_PATTERN_BITS : Z := 32.

(** ** Results *)

(** Modelled from the spec: the result surface of the two operations.  The
    error codes and [aws_raise_error] are declared outside the sources at
    hand ([aws/compression/error.h], aws-c-common); [aws_raise_error] records
    the error and returns [AWS_OP_ERR], so a call's outcome is one of
    success and the two failure kinds raised in [huffman.c]. *)
Inductive aws_result : Type :=
| AWS_OP_SUCCESS
| AWS_ERROR_SHORT_BUFFER
| AWS_ERROR_COMPRESSION_UNKNOWN_SYMBOL.

(** ** Data model of [huffman.h] *)

(** [struct aws_huffman_code]: the pattern is stored in the least
    significant bits. *)
Record aws_huffman_code : Type := mk_code {
  pattern : Z;   (* uint32_t *)
  num_bits : Z   (* uint8_t *)
}.

(** [struct aws_huffman_symbol_coder].  [decode] returns the number of bits
    read together with the symbol written through the out-pointer (which is
    only looked at when the number of bits read is not 0). *)
Record aws_huffman_symbol_coder : Type := mk_coder {
  encode : Z -> aws_huffman_code;
  decode : Z -> Z * Z
}.

(** The values a C caller receives from the two function pointers: objects
    of type [struct aws_huffman_code], [uint8_t] and [uint8_t]. *)
Definition coder_encode (c : aws_huffman_symbol_coder) (symbol : Z) : aws_huffman_code :=
  let r := encode c symbol in
  mk_code (u32 (pattern r)) (u8 (num_bits r)).

Definition coder_decode (c : aws_huffman_symbol_coder) (bits : Z) : Z * Z :=
  let r := decode c bits in
  (u8 (fst r), u8 (snd r)).

(** [struct aws_huffman_encoder]; its field [coder] is [enc_coder] here. *)
Record aws_huffman_encoder : Type := mk_encoder {
  enc_coder : aws_huffman_symbol_coder;
  eos_padding : Z;                  (* uint8_t *)
  overflow_bits : aws_huffman_code
}.

(** [struct aws_huffman_decoder]; its fields [coder] and [num_bits] are
    [dec_coder] and [dec_num_bits] here. *)
Record aws_huffman_decoder : Type := mk_decoder {
  dec_coder : aws_huffman_symbol_coder;
  working_bits : Z;                 (* uint64_t *)
  dec_num_bits : Z                  (* uint8_t [num_bits] *)
}.

(** Modelled from the spec: [struct aws_byte_buf] of aws-c-common, which is
    not part of this repository's sources: an append-only buffer of fixed
    capacity that exposes its current length and its capacity and has a
    single-byte append operation. *)
Record aws_byte_buf : Type := mk_buf {
  buffer : list Z;
  capacity : nat
}.

Definition buf_len (b : aws_byte_buf) : nat := length (buffer b).

(** Modelled from the spec: [aws_byte_buf_write_u8], the single-byte append;
    a full buffer is left as it is. *)
Definition aws_byte_buf_write_u8 (b : aws_byte_buf) (c : Z) : aws_byte_buf :=
  if (buf_len b <? capacity b)%nat
  then mk_buf (buffer b ++ [u8 c]) (capacity b)
  else b.

(** Modelled from the spec: [struct aws_byte_cursor] of aws-c-common, a read
    cursor over an immutable byte sequence, is the list of the bytes not yet
    read; [aws_byte_cursor_read_u8] takes the head. *)
Definition aws_byte_cursor : Type := list Z.

(** ** Initialisation and reset *)

Definition zero_code : aws_huffman_code := mk_code 0 0.

Definition aws_huffman_encoder_init (coder : aws_huffman_symbol_coder) : aws_huffman_encoder :=
  mk_encoder coder (2 ^ 8 - 1) zero_code.

Definition aws_huffman_encoder_reset (encoder : aws_huffman_encoder) : aws_huffman_encoder :=
  let eos := eos_padding encoder in
  let e := aws_huffman_encoder_init (enc_coder encoder) in
  mk_encoder (enc_coder e) eos (overflow_bits e).

Definition aws_huffman_decoder_init (coder : aws_huffman_symbol_coder) : aws_huffman_decoder :=
  mk_decoder coder 0 0.

Definition aws_huffman_decoder_reset (decoder : aws_huffman_decoder) : aws_huffman_decoder :=
  aws_huffman_decoder_init (dec_coder decoder).

(** ** Encoder *)

(** [struct encoder_state] *)
Record encoder_state : Type := mk_estate {
  es_encoder : aws_huffman_encoder;
  output_buf : aws_byte_buf;
  working : Z;   (* uint8_t *)
  bit_pos : Z    (* uint8_t *)
}.

Definition set_overflow (e : aws_huffman_encoder) (c : aws_huffman_code) : aws_huffman_encoder :=
  mk_encoder (enc_coder e) (eos_padding e) c.

(** The [while (bits_to_write > 0)] loop of [encode_write_bit_pattern].
    [fuel] bounds the number of iterations; [None] is an exhausted bound. *)
Fixpoint write_bits_loop (fuel : nat) (state : encoder_state)
    (bit_pattern : aws_huffman_code) (bits_to_write : Z)
    : option (aws_result * encoder_state) :=
  if bits_to_write >? 0 then
    match fuel with
    | O => None
    | S fuel' =>
      let bits_for_current :=
        if bits_to_write >? bit_pos state then bit_pos state else bits_to_write in
      let bits_to_cut :=
        u8 ((MAX_PATTERN_BITS - num_bits bit_pattern)
            + (num_bits bit_pattern - bits_to_write)) in
      let working1 :=
        u8 (Z.lor (working state)
                  (Z.shiftr (u32 (Z.shiftl (pattern bit_pattern) bits_to_cut))
                            (MAX_PATTERN_BITS - bit_pos state))) in
      let bits_to_write1 := u8 (bits_to_write - bits_for_current) in
      let bit_pos1 := u8 (bit_pos state - bits_for_current) in
      if bit_pos1 =? 0 then
        let out1 := aws_byte_buf_write_u8 (output_buf state) working1 in
        if (buf_len out1 =? capacity out1)%nat then
          let bits_to_cut1 := u8 (bits_to_cut + bits_for_current) in
          let pattern1 :=
            if bits_to_write1 =? 0 then pattern (overflow_bits (es_encoder state))
            else Z.shiftr (u32 (Z.shiftl (pattern bit_pattern) bits_to_cut1))
                          (MAX_PATTERN_BITS - bits_to_write1) in
          Some (AWS_ERROR_SHORT_BUFFER,
                mk_estate (set_overflow (es_encoder state) (mk_code pattern1 bits_to_write1))
                          out1 0 8)
        else
          write_bits_loop fuel' (mk_estate (es_encoder state) out1 0 8)
                          bit_pattern bits_to_write1
      else
        write_bits_loop fuel'
          (mk_estate (es_encoder state) (output_buf state) working1 bit_pos1)
          bit_pattern bits_to_write1
    end
  else Some (AWS_OP_SUCCESS, state).

(** [encode_write_bit_pattern]: a [uint8_t] count admits at most 255
    iterations that each write at least one bit. *)
Definition encode_write_bit_pattern (state : encoder_state) (bit_pattern : aws_huffman_code)
    : option (aws_result * encoder_state) :=
  if num_bits bit_pattern =? 0 then
    Some (AWS_ERROR_COMPRESSION_UNKNOWN_SYMBOL, state)
  else
    write_bits_loop 256 state bit_pattern (num_bits bit_pattern).

(** [aws_huffman_get_encoded_length]: the sum of the code lengths, then the
    division by 8, rounded up.  The function takes the cursor by value and
    returns a number: neither the caller's cursor nor the encoder changes.
    Its precondition (a cursor that is not empty) is an assertion of debug
    builds; the function is modelled on every cursor. *)
Fixpoint encoded_length_bits (coder : aws_huffman_symbol_coder)
    (to_encode : aws_byte_cursor) (num_bits0 : Z) : Z :=
  match to_encode with
  | [] => num_bits0
  | new_byte :: rest =>
    let code_point := coder_encode coder (u8 new_byte) in
    encoded_length_bits coder rest (usize (num_bits0 + num_bits code_point))
  end.

Definition aws_huffman_get_encoded_length (encoder : aws_huffman_encoder)
    (to_encode : aws_byte_cursor) : Z :=
  let num_bits := encoded_length_bits (enc_coder encoder) to_encode 0 in
  let length := num_bits / 8 in
  if num_bits mod 8 =? 0 then length else usize (length + 1).

(** The [while (to_encode->len)] loop of [aws_huffman_encode]. *)
Fixpoint encode_symbols (state : encoder_state) (to_encode : aws_byte_cursor)
    : option (aws_result * encoder_state * aws_byte_cursor) :=
  match to_encode with
  | [] => Some (AWS_OP_SUCCESS, state, [])
  | new_byte :: rest =>
    let code_point := coder_encode (enc_coder (es_encoder state)) (u8 new_byte) in
    match encode_write_bit_pattern state code_point with
    | None => None
    | Some (AWS_OP_SUCCESS, state1) => encode_symbols state1 rest
    | Some (result, state1) => Some (result, state1, rest)
    end
  end.

(** The end of [aws_huffman_encode]: the end-of-stream padding.  The result
    of the padding write is not looked at. *)
Definition encode_eos (state : encoder_state) : option encoder_state :=
  if negb (bit_pos state =? 8) then
    let eos_cp := mk_code (u32 (eos_padding (es_encoder state))) (bit_pos state) in
    match encode_write_bit_pattern state eos_cp with
    | None => None
    | Some (_, state1) => Some state1
    end
  else Some state.

(** [aws_huffman_encode]: the result, the encoder, the cursor and the output
    buffer after the call. *)
Definition aws_huffman_encode (encoder : aws_huffman_encoder)
    (to_encode : aws_byte_cursor) (output : aws_byte_buf)
    : option (aws_result * aws_huffman_encoder * aws_byte_cursor * aws_byte_buf) :=
  if (buf_len output =? capacity output)%nat then
    Some (AWS_ERROR_SHORT_BUFFER, encoder, to_encode, output)
  else
    let state := mk_estate encoder output 0 8 in
    let after_overflow :=
      if negb (num_bits (overflow_bits encoder) =? 0) then
        match encode_write_bit_pattern state (overflow_bits encoder) with
        | None => None
        | Some (AWS_OP_SUCCESS, state1) =>
          Some (AWS_OP_SUCCESS,
                mk_estate (set_overflow (es_encoder state1) zero_code)
                          (output_buf state1) (working state1) (bit_pos state1))
        | Some (result, state1) => Some (result, state1)
        end
      else Some (AWS_OP_SUCCESS, state) in
    match after_overflow with
    | None => None
    | Some (AWS_OP_SUCCESS, state1) =>
      match encode_symbols state1 to_encode with
      | None => None
      | Some (AWS_OP_SUCCESS, state2, rest) =>
        match encode_eos state2 with
        | None => None
        | Some state3 =>
          Some (AWS_OP_SUCCESS, es_encoder state3, rest, output_buf state3)
        end
      | Some (result, state2, rest) =>
        Some (result, es_encoder state2, rest, output_buf state2)
      end
    | Some (result, state1) =>
      Some (result, es_encoder state1, to_encode, output_buf state1)
    end.

(** ** Decoder *)

(** [decode_fill_working_bits]: the decoder and the cursor after the fill. *)
Fixpoint decode_fill_working_bits (decoder : aws_huffman_decoder)
    (input_cursor : aws_byte_cursor) : aws_huffman_decoder * aws_byte_cursor :=
  match input_cursor with
  | [] => (decoder, [])
  | new_byte :: rest =>
    if dec_num_bits decoder <? MAX_PATTERN_BITS then
      let positioned :=
        u64 (Z.shiftl (u8 new_byte) (64 - 8 - dec_num_bits decoder)) in
      decode_fill_working_bits
        (mk_decoder (dec_coder decoder)
                    (Z.lor (working_bits decoder) positioned)
                    (u8 (dec_num_bits decoder + 8)))
        rest
    else (decoder, input_cursor)
  end.

(** The window handed to the coder: the top 32 bits of the accumulator. *)
Definition decode_window (decoder : aws_huffman_decoder) : Z :=
  u32 (Z.shiftr (working_bits decoder) (64 - MAX_PATTERN_BITS)).

(** The [while (1)] loop of [aws_huffman_decode], with [bits_left] as the
    loop carries it.  [fuel] bounds the number of iterations. *)
Fixpoint decode_loop (fuel : nat) (decoder : aws_huffman_decoder)
    (to_decode : aws_byte_cursor) (output : aws_byte_buf) (bits_left : Z)
    : option (aws_result * aws_huffman_decoder * aws_byte_cursor * aws_byte_buf) :=
  match fuel with
  | O => None
  | S fuel' =>
    let '(decoder1, cursor1) := decode_fill_working_bits decoder to_decode in
    let '(bits_read, symbol) := coder_decode (dec_coder decoder1) (decode_window decoder1) in
    if bits_read =? 0 then
      if bits_left <? MAX_PATTERN_BITS
      then Some (AWS_OP_SUCCESS, decoder1, cursor1, output)
      else Some (AWS_ERROR_COMPRESSION_UNKNOWN_SYMBOL, decoder1, cursor1, output)
    else if bits_read >? bits_left then
      Some (AWS_OP_SUCCESS, decoder1, cursor1, output)
    else if (buf_len output =? capacity output)%nat then
      Some (AWS_ERROR_SHORT_BUFFER, decoder1, cursor1, output)
    else
      let bits_left1 := usize (bits_left - bits_read) in
      let decoder2 :=
        mk_decoder (dec_coder decoder1)
                   (u64 (Z.shiftl (working_bits decoder1) bits_read))
                   (u8 (dec_num_bits decoder1 - bits_read)) in
      let output1 := aws_byte_buf_write_u8 output symbol in
      if bits_left1 =? 0
      then Some (AWS_OP_SUCCESS, decoder2, cursor1, output1)
      else decode_loop fuel' decoder2 cursor1 output1 bits_left1
  end.

(** [aws_huffman_decode].  Every iteration that does not return takes at
    least one bit off [bits_left], so [bits_left + 1] iterations are enough. *)
Definition aws_huffman_decode (decoder : aws_huffman_decoder)
    (to_decode : aws_byte_cursor) (output : aws_byte_buf)
    : option (aws_result * aws_huffman_decoder * aws_byte_cursor * aws_byte_buf) :=
  if (buf_len output =? capacity output)%nat then
    Some (AWS_ERROR_SHORT_BUFFER, decoder, to_decode, output)
  else
    let bits_left := usize (dec_num_bits decoder + Z.of_nat (length to_decode) * 8) in
    decode_loop (S (Z.to_nat bits_left)) decoder to_decode output bits_left.

(** * The bit streams and the statements about them *)

(** ** Bit strings

    The streams the two state machines work on, most significant bit first. *)

(** The low [n] bits of [v], most significant first. *)
Fixpoint nbits (n : nat) (v : Z) : list bool :=
  match n with
  | O => []
  | S n' => Z.testbit v (Z.of_nat n') :: nbits n' v
  end.

(** The value of a bit string read as a binary numeral. *)
Fixpoint bval (l : list bool) : Z :=
  match l with
  | [] => 0
  | b :: l' => Z.b2z b * 2 ^ Z.of_nat (length l') + bval l'
  end.

(** The bits of a code, of a byte sequence and of a symbol sequence. *)
Definition code_bits (c : aws_huffman_code) : list bool :=
  nbits (Z.to_nat (num_bits c)) (pattern c).

Definition bytes_bits (bs : list Z) : list bool := flat_map (nbits 8) bs.

Definition symbols_bits (coder : aws_huffman_symbol_coder) (symbols : list Z) : list bool :=
  flat_map (fun s => code_bits (coder_encode coder (u8 s))) symbols.

Definition blen (l : list bool) : Z := Z.of_nat (length l).

Definition is_u8 (z : Z) : Prop := 0 <= z < 2 ^ 8.

(** ** The bit-packing helper

    [est_rel state wbits]: the working byte holds the bits [wbits] in its
    top [8 - bit_pos] positions and zeros below. *)
Definition est_rel (state : encoder_state) (wbits : list bool) : Prop :=
  1 <= bit_pos state <= 8 /\
  blen wbits = 8 - bit_pos state /\
  working state = bval wbits * 2 ^ bit_pos state.

Definition has_room (b : aws_byte_buf) : Prop := (buf_len b < capacity b)%nat.

(** What one run of the write loop on the code bits [cb] leaves behind. *)
Definition write_post (state : encoder_state) (wbits cb : list bool)
    (res : aws_result) (state' : encoder_state) : Prop :=
  capacity (output_buf state') = capacity (output_buf state) /\
  enc_coder (es_encoder state') = enc_coder (es_encoder state) /\
  eos_padding (es_encoder state') = eos_padding (es_encoder state) /\
  exists app,
    buffer (output_buf state') = buffer (output_buf state) ++ app /\
    Forall is_u8 app /\
    match res with
    | AWS_OP_SUCCESS =>
        es_encoder state' = es_encoder state /\
        has_room (output_buf state') /\
        exists wbits', est_rel state' wbits' /\ bytes_bits app ++ wbits' = wbits ++ cb
    | AWS_ERROR_SHORT_BUFFER =>
        buf_len (output_buf state') = capacity (output_buf state') /\
        0 <= num_bits (overflow_bits (es_encoder state')) < blen cb /\
        bytes_bits app ++ code_bits (overflow_bits (es_encoder state')) = wbits ++ cb /\
        bit_pos state' = 8 /\ working state' = 0
    | AWS_ERROR_COMPRESSION_UNKNOWN_SYMBOL => False
    end.

Ltac rsimpl :=
  cbn [es_encoder output_buf working bit_pos enc_coder eos_padding overflow_bits
       pattern num_bits buffer capacity dec_coder working_bits dec_num_bits
       set_overflow fst snd] in *.

(** ** The encoder call *)

(** The symbols the coder has a code for, and the coders whose codes fit the
    32-bit pattern. *)
Definition known (coder : aws_huffman_symbol_coder) (s : Z) : Prop :=
  num_bits (coder_encode coder (u8 s)) <> 0.

Definition valid_codes (coder : aws_huffman_symbol_coder) : Prop :=
  forall s, 0 <= s < 2 ^ 8 -> num_bits (coder_encode coder s) <= 32.

Definition encoder_ok (e : aws_huffman_encoder) : Prop :=
  valid_codes (enc_coder e) /\ 0 <= num_bits (overflow_bits e) < 32.

(** A byte buffer never holds more than its capacity. *)
Definition buf_ok (b : aws_byte_buf) : Prop := (buf_len b <= capacity b)%nat.

(** What the symbol loop leaves behind. *)
Definition symbols_post (state : encoder_state) (wbits : list bool)
    (cur : aws_byte_cursor) (res : aws_result) (state' : encoder_state)
    (cur' : aws_byte_cursor) : Prop :=
  let coder := enc_coder (es_encoder state) in
  capacity (output_buf state') = capacity (output_buf state) /\
  enc_coder (es_encoder state') = coder /\
  eos_padding (es_encoder state') = eos_padding (es_encoder state) /\
  exists app,
    buffer (output_buf state') = buffer (output_buf state) ++ app /\
    Forall is_u8 app /\
    match res with
    | AWS_OP_SUCCESS =>
        cur' = [] /\ Forall (known coder) cur /\
        es_encoder state' = es_encoder state /\
        has_room (output_buf state') /\
        exists wbits', est_rel state' wbits' /\
          bytes_bits app ++ wbits' = wbits ++ symbols_bits coder cur
    | AWS_ERROR_SHORT_BUFFER =>
        exists done, cur = done ++ cur' /\ Forall (known coder) done /\
        buf_len (output_buf state') = capacity (output_buf state') /\
        0 <= num_bits (overflow_bits (es_encoder state')) < 32 /\
        bytes_bits app ++ code_bits (overflow_bits (es_encoder state'))
        = wbits ++ symbols_bits coder done
    | AWS_ERROR_COMPRESSION_UNKNOWN_SYMBOL =>
        exists done x, cur = done ++ x :: cur' /\ Forall (known coder) done /\
        ~ known coder x /\
        es_encoder state' = es_encoder state /\
        has_room (output_buf state') /\
        exists wbits', est_rel state' wbits' /\
          bytes_bits app ++ wbits' = wbits ++ symbols_bits coder done
    end.

(** The padding bits: the [bit_pos] least significant bits of [eos_padding]
    when the last byte is partly filled. *)
Definition eos_pad (eos bitpos : Z) : list bool :=
  if bitpos =? 8 then [] else nbits (Z.to_nat bitpos) eos.

(** What a call of [aws_huffman_encode] leaves behind, in terms of the bit
    stream made of the pending overflow bits and the codes of the symbols. *)
Definition encode_post (encoder : aws_huffman_encoder) (cur : aws_byte_cursor)
    (out : aws_byte_buf) (res : aws_result) (encoder' : aws_huffman_encoder)
    (cur' : aws_byte_cursor) (out' : aws_byte_buf) : Prop :=
  let coder := enc_coder encoder in
  capacity out' = capacity out /\
  enc_coder encoder' = coder /\
  eos_padding encoder' = eos_padding encoder /\
  0 <= num_bits (overflow_bits encoder') < 32 /\
  exists app,
    buffer out' = buffer out ++ app /\
    Forall is_u8 app /\
    match res with
    | AWS_OP_SUCCESS =>
        has_room out /\ cur' = [] /\ Forall (known coder) cur /\
        num_bits (overflow_bits encoder') = 0 /\
        exists pad,
          blen pad < 8 /\ pad = nbits (length pad) (eos_padding encoder) /\
          bytes_bits app
          = code_bits (overflow_bits encoder) ++ symbols_bits coder cur ++ pad
    | AWS_ERROR_SHORT_BUFFER =>
        buf_len out' = capacity out' /\
        exists done, cur = done ++ cur' /\ Forall (known coder) done /\
        bytes_bits app ++ code_bits (overflow_bits encoder')
        = code_bits (overflow_bits encoder) ++ symbols_bits coder done
    | AWS_ERROR_COMPRESSION_UNKNOWN_SYMBOL =>
        has_room out /\
        num_bits (overflow_bits encoder') = 0 /\
        exists done x wbits, cur = done ++ x :: cur' /\
          Forall (known coder) done /\ ~ known coder x /\ blen wbits < 8 /\
          bytes_bits app ++ wbits
          = code_bits (overflow_bits encoder) ++ symbols_bits coder done
    end.

(** ** The window-fill helper and the accumulator

    [dec_rel decoder abits]: the accumulator holds the bits [abits] in its
    top [num_bits] positions and zeros below. *)
Definition dec_rel (decoder : aws_huffman_decoder) (abits : list bool) : Prop :=
  0 <= dec_num_bits decoder <= 64 /\
  blen abits = dec_num_bits decoder /\
  working_bits decoder = bval abits * 2 ^ (64 - dec_num_bits decoder).

(** The window handed to the coder, as a function of the pending bits. *)
Definition stream_window (bits : list bool) : Z :=
  bval (firstn 32 (bits ++ repeat false 32)).

(** ** The decoder as a function of the pending bit stream

    [decode_stream] restates the loop of [aws_huffman_decode] on the bit
    string made of the accumulator's valid bits followed by the bits of the
    unread bytes; [bits_left] is the loop's bit budget and [room] the free
    space of the output buffer.  It returns the result, the symbols emitted
    and the bits left pending.  [decode_loop_refines] proves that the code
    computes it. *)
Fixpoint decode_stream (fuel : nat) (coder : aws_huffman_symbol_coder)
    (bits : list bool) (bits_left : Z) (room : nat)
    : aws_result * list Z * list bool :=
  match fuel with
  | O => (AWS_OP_SUCCESS, [], bits)
  | S fuel' =>
    let '(bits_read, symbol) := coder_decode coder (stream_window bits) in
    if bits_read =? 0 then
      if bits_left <? 32
      then (AWS_OP_SUCCESS, [], bits)
      else (AWS_ERROR_COMPRESSION_UNKNOWN_SYMBOL, [], bits)
    else if bits_read >? bits_left then (AWS_OP_SUCCESS, [], bits)
    else
      match room with
      | O => (AWS_ERROR_SHORT_BUFFER, [], bits)
      | S room' =>
        let rest := skipn (Z.to_nat bits_read) bits in
        if bits_left - bits_read =? 0 then (AWS_OP_SUCCESS, [symbol], rest)
        else
          let '(res, syms, rem) :=
            decode_stream fuel' coder rest (bits_left - bits_read) room' in
          (res, symbol :: syms, rem)
      end
  end.

(** The budget of a call of [aws_huffman_decode]: all the pending bits. *)
Definition decode_bits (coder : aws_huffman_symbol_coder) (bits : list bool) (room : nat)
    : aws_result * list Z * list bool :=
  decode_stream (S (length bits)) coder bits (blen bits) room.

(** The coders that never report more bits than the window holds. *)
Definition decode_bounded (coder : aws_huffman_symbol_coder) : Prop :=
  forall w, 0 <= w < 2 ^ 32 -> fst (coder_decode coder w) <= 32.

(** What a run of the decode loop leaves behind: the symbols are appended,
    the pending bits [rem] are in the accumulator and the unread bytes; when
    the budget covered all the pending bits, a successful run has read the
    whole cursor. *)
Definition decode_post (coder : aws_huffman_symbol_coder) (out : aws_byte_buf)
    (all_bits : Prop) (res : aws_result) (syms : list Z) (rem : list bool)
    (r : option (aws_result * aws_huffman_decoder * aws_byte_cursor * aws_byte_buf)) : Prop :=
  exists decoder' cur' abits',
    r = Some (res, decoder', cur', mk_buf (buffer out ++ syms) (capacity out)) /\
    dec_coder decoder' = coder /\
    dec_rel decoder' abits' /\ dec_num_bits decoder' <= 39 /\
    abits' ++ bytes_bits cur' = rem /\
    (all_bits -> res = AWS_OP_SUCCESS -> cur' = []).

(** The decoder states reachable from [aws_huffman_decoder_init] by
    [aws_huffman_decoder_reset] and by calls of [aws_huffman_decode] on any
    cursor and any (well-formed) output buffer. *)
Inductive decoder_reachable (coder : aws_huffman_symbol_coder) : aws_huffman_decoder -> Prop :=
| reach_init : decoder_reachable coder (aws_huffman_decoder_init coder)
| reach_reset decoder :
    decoder_reachable coder decoder ->
    decoder_reachable coder (aws_huffman_decoder_reset decoder)
| reach_decode decoder cur out res decoder' cur' out' :
    decoder_reachable coder decoder -> buf_ok out ->
    aws_huffman_decode decoder cur out = Some (res, decoder', cur', out') ->
    decoder_reachable coder decoder'.

(** The states in which the loop of a call
    [aws_huffman_decode decoder cur out] stands at the head of an
    iteration, with the value [bits_left] has there: the first iteration,
    entered when the output buffer is not at capacity, and the iteration
    that follows one that has found a code within [bits_left], has written
    its symbol and has not brought [bits_left] to 0. *)
Inductive decode_iteration (decoder : aws_huffman_decoder) (cur : aws_byte_cursor)
    (out : aws_byte_buf)
    : aws_huffman_decoder -> aws_byte_cursor -> aws_byte_buf -> Z -> Prop :=
| iter_first :
    buf_len out <> capacity out ->
    decode_iteration decoder cur out decoder cur out
      (usize (dec_num_bits decoder + Z.of_nat (length cur) * 8))
| iter_next d c o bits_left decoder1 cursor1 bits_read symbol :
    decode_iteration decoder cur out d c o bits_left ->
    decode_fill_working_bits d c = (decoder1, cursor1) ->
    coder_decode (dec_coder decoder1) (decode_window decoder1) = (bits_read, symbol) ->
    bits_read <> 0 -> bits_read <= bits_left ->
    buf_len o <> capacity o ->
    usize (bits_left - bits_read) <> 0 ->
    decode_iteration decoder cur out
      (mk_decoder (dec_coder decoder1)
                  (u64 (Z.shiftl (working_bits decoder1) bits_read))
                  (u8 (dec_num_bits decoder1 - bits_read)))
      cursor1 (aws_byte_buf_write_u8 o symbol) (usize (bits_left - bits_read)).

(** ** Example coders *)

(** [abc_coder] is the table of the specification's
    examples: A -> 0 (1 bit), B -> 10, C -> 11 (2 bits), with A = 65, B = 66
    and C = 67, and no code for any other symbol.  [ab_coder] has no code
    that starts with the bits 11. *)
Definition abc_encode (symbol : Z) : aws_huffman_code :=
  if symbol =? 65 then mk_code 0 1
  else if symbol =? 66 then mk_code 2 2
  else if symbol =? 67 then mk_code 3 2
  else mk_code 0 0.

Definition abc_decode (bits : Z) : Z * Z :=
  if Z.testbit bits 31 then
    if Z.testbit bits 30 then (2, 67) else (2, 66)
  else (1, 65).

Definition abc_coder : aws_huffman_symbol_coder := mk_coder abc_encode abc_decode.

Definition ab_encode (symbol : Z) : aws_huffman_code :=
  if symbol =? 65 then mk_code 0 1
  else if symbol =? 66 then mk_code 2 2
  else mk_code 0 0.

Definition ab_decode (bits : Z) : Z * Z :=
  if Z.testbit bits 31 then
    if Z.testbit bits 30 then (0, 0) else (2, 66)
  else (1, 65).

Definition ab_coder : aws_huffman_symbol_coder := mk_coder ab_encode ab_decode.

(** ** Streams, budgets and caller loops *)

(** The free bytes of a buffer. *)
Definition free_bytes (b : aws_byte_buf) : Z := Z.of_nat (capacity b) - Z.of_nat (buf_len b).

(** The bit stream a call of [aws_huffman_encode] has to write. *)
Definition encode_stream (encoder : aws_huffman_encoder) (cur : aws_byte_cursor) : list bool :=
  code_bits (overflow_bits encoder) ++ symbols_bits (enc_coder encoder) cur.

(** The sum of the code lengths of a symbol sequence. *)
Definition total_code_bits (coder : aws_huffman_symbol_coder) (symbols : list Z) : Z :=
  fold_right (fun s acc => num_bits (coder_encode coder (u8 s)) + acc) 0 symbols.

(** ** Prefix codes *)

(** [decodes_back coder s]: [s] has a code of 1 to 32 bits, and every
    window that starts with that code is decoded as [s], reading the code's
    length. *)
Definition decodes_back (coder : aws_huffman_symbol_coder) (s : Z) : Prop :=
  let c := coder_encode coder (u8 s) in
  1 <= num_bits c <= 32 /\
  forall r, 0 <= r < 2 ^ (32 - num_bits c) ->
    coder_decode coder ((pattern c mod 2 ^ num_bits c) * 2 ^ (32 - num_bits c) + r)
    = (num_bits c, u8 s).

(** The coders whose encode and decode functions form a prefix code: the
    decoder reports at most 32 bits, and every symbol that has a code is
    decoded back from every window that starts with its code. *)
Definition prefix_code (coder : aws_huffman_symbol_coder) : Prop :=
  decode_bounded coder /\
  forall s, is_u8 s -> known coder s -> decodes_back coder s.

(** The coders whose decode function reads what it reports: the result on
    a window is the same on every window with the same first [bits_read]
    bits. *)
Definition decode_prefix_stable (coder : aws_huffman_symbol_coder) : Prop :=
  forall w w', 0 <= w < 2 ^ 32 -> 0 <= w' < 2 ^ 32 ->
    let n := fst (coder_decode coder w) in
    n <> 0 -> w / 2 ^ (32 - n) = w' / 2 ^ (32 - n) ->
    coder_decode coder w' = coder_decode coder w.

(** ** Work split across calls *)

(** The caller's loop around [aws_huffman_encode]: a fresh, empty buffer of
    each of the capacities [caps] in turn, the call being repeated with the
    same encoder and cursor while it returns short-buffer.  The bytes of all
    the buffers are returned in order. *)
Fixpoint encode_with_buffers (encoder : aws_huffman_encoder) (cur : aws_byte_cursor)
    (caps : list nat)
    : option (aws_result * aws_huffman_encoder * aws_byte_cursor * list Z) :=
  match caps with
  | [] => Some (AWS_ERROR_SHORT_BUFFER, encoder, cur, [])
  | c :: caps' =>
    match aws_huffman_encode encoder cur (mk_buf [] c) with
    | None => None
    | Some (AWS_ERROR_SHORT_BUFFER, encoder', cur', out) =>
      match encode_with_buffers encoder' cur' caps' with
      | None => None
      | Some (res, encoder'', cur'', bytes) => Some (res, encoder'', cur'', buffer out ++ bytes)
      end
    | Some (res, encoder', cur', out) => Some (res, encoder', cur', buffer out)
    end
  end.

Definition buffers_post (encoder : aws_huffman_encoder) (cur : aws_byte_cursor)
    (caps : list nat) (res : aws_result) (encoder' : aws_huffman_encoder)
    (cur' : aws_byte_cursor) (bytes : list Z) : Prop :=
  let coder := enc_coder encoder in
  enc_coder encoder' = coder /\
  eos_padding encoder' = eos_padding encoder /\
  0 <= num_bits (overflow_bits encoder') < 32 /\
  Forall is_u8 bytes /\
  match res with
  | AWS_OP_SUCCESS =>
      cur' = [] /\ Forall (known coder) cur /\
      exists pad,
        blen pad < 8 /\ pad = nbits (length pad) (eos_padding encoder) /\
        bytes_bits bytes = encode_stream encoder cur ++ pad
  | AWS_ERROR_SHORT_BUFFER =>
      length bytes = list_sum caps /\
      exists done, cur = done ++ cur' /\ Forall (known coder) done /\
      bytes_bits bytes ++ code_bits (overflow_bits encoder') = encode_stream encoder done
  | AWS_ERROR_COMPRESSION_UNKNOWN_SYMBOL =>
      exists done x wbits, cur = done ++ x :: cur' /\
        Forall (known coder) done /\ ~ known coder x /\ blen wbits < 8 /\
        bytes_bits bytes ++ wbits = encode_stream encoder done
  end.

(** The caller's loop around [aws_huffman_decode]: the encoded bytes arrive
    in the chunks [chunks], each handed to one call with the same decoder
    and output buffer; the caller stops at the first call that fails. *)
Fixpoint decode_chunks (decoder : aws_huffman_decoder) (chunks : list aws_byte_cursor)
    (out : aws_byte_buf) : option (aws_result * aws_huffman_decoder * aws_byte_buf) :=
  match chunks with
  | [] => Some (AWS_OP_SUCCESS, decoder, out)
  | chunk :: chunks' =>
    match aws_huffman_decode decoder chunk out with
    | None => None
    | Some (AWS_OP_SUCCESS, decoder', _, out') => decode_chunks decoder' chunks' out'
    | Some (res, decoder', _, out') => Some (res, decoder', out')
    end
  end.

Definition decoded_symbols (coder : aws_huffman_symbol_coder) (bits : list bool)
    (room : nat) : list Z :=
  snd (fst (decode_bits coder bits room)).

(** * Proofs *)

(** ** Bit strings *)

Lemma pow2_pos (n : Z) : 0 <= n -> 0 < 2 ^ n.
Proof. intros; apply Z.pow_pos_nonneg; lia. Qed.

Lemma pow2_split (a b : Z) : 0 <= b <= a -> 2 ^ a = 2 ^ (a - b) * 2 ^ b.
Proof. intros; rewrite <- Z.pow_add_r by lia; f_equal; lia. Qed.

Lemma nbits_length (n : nat) (v : Z) : length (nbits n v) = n.
Proof. induction n; simpl; congruence. Qed.

Lemma bval_range (l : list bool) : 0 <= bval l < 2 ^ blen l.
Proof.
  unfold blen; induction l as [|b l IH]; simpl length; simpl bval.
  - simpl; lia.
  - rewrite Nat2Z.inj_succ, Z.pow_succ_r by lia.
    destruct b; simpl Z.b2z; lia.
Qed.

Lemma bval_app (l1 l2 : list bool) :
  bval (l1 ++ l2) = bval l1 * 2 ^ blen l2 + bval l2.
Proof.
  unfold blen; induction l1 as [|b l1 IH]; simpl app; simpl bval.
  - lia.
  - rewrite IH, length_app, Nat2Z.inj_add, Z.pow_add_r by lia. ring.
Qed.

Lemma bval_nbits (n : nat) (v : Z) : bval (nbits n v) = v mod 2 ^ Z.of_nat n.
Proof.
  induction n as [|n IH].
  - simpl. now rewrite Z.mod_1_r.
  - simpl nbits; simpl bval. rewrite nbits_length, IH.
    rewrite Nat2Z.inj_succ, Z.pow_succ_r by lia.
    rewrite (Z.mul_comm 2), Z.rem_mul_r by (try apply Z.pow_nonzero; lia).
    rewrite Z.testbit_spec' by lia. ring.
Qed.

Lemma nbits_mod (n : nat) (v : Z) (m : Z) :
  Z.of_nat n <= m -> nbits n (v mod 2 ^ m) = nbits n v.
Proof.
  induction n as [|n IH]; intros Hm; simpl; [reflexivity|].
  rewrite Z.mod_pow2_bits_low by lia. f_equal. apply IH; lia.
Qed.

Lemma bval_inj (l1 l2 : list bool) :
  length l1 = length l2 -> bval l1 = bval l2 -> l1 = l2.
Proof.
  revert l2; induction l1 as [|a l1 IH]; intros [|b l2] Hl Hv; simpl in Hl; try discriminate.
  - reflexivity.
  - injection Hl as Hl. simpl in Hv. rewrite Hl in Hv.
    pose proof (bval_range l1) as R1. pose proof (bval_range l2) as R2.
    unfold blen in *. rewrite Hl in R1.
    assert (a = b) as ->.
    { destruct a, b; simpl Z.b2z in Hv; try reflexivity; lia. }
    f_equal. apply IH; [assumption | lia].
Qed.

Lemma nbits_bval (l : list bool) : nbits (length l) (bval l) = l.
Proof.
  apply bval_inj.
  - apply nbits_length.
  - rewrite bval_nbits. apply Z.mod_small. apply bval_range.
Qed.

Lemma nbits_app (n m : nat) (v : Z) :
  nbits (n + m) v = nbits n (v / 2 ^ Z.of_nat m) ++ nbits m v.
Proof.
  induction n as [|n IH]; simpl; [reflexivity|].
  rewrite IH. f_equal.
  rewrite Z.div_pow2_bits by lia. f_equal. lia.
Qed.

Lemma firstn_nbits (n m : nat) (v : Z) :
  (m <= n)%nat -> firstn m (nbits n v) = nbits m (v / 2 ^ Z.of_nat (n - m)).
Proof.
  intros H. replace n with (m + (n - m))%nat at 1 by lia.
  rewrite nbits_app, firstn_app, nbits_length, Nat.sub_diag, firstn_O, app_nil_r.
  apply firstn_all2. rewrite nbits_length. lia.
Qed.

Lemma skipn_nbits (n m : nat) (v : Z) :
  (m <= n)%nat -> skipn m (nbits n v) = nbits (n - m) v.
Proof.
  intros H. replace n with (m + (n - m))%nat at 1 by lia.
  rewrite nbits_app, skipn_app, nbits_length, Nat.sub_diag, skipn_O.
  rewrite skipn_all2 by (rewrite nbits_length; lia). reflexivity.
Qed.

Lemma bytes_bits_app (a b : list Z) : bytes_bits (a ++ b) = bytes_bits a ++ bytes_bits b.
Proof. apply flat_map_app. Qed.

Lemma bytes_bits_length (bs : list Z) : length (bytes_bits bs) = (8 * length bs)%nat.
Proof.
  induction bs as [|b bs IH]; [reflexivity|].
  change (bytes_bits (b :: bs)) with (nbits 8 b ++ bytes_bits bs).
  rewrite length_app, nbits_length, IH. simpl length. lia.
Qed.

Lemma app_inj_length {A : Type} (a b c d : list A) :
  length a = length c -> a ++ b = c ++ d -> a = c /\ b = d.
Proof.
  revert c; induction a as [|x a IH]; intros [|y c] Hl E; simpl in Hl; try discriminate.
  - auto.
  - injection Hl as Hl. simpl in E. injection E as -> E.
    destruct (IH c Hl E) as [-> ->]. auto.
Qed.

Lemma bytes_bits_inj (a b : list Z) :
  Forall is_u8 a -> Forall is_u8 b -> bytes_bits a = bytes_bits b -> a = b.
Proof.
  intros Ha; revert b; induction Ha as [|x a Hx Ha IH]; intros b Hb E.
  - destruct b as [|y b]; [reflexivity|]. discriminate E.
  - destruct Hb as [|y b Hy Hb]; [discriminate E|].
    change (nbits 8 x ++ bytes_bits a = nbits 8 y ++ bytes_bits b) in E.
    apply app_inj_length in E; [|now rewrite !nbits_length].
    destruct E as [E1 E2]. f_equal; [|now apply IH].
    apply (f_equal bval) in E1. rewrite !bval_nbits in E1.
    unfold is_u8 in *. change (Z.of_nat 8) with 8 in E1.
    rewrite !Z.mod_small in E1 by assumption. exact E1.
Qed.

(** ** Arithmetic of the shifts and masks *)

Lemma u8_small (z : Z) : 0 <= z < 2 ^ 8 -> u8 z = z.
Proof. apply Z.mod_small. Qed.

Lemma u32_small (z : Z) : 0 <= z < 2 ^ 32 -> u32 z = z.
Proof. apply Z.mod_small. Qed.

Lemma u64_small (z : Z) : 0 <= z < 2 ^ 64 -> u64 z = z.
Proof. apply Z.mod_small. Qed.

Lemma usize_small (z : Z) : 0 <= z < 2 ^ 64 -> usize z = z.
Proof. apply Z.mod_small. Qed.

Lemma blen_app (a b : list bool) : blen (a ++ b) = blen a + blen b.
Proof. unfold blen. rewrite length_app. lia. Qed.

Lemma blen_nonneg (a : list bool) : 0 <= blen a.
Proof. unfold blen. lia. Qed.

Lemma blen_bytes_bits (l : list Z) : blen (bytes_bits l) = 8 * Z.of_nat (length l).
Proof. unfold blen. rewrite bytes_bits_length. lia. Qed.

Lemma u8_range (z : Z) : 0 <= u8 z < 2 ^ 8.
Proof. apply Z.mod_pos_bound. reflexivity. Qed.

(** An OR into positions that are still zero is an addition. *)
Lemma lor_disjoint (a y n : Z) :
  0 <= n -> 0 <= y < 2 ^ n -> Z.lor (a * 2 ^ n) y = a * 2 ^ n + y.
Proof.
  intros Hn Hy.
  assert (Z.land (a * 2 ^ n) y = 0) as H0.
  { apply Z.bits_inj'. intros i Hi.
    rewrite Z.land_spec, Z.bits_0.
    destruct (Z.lt_ge_cases i n) as [L|G].
    - rewrite <- Z.shiftl_mul_pow2 by lia.
      rewrite Z.shiftl_spec_low by lia. reflexivity.
    - rewrite <- (Z.mod_small y (2 ^ n)) by lia.
      rewrite Z.mod_pow2_bits_high by lia. apply andb_false_r. }
  rewrite Z.add_nocarry_lxor by exact H0. symmetry. apply Z.lxor_lor. exact H0.
Qed.

(** A left shift in a [w]-bit object keeps the low [w - s] bits. *)
Lemma shiftl_wrap (w p s : Z) :
  0 <= s <= w -> (Z.shiftl p s) mod 2 ^ w = (p mod 2 ^ (w - s)) * 2 ^ s.
Proof.
  intros H. rewrite Z.shiftl_mul_pow2 by lia.
  rewrite (pow2_split w s) by lia. apply Zmult_mod_distr_r.
Qed.

Lemma mod_div_pow2 (p a b : Z) :
  0 <= a -> 0 <= b -> (p mod 2 ^ (a + b)) / 2 ^ a = (p / 2 ^ a) mod 2 ^ b.
Proof.
  intros Ha Hb. rewrite Z.pow_add_r by lia.
  rewrite Z.rem_mul_r by (try apply Z.pow_nonzero; try apply pow2_pos; lia).
  rewrite (Z.mul_comm (2 ^ a)), Z.div_add by (apply Z.pow_nonzero; lia).
  rewrite Z.div_small by (apply Z.mod_pos_bound, pow2_pos; lia). lia.
Qed.

(** The value OR-ed into the working byte by one iteration of the write
    loop: the next [min k bp] bits of the code, placed below the bits the
    byte already holds. *)
Lemma write_chunk_value (p k bp : Z) :
  1 <= k <= 32 -> 1 <= bp <= 8 ->
  Z.shiftr (u32 (Z.shiftl p (32 - k))) (32 - bp)
  = bval (firstn (Z.to_nat (Z.min k bp)) (nbits (Z.to_nat k) p))
    * 2 ^ (bp - Z.min k bp).
Proof.
  intros Hk Hbp. unfold u32. rewrite shiftl_wrap by lia.
  rewrite Z.shiftr_div_pow2 by lia.
  replace (32 - (32 - k)) with k by lia.
  destruct (Z.le_gt_cases k bp) as [L|G].
  - rewrite Z.min_l by lia.
    rewrite firstn_all2 by (rewrite nbits_length; lia).
    rewrite bval_nbits, Z2Nat.id by lia.
    rewrite (pow2_split (32 - k) (32 - bp)) by lia.
    rewrite Z.mul_assoc, Z.div_mul by (apply Z.pow_nonzero; lia).
    f_equal. f_equal. lia.
  - rewrite Z.min_r by lia. rewrite Z.sub_diag, Z.mul_1_r.
    rewrite firstn_nbits by lia. rewrite bval_nbits.
    rewrite <- Z2Nat.inj_sub by lia. rewrite !Z2Nat.id by lia.
    rewrite (pow2_split (32 - bp) (32 - k)) by lia.
    rewrite Z.div_mul_cancel_r by (apply Z.pow_nonzero; lia).
    replace (32 - bp - (32 - k)) with (k - bp) by lia.
    replace k with ((k - bp) + bp) at 1 by lia.
    apply mod_div_pow2; lia.
Qed.

(** The bits kept in [overflow_bits]: the low [k] bits of the pattern. *)
Lemma overflow_value (p k : Z) :
  1 <= k <= 32 ->
  Z.shiftr (u32 (Z.shiftl p (32 - k))) (32 - k) = p mod 2 ^ k.
Proof.
  intros Hk. unfold u32. rewrite shiftl_wrap by lia.
  rewrite Z.shiftr_div_pow2 by lia.
  replace (32 - (32 - k)) with k by lia.
  apply Z.div_mul. apply Z.pow_nonzero; lia.
Qed.

(** ** The bit-packing helper *)

Lemma write_bits_loop_unfold (fuel : nat) (state : encoder_state)
    (bit_pattern : aws_huffman_code) (bits_to_write : Z) :
  write_bits_loop (S fuel) state bit_pattern bits_to_write =
  if bits_to_write >? 0 then
      let bits_for_current :=
        if bits_to_write >? bit_pos state then bit_pos state else bits_to_write in
      let bits_to_cut :=
        u8 ((MAX_PATTERN_BITS - num_bits bit_pattern)
            + (num_bits bit_pattern - bits_to_write)) in
      let working1 :=
        u8 (Z.lor (working state)
                  (Z.shiftr (u32 (Z.shiftl (pattern bit_pattern) bits_to_cut))
                            (MAX_PATTERN_BITS - bit_pos state))) in
      let bits_to_write1 := u8 (bits_to_write - bits_for_current) in
      let bit_pos1 := u8 (bit_pos state - bits_for_current) in
      if bit_pos1 =? 0 then
        let out1 := aws_byte_buf_write_u8 (output_buf state) working1 in
        if (buf_len out1 =? capacity out1)%nat then
          let bits_to_cut1 := u8 (bits_to_cut + bits_for_current) in
          let pattern1 :=
            if bits_to_write1 =? 0 then pattern (overflow_bits (es_encoder state))
            else Z.shiftr (u32 (Z.shiftl (pattern bit_pattern) bits_to_cut1))
                          (MAX_PATTERN_BITS - bits_to_write1) in
          Some (AWS_ERROR_SHORT_BUFFER,
                mk_estate (set_overflow (es_encoder state) (mk_code pattern1 bits_to_write1))
                          out1 0 8)
        else
          write_bits_loop fuel (mk_estate (es_encoder state) out1 0 8)
                          bit_pattern bits_to_write1
      else
        write_bits_loop fuel
          (mk_estate (es_encoder state) (output_buf state) working1 bit_pos1)
          bit_pattern bits_to_write1
  else Some (AWS_OP_SUCCESS, state).
Proof. reflexivity. Qed.

Lemma write_bits_loop_zero (fuel : nat) (state : encoder_state) (bit_pattern : aws_huffman_code) :
  write_bits_loop fuel state bit_pattern 0 = Some (AWS_OP_SUCCESS, state).
Proof. destruct fuel; reflexivity. Qed.

(** The working byte after one iteration. *)
Lemma write_step_working (state : encoder_state) (wbits : list bool) (p k : Z) :
  est_rel state wbits -> 1 <= k <= 32 ->
  let m := Z.min k (bit_pos state) in
  let chunk := firstn (Z.to_nat m) (nbits (Z.to_nat k) p) in
  u8 (Z.lor (working state)
            (Z.shiftr (u32 (Z.shiftl p (32 - k))) (32 - bit_pos state)))
  = bval (wbits ++ chunk) * 2 ^ (bit_pos state - m)
  /\ blen chunk = m.
Proof.
  intros (Hbp & Hlen & Hw) Hk m chunk.
  assert (blen chunk = m) as Hc.
  { unfold blen, chunk. rewrite length_firstn, nbits_length. unfold m. lia. }
  split; [|exact Hc].
  rewrite write_chunk_value by lia. fold m. fold chunk.
  pose proof (bval_range chunk) as Rc. rewrite Hc in Rc.
  pose proof (bval_range wbits) as Rw. rewrite Hlen in Rw.
  assert (0 <= m <= bit_pos state) as Hm by (unfold m; lia).
  assert (0 < 2 ^ (bit_pos state - m)) as Hp by (apply pow2_pos; lia).
  assert (2 ^ bit_pos state = 2 ^ m * 2 ^ (bit_pos state - m)) as Hs.
  { rewrite <- Z.pow_add_r by lia. f_equal. lia. }
  assert (2 ^ 8 = 2 ^ (8 - bit_pos state) * 2 ^ m * 2 ^ (bit_pos state - m)) as H8.
  { rewrite <- !Z.pow_add_r by lia. f_equal. lia. }
  rewrite Hw, lor_disjoint by nia.
  rewrite bval_app, Hc.
  rewrite u8_small by nia. rewrite Hs. ring.
Qed.

Lemma write_bits_loop_spec (fuel : nat) :
  forall (state : encoder_state) (wbits : list bool)
         (bit_pattern : aws_huffman_code) (k : Z),
    est_rel state wbits ->
    0 <= k <= num_bits bit_pattern -> num_bits bit_pattern <= 32 ->
    (Z.to_nat k <= fuel)%nat ->
    has_room (output_buf state) ->
    exists res state',
      write_bits_loop fuel state bit_pattern k = Some (res, state') /\
      write_post state wbits (nbits (Z.to_nat k) (pattern bit_pattern)) res state'.
Proof.
  induction fuel as [|fuel IH]; intros state wbits bp k Hrel Hk Hn Hfuel Hroom.
  - assert (k = 0) as -> by lia. exists AWS_OP_SUCCESS, state. split; [reflexivity|].
    repeat split. exists []. rewrite !app_nil_r. repeat split; auto.
    exists wbits. auto.
  - destruct (Z.eq_dec k 0) as [->|Hk0].
    { rewrite write_bits_loop_zero. exists AWS_OP_SUCCESS, state. split; [reflexivity|].
      repeat split. exists []. rewrite !app_nil_r. repeat split; auto.
      exists wbits. auto. }
    rewrite write_bits_loop_unfold.
    replace (k >? 0) with true by (symmetry; apply Z.gtb_lt; lia).
    cbv zeta.
    pose proof Hrel as (Hbp & Hlen & Hw).
    set (m := Z.min k (bit_pos state)).
    assert ((if k >? bit_pos state then bit_pos state else k) = m) as Em.
    { unfold m. destruct (k >? bit_pos state) eqn:E.
      - apply Z.gtb_lt in E. lia.
      - rewrite Z.gtb_ltb in E. apply Z.ltb_ge in E. lia. }
    rewrite Em.
    assert (u8 (MAX_PATTERN_BITS - num_bits bp + (num_bits bp - k)) = 32 - k) as Ecut.
    { unfold MAX_PATTERN_BITS. rewrite u8_small; [lia|]. change (2 ^ 8) with 256. lia. }
    rewrite Ecut. unfold MAX_PATTERN_BITS.
    destruct (write_step_working state wbits (pattern bp) k Hrel ltac:(lia)) as [Ework Hclen].
    fold m in Ework, Hclen.
    set (chunk := firstn (Z.to_nat m) (nbits (Z.to_nat k) (pattern bp))) in *.
    rewrite Ework.
    assert (0 <= m <= bit_pos state /\ 1 <= m <= k) as Hm by (unfold m; lia).
    rewrite (u8_small (k - m)) by (change (2 ^ 8) with 256; lia).
    rewrite (u8_small (bit_pos state - m)) by (change (2 ^ 8) with 256; lia).
    assert (nbits (Z.to_nat k) (pattern bp)
            = chunk ++ nbits (Z.to_nat (k - m)) (pattern bp)) as Esplit.
    { rewrite <- (firstn_skipn (Z.to_nat m) (nbits (Z.to_nat k) (pattern bp))) at 1.
      fold chunk. f_equal. rewrite skipn_nbits by lia. f_equal. lia. }
    destruct (bit_pos state - m =? 0) eqn:Ezero.
    + (* the byte is complete *)
      apply Z.eqb_eq in Ezero. rewrite Ezero, Z.pow_0_r, Z.mul_1_r.
      assert (aws_byte_buf_write_u8 (output_buf state) (bval (wbits ++ chunk))
              = mk_buf (buffer (output_buf state) ++ [bval (wbits ++ chunk)])
                       (capacity (output_buf state))) as Eout.
      { unfold aws_byte_buf_write_u8. unfold has_room in Hroom.
        replace (buf_len (output_buf state) <? capacity (output_buf state))%nat with true
          by (symmetry; apply Nat.ltb_lt; exact Hroom).
        rewrite u8_small; [reflexivity|].
        pose proof (bval_range (wbits ++ chunk)) as R.
        unfold blen in *. rewrite length_app, Nat2Z.inj_add, Hlen, Hclen in R.
        replace (8 - bit_pos state + m) with 8 in R by lia. exact R. }
      rewrite Eout.
      assert (is_u8 (bval (wbits ++ chunk))) as Hbyte.
      { pose proof (bval_range (wbits ++ chunk)) as R.
        unfold blen in *. rewrite length_app, Nat2Z.inj_add, Hlen, Hclen in R.
        replace (8 - bit_pos state + m) with 8 in R by lia. exact R. }
      assert (nbits 8 (bval (wbits ++ chunk)) = wbits ++ chunk) as Ebyte.
      { replace 8%nat with (length (wbits ++ chunk)); [apply nbits_bval|].
        unfold blen in *. rewrite length_app. lia. }
      destruct (buf_len _ =? capacity _)%nat eqn:Efull.
      * (* the buffer is full: the rest of the code goes to overflow_bits *)
        apply Nat.eqb_eq in Efull.
        eexists _, _. split; [reflexivity|].
        unfold write_post; rsimpl. repeat split.
        exists [bval (wbits ++ chunk)]. repeat split; auto.
        -- lia.
        -- unfold blen. rewrite nbits_length. lia.
        -- unfold code_bits; rsimpl.
           change (bytes_bits [bval (wbits ++ chunk)])
             with (nbits 8 (bval (wbits ++ chunk)) ++ []).
           rewrite app_nil_r, Ebyte, Esplit, <- app_assoc.
           f_equal. f_equal.
           destruct (k - m =? 0) eqn:Ekm.
           ++ apply Z.eqb_eq in Ekm. rewrite Ekm. reflexivity.
           ++ apply Z.eqb_neq in Ekm.
              rewrite u8_small by (change (2 ^ 8) with 256; lia).
              replace (32 - k + m) with (32 - (k - m)) by lia.
              rewrite overflow_value by lia.
              apply nbits_mod. lia.
      * apply Nat.eqb_neq in Efull. rsimpl.
        set (state1 := mk_estate (es_encoder state)
                         (mk_buf (buffer (output_buf state) ++ [bval (wbits ++ chunk)])
                                 (capacity (output_buf state))) 0 8).
        assert (est_rel state1 []) as Hrel1.
        { unfold est_rel, state1; rsimpl. unfold blen. cbn [length bval]. lia. }
        assert (has_room (output_buf state1)) as Hroom1.
        { unfold has_room, state1, buf_len in *; rsimpl.
          rewrite length_app in *; cbn [length] in *. lia. }
        destruct (IH state1 [] bp (k - m) Hrel1 ltac:(lia) Hn ltac:(lia) Hroom1)
          as (res & state' & Erun & Hcap & Hcoder & Heos & app & Happ & Hu8 & Hres).
        exists res, state'. split; [exact Erun|].
        unfold write_post. unfold state1 in Hcap, Hcoder, Heos, Happ. rsimpl.
        repeat split; try assumption.
        exists (bval (wbits ++ chunk) :: app). split; [|split].
        -- rewrite Happ, <- app_assoc. reflexivity.
        -- constructor; assumption.
        -- change (bytes_bits (bval (wbits ++ chunk) :: app))
             with (nbits 8 (bval (wbits ++ chunk)) ++ bytes_bits app).
           rewrite Ebyte, Esplit.
           destruct res; try assumption.
           ++ destruct Hres as (He & Hr & wbits' & Hrel' & Hbits).
              repeat split; try assumption. exists wbits'. split; [assumption|].
              cbn [List.app] in Hbits. rewrite <- !app_assoc. f_equal. f_equal. exact Hbits.
           ++ destruct Hres as (Hf & Hov & Hbits & Hpos & Hwork).
              repeat split; try assumption; try lia.
              ** unfold blen in *. rewrite length_app. rewrite nbits_length in *. lia.
              ** cbn [List.app] in Hbits. rewrite <- !app_assoc. f_equal. f_equal. exact Hbits.
    + (* the code ends inside the byte *)
      apply Z.eqb_neq in Ezero.
      assert (m = k) as Emk by (unfold m in *; lia).
      set (state1 := mk_estate (es_encoder state) (output_buf state)
                       (bval (wbits ++ chunk) * 2 ^ (bit_pos state - m))
                       (bit_pos state - m)).
      assert (est_rel state1 (wbits ++ chunk)) as Hrel1.
      { unfold est_rel, state1; rsimpl. unfold blen in *.
        rewrite length_app, Nat2Z.inj_add. repeat split; lia. }
      replace (k - m) with 0 in * by lia. rewrite write_bits_loop_zero.
      exists AWS_OP_SUCCESS, state1. split; [reflexivity|].
      unfold write_post. repeat split.
      exists []. rewrite app_nil_r. repeat split; auto.
      exists (wbits ++ chunk). split; [exact Hrel1|].
      cbn [bytes_bits flat_map List.app]. rewrite Esplit.
      cbn [Z.to_nat nbits]. now rewrite app_nil_r.
Qed.

(** ** The encoder call *)

Lemma coder_encode_num_bits_range (coder : aws_huffman_symbol_coder) (s : Z) :
  0 <= num_bits (coder_encode coder s) < 2 ^ 8.
Proof. unfold coder_encode; rsimpl. apply u8_range. Qed.

Lemma encode_write_bit_pattern_spec (state : encoder_state) (wbits : list bool)
    (bit_pattern : aws_huffman_code) :
  est_rel state wbits -> has_room (output_buf state) ->
  1 <= num_bits bit_pattern <= 32 ->
  exists res state',
    encode_write_bit_pattern state bit_pattern = Some (res, state') /\
    write_post state wbits (code_bits bit_pattern) res state'.
Proof.
  intros Hrel Hroom Hn. unfold encode_write_bit_pattern.
  replace (num_bits bit_pattern =? 0) with false by (symmetry; apply Z.eqb_neq; lia).
  apply write_bits_loop_spec; try assumption; lia.
Qed.

Lemma symbols_bits_cons (coder : aws_huffman_symbol_coder) (s : Z) (l : list Z) :
  symbols_bits coder (s :: l) = code_bits (coder_encode coder (u8 s)) ++ symbols_bits coder l.
Proof. reflexivity. Qed.

Lemma symbols_bits_app (coder : aws_huffman_symbol_coder) (a b : list Z) :
  symbols_bits coder (a ++ b) = symbols_bits coder a ++ symbols_bits coder b.
Proof. apply flat_map_app. Qed.

Lemma code_bits_length (c : aws_huffman_code) :
  0 <= num_bits c -> blen (code_bits c) = num_bits c.
Proof. intros H. unfold blen, code_bits. rewrite nbits_length. lia. Qed.

Lemma encode_symbols_spec (cur : aws_byte_cursor) :
  forall (state : encoder_state) (wbits : list bool),
    est_rel state wbits -> has_room (output_buf state) ->
    valid_codes (enc_coder (es_encoder state)) ->
    exists res state' cur',
      encode_symbols state cur = Some (res, state', cur') /\
      symbols_post state wbits cur res state' cur'.
Proof.
  induction cur as [|x cur IH]; intros state wbits Hrel Hroom Hvalid.
  - exists AWS_OP_SUCCESS, state, []. split; [reflexivity|].
    unfold symbols_post. repeat split. exists []. rewrite !app_nil_r.
    repeat split; auto. exists wbits. split; [assumption|].
    cbn; rewrite ?app_nil_r; reflexivity.
  - cbn [encode_symbols].
    set (coder := enc_coder (es_encoder state)).
    set (cp := coder_encode coder (u8 x)).
    pose proof (coder_encode_num_bits_range coder (u8 x)) as Hrange. fold cp in Hrange.
    pose proof (Hvalid (u8 x) (u8_range x)) as Hle. fold coder cp in Hle.
    destruct (Z.eq_dec (num_bits cp) 0) as [Hz|Hnz].
    + (* no code for this symbol *)
      unfold encode_write_bit_pattern.
      replace (num_bits cp =? 0) with true by (symmetry; apply Z.eqb_eq; exact Hz).
      exists AWS_ERROR_COMPRESSION_UNKNOWN_SYMBOL, state, cur. split; [reflexivity|].
      assert (~ known coder x) as Hunk by (unfold known; fold cp; lia).
      unfold symbols_post. repeat split. exists []. rewrite !app_nil_r.
      repeat split; auto. exists [], x. repeat split; auto.
      exists wbits. split; [assumption|]. cbn; rewrite ?app_nil_r; reflexivity.
    + destruct (encode_write_bit_pattern_spec state wbits cp Hrel Hroom ltac:(lia))
        as (res & state1 & Erun & Hcap & Hcoder & Heos & app & Happ & Hu8 & Hres).
      rewrite Erun.
      destruct res; try contradiction.
      * (* the code was written: go on with the next symbol *)
        destruct Hres as (Henc & Hroom1 & wbits1 & Hrel1 & Hbits).
        assert (valid_codes (enc_coder (es_encoder state1))) as Hvalid1
          by (rewrite Hcoder; exact Hvalid).
        destruct (IH state1 wbits1 Hrel1 Hroom1 Hvalid1)
          as (res & state' & cur' & Erun' & Hcap' & Hcoder' & Heos' & app' & Happ' & Hu8' & Hres').
        exists res, state', cur'. split; [exact Erun'|].
        unfold symbols_post. fold coder. rewrite Hcoder in Hcoder', Hres'. fold coder in Hcoder', Hres'.
        repeat split; try congruence.
        exists (app ++ app'). split; [|split].
        -- rewrite Happ', Happ, app_assoc. reflexivity.
        -- apply Forall_app; auto.
        -- rewrite bytes_bits_app.
           destruct res.
           ++ destruct Hres' as (-> & Hknown & Henc' & Hroom' & wbits' & Hrel' & Hbits').
              repeat split; try congruence; try assumption.
              ** constructor; [unfold known; fold coder cp; exact Hnz | exact Hknown].
              ** exists wbits'. split; [assumption|].
                 rewrite symbols_bits_cons. fold cp.
                 rewrite <- app_assoc, Hbits', app_assoc, Hbits, <- app_assoc. reflexivity.
           ++ destruct Hres' as (done & -> & Hknown & Hfull & Hov & Hbits').
              exists (x :: done). repeat split; try assumption; try lia.
              ** constructor; [unfold known; fold coder cp; exact Hnz | exact Hknown].
              ** rewrite symbols_bits_cons. fold cp.
                 rewrite <- app_assoc, Hbits', app_assoc, Hbits, <- app_assoc. reflexivity.
           ++ destruct Hres' as (done & y & -> & Hknown & Hunk & Henc' & Hroom' & wbits' & Hrel' & Hbits').
              exists (x :: done), y. repeat split; try assumption; try congruence.
              ** constructor; [unfold known; fold coder cp; exact Hnz | exact Hknown].
              ** exists wbits'. split; [assumption|].
                 rewrite symbols_bits_cons. fold cp.
                 rewrite <- app_assoc, Hbits', app_assoc, Hbits, <- app_assoc. reflexivity.
      * (* the output buffer filled up inside this code *)
        destruct Hres as (Hfull & Hov & Hbits & _ & _).
        exists AWS_ERROR_SHORT_BUFFER, state1, cur. split; [reflexivity|].
        unfold symbols_post. fold coder. repeat split; try assumption.
        exists app. repeat split; try assumption.
        exists [x]. repeat split; try assumption; try lia.
        -- constructor; [unfold known; fold coder cp; exact Hnz | constructor].
        -- rewrite code_bits_length in Hov by lia. lia.
        -- rewrite Hbits. cbn [symbols_bits flat_map]. fold cp. now rewrite app_nil_r.
Qed.

Lemma est_rel_aligned (state : encoder_state) (wbits : list bool) (app : list Z) (n : Z) :
  est_rel state wbits -> blen (bytes_bits app) + blen wbits = 8 * n ->
  wbits = [] /\ bit_pos state = 8 /\ working state = 0.
Proof.
  intros (Hbp & Hlen & Hw) Hsum. unfold blen in *. rewrite bytes_bits_length in Hsum.
  assert (length wbits = 0%nat) as H0 by lia.
  destruct wbits; [|discriminate H0].
  cbn [length bval] in *. repeat split; lia.
Qed.

Lemma encode_eos_spec (state : encoder_state) (wbits : list bool) :
  est_rel state wbits -> has_room (output_buf state) ->
  exists state',
    encode_eos state = Some state' /\
    capacity (output_buf state') = capacity (output_buf state) /\
    enc_coder (es_encoder state') = enc_coder (es_encoder state) /\
    eos_padding (es_encoder state') = eos_padding (es_encoder state) /\
    (num_bits (overflow_bits (es_encoder state)) = 0 ->
     num_bits (overflow_bits (es_encoder state')) = 0) /\
    bit_pos state' = 8 /\ working state' = 0 /\
    exists app,
      buffer (output_buf state') = buffer (output_buf state) ++ app /\
      Forall is_u8 app /\
      bytes_bits app = wbits ++ eos_pad (eos_padding (es_encoder state)) (bit_pos state).
Proof.
  intros Hrel Hroom. pose proof Hrel as (Hbp & Hlen & Hw).
  unfold encode_eos, eos_pad.
  destruct (bit_pos state =? 8) eqn:E8; cbn [negb].
  - apply Z.eqb_eq in E8.
    assert (wbits = []) as ->.
    { unfold blen in Hlen. destruct wbits; [reflexivity|]. cbn [length] in Hlen. lia. }
    exists state. repeat split; auto.
    exists []. rewrite !app_nil_r. repeat split; auto.
  - apply Z.eqb_neq in E8.
    set (eos_cp := mk_code (u32 (eos_padding (es_encoder state))) (bit_pos state)).
    destruct (encode_write_bit_pattern_spec state wbits eos_cp Hrel Hroom)
      as (res & state' & Erun & Hcap & Hcoder & Heos & app & Happ & Hu8 & Hres).
    { unfold eos_cp; rsimpl. lia. }
    rewrite Erun.
    assert (code_bits eos_cp
            = nbits (Z.to_nat (bit_pos state)) (eos_padding (es_encoder state))) as Epad.
    { unfold code_bits, eos_cp; rsimpl. apply nbits_mod. lia. }
    rewrite Epad in Hres.
    assert (blen (wbits ++ nbits (Z.to_nat (bit_pos state)) (eos_padding (es_encoder state))) = 8)
      as Hlen8.
    { unfold blen in *. rewrite length_app, nbits_length. lia. }
    exists state'. split; [reflexivity|].
    destruct res; try contradiction.
    + destruct Hres as (Henc & Hroom' & wbits' & Hrel' & Hbits).
      destruct (est_rel_aligned state' wbits' app 1 Hrel') as (-> & Hpos & Hwork).
      { rewrite <- Hlen8, <- Hbits. unfold blen. rewrite length_app. lia. }
      rewrite app_nil_r in Hbits.
      repeat split; try assumption; try congruence.
      exists app. repeat split; assumption.
    + destruct Hres as (Hfull & Hov & Hbits & Hpos & Hwork).
      assert (num_bits (overflow_bits (es_encoder state')) = 0) as Hz.
      { apply (f_equal blen) in Hbits. rewrite Hlen8 in Hbits.
        unfold blen in Hbits. rewrite length_app, bytes_bits_length in Hbits.
        unfold code_bits in Hbits. rewrite nbits_length in Hbits.
        unfold blen in Hov. rewrite nbits_length in Hov. lia. }
      assert (code_bits (overflow_bits (es_encoder state')) = []) as Hnil.
      { unfold code_bits. rewrite Hz. reflexivity. }
      rewrite Hnil, app_nil_r in Hbits.
      repeat split; try assumption; try congruence.
      exists app. repeat split; assumption.
Qed.

Lemma eos_pad_shape (eos bitpos : Z) :
  1 <= bitpos <= 8 ->
  blen (eos_pad eos bitpos) < 8 /\
  eos_pad eos bitpos = nbits (length (eos_pad eos bitpos)) eos.
Proof.
  intros H. unfold eos_pad, blen. destruct (bitpos =? 8) eqn:E.
  - cbn. split; [lia | reflexivity].
  - apply Z.eqb_neq in E. rewrite nbits_length. split; [lia | reflexivity].
Qed.

Lemma est_rel_init (e : aws_huffman_encoder) (out : aws_byte_buf) :
  est_rel (mk_estate e out 0 8) [].
Proof. unfold est_rel, blen; rsimpl. cbn [length bval]. lia. Qed.

Lemma est_rel_blen (state : encoder_state) (wbits : list bool) :
  est_rel state wbits -> blen wbits < 8.
Proof. intros (Hbp & Hlen & _). lia. Qed.

Lemma code_bits_zero (c : aws_huffman_code) : num_bits c = 0 -> code_bits c = [].
Proof. intros H. unfold code_bits. rewrite H. reflexivity. Qed.

(** Every call of [aws_huffman_encode] returns, and accounts for the bit
    stream as [encode_post] says. *)
Lemma aws_huffman_encode_spec (encoder : aws_huffman_encoder) (cur : aws_byte_cursor)
    (out : aws_byte_buf) :
  encoder_ok encoder -> buf_ok out ->
  exists res encoder' cur' out',
    aws_huffman_encode encoder cur out = Some (res, encoder', cur', out') /\
    encode_post encoder cur out res encoder' cur' out'.
Proof.
  intros (Hvalid & Hov) Hbuf. unfold aws_huffman_encode.
  destruct (buf_len out =? capacity out)%nat eqn:Efull.
  { (* no free byte: nothing is touched *)
    apply Nat.eqb_eq in Efull.
    exists AWS_ERROR_SHORT_BUFFER, encoder, cur, out. split; [reflexivity|].
    unfold encode_post. repeat split; try lia.
    exists []. rewrite app_nil_r. repeat split; auto.
    exists []. repeat split; auto. cbn; rewrite ?app_nil_r; reflexivity. }
  apply Nat.eqb_neq in Efull.
  assert (has_room out) as Hroom by (unfold has_room, buf_ok in *; lia).
  set (state0 := mk_estate encoder out 0 8).
  pose proof (est_rel_init encoder out) as Hrel0. fold state0 in Hrel0.
  (* the bits left over from the previous call *)
  assert (exists res state1,
    (if negb (num_bits (overflow_bits encoder) =? 0) then
        match encode_write_bit_pattern state0 (overflow_bits encoder) with
        | None => None
        | Some (AWS_OP_SUCCESS, state1) =>
          Some (AWS_OP_SUCCESS,
                mk_estate (set_overflow (es_encoder state1) zero_code)
                          (output_buf state1) (working state1) (bit_pos state1))
        | Some (result, state1) => Some (result, state1)
        end
      else Some (AWS_OP_SUCCESS, state0)) = Some (res, state1) /\
    capacity (output_buf state1) = capacity out /\
    enc_coder (es_encoder state1) = enc_coder encoder /\
    eos_padding (es_encoder state1) = eos_padding encoder /\
    exists app, buffer (output_buf state1) = buffer out ++ app /\ Forall is_u8 app /\
      match res with
      | AWS_OP_SUCCESS =>
          num_bits (overflow_bits (es_encoder state1)) = 0 /\
          has_room (output_buf state1) /\
          exists wbits, est_rel state1 wbits /\
            bytes_bits app ++ wbits = code_bits (overflow_bits encoder)
      | AWS_ERROR_SHORT_BUFFER =>
          buf_len (output_buf state1) = capacity (output_buf state1) /\
          0 <= num_bits (overflow_bits (es_encoder state1)) < 32 /\
          bytes_bits app ++ code_bits (overflow_bits (es_encoder state1))
          = code_bits (overflow_bits encoder)
      | AWS_ERROR_COMPRESSION_UNKNOWN_SYMBOL => False
      end) as (res1 & state1 & Erun1 & Hcap1 & Hcoder1 & Heos1 & app1 & Happ1 & Hu81 & Hres1).
  { destruct (num_bits (overflow_bits encoder) =? 0) eqn:Ez; cbn [negb].
    - apply Z.eqb_eq in Ez. exists AWS_OP_SUCCESS, state0. split; [reflexivity|].
      unfold state0; rsimpl. repeat split; auto.
      exists []. rewrite app_nil_r. repeat split; auto.
      exists []. split; [exact Hrel0|]. rewrite code_bits_zero by exact Ez. reflexivity.
    - apply Z.eqb_neq in Ez.
      destruct (encode_write_bit_pattern_spec state0 [] (overflow_bits encoder) Hrel0 Hroom
                  ltac:(lia))
        as (res & state1 & Erun & Hcap & Hcoder & Heos & app & Happ & Hu8 & Hres).
      rewrite Erun. unfold state0 in Hcap, Hcoder, Heos, Happ. rsimpl.
      destruct res; try contradiction.
      + destruct Hres as (Henc & Hroom1 & wbits & Hrel1 & Hbits).
        eexists _, _. split; [reflexivity|]. rsimpl.
        repeat split; try assumption.
        exists app. repeat split; try assumption.
        exists wbits. split; [exact Hrel1 | exact Hbits].
      + destruct Hres as (Hfull & Hovn & Hbits & _ & _).
        eexists _, _. split; [reflexivity|].
        repeat split; try assumption.
        exists app. repeat split; try assumption; try lia.
        rewrite code_bits_length in Hovn by lia. lia. }
  rewrite Erun1.
  destruct res1; try contradiction.
  2:{ (* short buffer while writing the overflow bits *)
    destruct Hres1 as (Hfull1 & Hovn1 & Hbits1).
    eexists _, _, _, _. split; [reflexivity|].
    unfold encode_post. repeat split; try assumption; try lia.
    exists app1. repeat split; try assumption.
    exists []. repeat split; auto. cbn [symbols_bits flat_map]. now rewrite app_nil_r. }
  destruct Hres1 as (Hovz1 & Hroom1 & wbits1 & Hrel1 & Hbits1).
  assert (valid_codes (enc_coder (es_encoder state1))) as Hvalid1 by (rewrite Hcoder1; exact Hvalid).
  destruct (encode_symbols_spec cur state1 wbits1 Hrel1 Hroom1 Hvalid1)
    as (res2 & state2 & cur2 & Erun2 & Hcap2 & Hcoder2 & Heos2 & app2 & Happ2 & Hu82 & Hres2).
  rewrite Erun2. rewrite Hcoder1 in Hcoder2, Hres2.
  destruct res2.
  - (* all symbols written: pad *)
    destruct Hres2 as (-> & Hknown & Henc2 & Hroom2 & wbits2 & Hrel2 & Hbits2).
    destruct (encode_eos_spec state2 wbits2 Hrel2 Hroom2)
      as (state3 & Erun3 & Hcap3 & Hcoder3 & Heos3 & Hovz3 & Hpos3 & Hwork3 & app3 & Happ3 & Hu83 & Hbits3).
    rewrite Erun3.
    eexists _, _, _, _. split; [reflexivity|].
    assert (num_bits (overflow_bits (es_encoder state3)) = 0) as Hz3
      by (apply Hovz3; rewrite Henc2; exact Hovz1).
    unfold encode_post. repeat split; try congruence; try lia.
    exists (app1 ++ app2 ++ app3). split; [|split].
    + rewrite Happ3, Happ2, Happ1, <- !app_assoc. reflexivity.
    + repeat (apply Forall_app; split); assumption.
    + repeat split; try assumption.
      destruct Hrel2 as (Hbp2 & _ & _).
      destruct (eos_pad_shape (eos_padding (es_encoder state2)) (bit_pos state2) Hbp2)
        as (Hplen & Hpshape).
      exists (eos_pad (eos_padding (es_encoder state2)) (bit_pos state2)).
      split; [exact Hplen|]. split; [congruence|].
      rewrite !bytes_bits_app, Hbits3.
      rewrite (app_assoc (bytes_bits app2)), Hbits2.
      rewrite !app_assoc. rewrite Hbits1. reflexivity.
  - (* short buffer inside a symbol's code *)
    destruct Hres2 as (done & -> & Hknown & Hfull2 & Hovn2 & Hbits2).
    eexists _, _, _, _. split; [reflexivity|].
    unfold encode_post. repeat split; try congruence; try lia.
    exists (app1 ++ app2). split; [|split].
    + rewrite Happ2, Happ1, <- !app_assoc. reflexivity.
    + apply Forall_app; split; assumption.
    + split; [exact Hfull2|]. exists done. repeat split; try assumption.
      rewrite bytes_bits_app, <- app_assoc, Hbits2, app_assoc, Hbits1. reflexivity.
  - (* a symbol without a code *)
    destruct Hres2 as (done & x & -> & Hknown & Hunk & Henc2 & Hroom2 & wbits2 & Hrel2 & Hbits2).
    eexists _, _, _, _. split; [reflexivity|].
    assert (num_bits (overflow_bits (es_encoder state2)) = 0) as Hz2
      by (rewrite Henc2; exact Hovz1).
    unfold encode_post. repeat split; try congruence; try lia.
    exists (app1 ++ app2). split; [|split].
    + rewrite Happ2, Happ1, <- !app_assoc. reflexivity.
    + apply Forall_app; split; assumption.
    + repeat split; try assumption.
      exists done, x, wbits2. repeat split; try assumption.
      * apply (est_rel_blen state2); assumption.
      * rewrite bytes_bits_app, <- app_assoc, Hbits2, app_assoc, Hbits1. reflexivity.
Qed.

(** ** The window-fill helper and the accumulator *)

Lemma dec_rel_init (coder : aws_huffman_symbol_coder) :
  dec_rel (aws_huffman_decoder_init coder) [].
Proof. unfold dec_rel, aws_huffman_decoder_init, blen; rsimpl. cbn [length bval]. lia. Qed.

Lemma bval_repeat_false (n : nat) : bval (repeat false n) = 0.
Proof. induction n; cbn [repeat bval Z.b2z]; lia. Qed.

Lemma bval_firstn (l : list bool) (n : nat) :
  (n <= length l)%nat -> bval (firstn n l) = bval l / 2 ^ Z.of_nat (length l - n).
Proof.
  intros H. rewrite <- (firstn_skipn n l) at 2. rewrite bval_app.
  unfold blen. rewrite length_skipn.
  pose proof (bval_range (skipn n l)) as R. unfold blen in R. rewrite length_skipn in R.
  rewrite Z.div_add_l by (apply Z.pow_nonzero; lia).
  rewrite Z.div_small by exact R. lia.
Qed.

Lemma stream_window_range (bits : list bool) : 0 <= stream_window bits < 2 ^ 32.
Proof.
  unfold stream_window.
  pose proof (bval_range (firstn 32 (bits ++ repeat false 32))) as R.
  unfold blen in R. rewrite length_firstn, length_app, repeat_length in R.
  replace (Z.of_nat (Init.Nat.min 32 (length bits + 32))) with 32 in R by lia.
  exact R.
Qed.

Lemma decode_window_spec (decoder : aws_huffman_decoder) (abits : list bool) :
  dec_rel decoder abits -> decode_window decoder = stream_window abits.
Proof.
  intros (Hnb & Hlen & Hw). unfold decode_window, MAX_PATTERN_BITS, stream_window.
  rewrite bval_firstn by (rewrite length_app, repeat_length; lia).
  rewrite bval_app, bval_repeat_false, Z.add_0_r.
  unfold blen in *. rewrite length_app, !repeat_length.
  replace (Z.of_nat (length abits + 32 - 32)) with (dec_num_bits decoder) by lia.
  change (Z.of_nat 32) with 32.
  replace (64 - 32) with 32 by lia.
  rewrite Z.shiftr_div_pow2 by lia. rewrite Hw.
  assert (bval abits * 2 ^ (64 - dec_num_bits decoder) / 2 ^ 32
          = bval abits * 2 ^ 32 / 2 ^ dec_num_bits decoder) as E.
  { rewrite <- (Z.div_mul_cancel_r _ (2 ^ 32) (2 ^ dec_num_bits decoder))
      by (apply Z.pow_nonzero; lia).
    rewrite <- Z.mul_assoc, <- Z.pow_add_r by lia.
    replace (64 - dec_num_bits decoder + dec_num_bits decoder) with (32 + 32) by lia.
    rewrite Z.pow_add_r by lia. rewrite Z.mul_assoc.
    rewrite (Z.mul_comm (2 ^ 32) (2 ^ dec_num_bits decoder)).
    apply Z.div_mul_cancel_r; apply Z.pow_nonzero; lia. }
  rewrite E. apply u32_small.
  pose proof (bval_range abits) as R. unfold blen in R. rewrite Hlen in R.
  assert (0 < 2 ^ dec_num_bits decoder) by (apply pow2_pos; lia).
  split.
  - apply Z.div_pos; nia.
  - apply Z.div_lt_upper_bound; nia.
Qed.

(** One byte read into the accumulator. *)
Lemma fill_step (decoder : aws_huffman_decoder) (abits : list bool) (new_byte : Z) :
  dec_rel decoder abits -> dec_num_bits decoder < 32 ->
  dec_rel (mk_decoder (dec_coder decoder)
             (Z.lor (working_bits decoder)
                    (u64 (Z.shiftl (u8 new_byte) (64 - 8 - dec_num_bits decoder))))
             (u8 (dec_num_bits decoder + 8)))
          (abits ++ nbits 8 new_byte).
Proof.
  intros (Hnb & Hlen & Hw) Hlt.
  pose proof (u8_range new_byte) as Rb.
  pose proof (bval_range abits) as Ra. rewrite Hlen in Ra.
  set (nb := dec_num_bits decoder) in *.
  assert (0 < 2 ^ (56 - nb)) as Hp by (apply pow2_pos; lia).
  assert (2 ^ (64 - nb) = 2 ^ 8 * 2 ^ (56 - nb)) as Hs.
  { rewrite <- Z.pow_add_r by lia. f_equal. lia. }
  assert (2 ^ 64 = 2 ^ nb * 2 ^ 8 * 2 ^ (56 - nb)) as H64.
  { rewrite <- !Z.pow_add_r by lia. f_equal. lia. }
  unfold dec_rel; rsimpl.
  rewrite (u8_small (nb + 8)) by (change (2 ^ 8) with 256; lia).
  unfold blen. rewrite length_app, nbits_length, Nat2Z.inj_add.
  unfold blen in Hlen. repeat split; try lia.
  replace (64 - 8 - nb) with (56 - nb) by lia.
  rewrite Z.shiftl_mul_pow2 by lia.
  rewrite u64_small by nia.
  rewrite Hw, lor_disjoint by nia.
  rewrite bval_app. unfold blen. rewrite nbits_length, bval_nbits.
  change (Z.of_nat 8) with 8. fold (u8 new_byte).
  replace (64 - (nb + 8)) with (56 - nb) by lia.
  rewrite Hs. ring.
Qed.

Lemma decode_fill_working_bits_spec (cur : aws_byte_cursor) :
  forall (decoder : aws_huffman_decoder) (abits : list bool),
    dec_rel decoder abits -> dec_num_bits decoder <= 39 ->
    exists decoder' cur' taken,
      decode_fill_working_bits decoder cur = (decoder', cur') /\
      cur = taken ++ cur' /\
      dec_rel decoder' (abits ++ bytes_bits taken) /\
      dec_coder decoder' = dec_coder decoder /\
      dec_num_bits decoder' <= 39 /\
      dec_num_bits decoder <= dec_num_bits decoder' /\
      (32 <= dec_num_bits decoder' \/ cur' = []).
Proof.
  induction cur as [|b cur IH]; intros decoder abits Hrel Hle.
  - exists decoder, [], []. cbn [decode_fill_working_bits bytes_bits flat_map].
    rewrite !app_nil_r. auto 10 with zarith.
  - cbn [decode_fill_working_bits]. unfold MAX_PATTERN_BITS.
    destruct (dec_num_bits decoder <? 32) eqn:Elt.
    + apply Z.ltb_lt in Elt.
      pose proof (fill_step decoder abits b Hrel Elt) as Hrel1.
      set (decoder1 := mk_decoder _ _ _) in *.
      assert (dec_num_bits decoder1 = dec_num_bits decoder + 8) as Enb.
      { unfold decoder1; rsimpl. destruct Hrel as (Hnb & _ & _).
        apply u8_small. change (2 ^ 8) with 256. lia. }
      destruct (IH decoder1 _ Hrel1 ltac:(lia))
        as (decoder' & cur' & taken & Erun & Ecur & Hrel' & Hcoder & Hle' & Hmono & Hfull).
      exists decoder', cur', (b :: taken). rewrite Erun.
      split; [reflexivity|]. split; [rewrite Ecur; reflexivity|].
      split.
      { change (bytes_bits (b :: taken)) with (nbits 8 b ++ bytes_bits taken).
        rewrite app_assoc. exact Hrel'. }
      split; [exact Hcoder|]. split; [exact Hle'|]. split; [lia | exact Hfull].
    + apply Z.ltb_ge in Elt.
      exists decoder, (b :: cur), []. cbn [bytes_bits flat_map].
      rewrite !app_nil_r. cbn [List.app]. auto 10 with zarith.
Qed.

(** A decoded code is shifted out of the accumulator. *)
Lemma decode_shift_spec (decoder : aws_huffman_decoder) (abits : list bool) (bits_read : Z) :
  dec_rel decoder abits -> 0 <= bits_read <= dec_num_bits decoder ->
  dec_rel (mk_decoder (dec_coder decoder)
             (u64 (Z.shiftl (working_bits decoder) bits_read))
             (u8 (dec_num_bits decoder - bits_read)))
          (skipn (Z.to_nat bits_read) abits).
Proof.
  intros (Hnb & Hlen & Hw) Hn.
  set (nb := dec_num_bits decoder) in *.
  unfold dec_rel; rsimpl. unfold blen in *.
  rewrite (u8_small (nb - bits_read)) by (change (2 ^ 8) with 256; lia).
  rewrite length_skipn. repeat split; try lia.
  rewrite Z.shiftl_mul_pow2 by lia. rewrite Hw.
  rewrite <- (firstn_skipn (Z.to_nat bits_read) abits) at 1.
  rewrite bval_app. unfold blen. rewrite length_skipn.
  pose proof (bval_range (skipn (Z.to_nat bits_read) abits)) as R.
  unfold blen in R. rewrite length_skipn in R.
  replace (Z.of_nat (length abits - Z.to_nat bits_read)) with (nb - bits_read) in * by lia.
  set (h := bval (firstn (Z.to_nat bits_read) abits)).
  set (t := bval (skipn (Z.to_nat bits_read) abits)) in *.
  assert (0 < 2 ^ (64 - (nb - bits_read))) as Hp by (apply pow2_pos; lia).
  assert (2 ^ 64 = 2 ^ (nb - bits_read) * 2 ^ (64 - (nb - bits_read))) as H64.
  { rewrite <- Z.pow_add_r by lia. f_equal. lia. }
  assert ((h * 2 ^ (nb - bits_read) + t) * 2 ^ (64 - nb) * 2 ^ bits_read
          = t * 2 ^ (64 - (nb - bits_read)) + h * 2 ^ 64) as E.
  { replace (64 - (nb - bits_read)) with ((64 - nb) + bits_read) by lia.
    rewrite H64. replace (64 - (nb - bits_read)) with ((64 - nb) + bits_read) by lia.
    rewrite !Z.pow_add_r by lia. ring. }
  rewrite E. unfold u64. rewrite Z.mod_add by (apply Z.pow_nonzero; lia).
  apply Z.mod_small. nia.
Qed.

(** ** The decode loop computes [decode_stream] *)

Lemma coder_decode_range (coder : aws_huffman_symbol_coder) (w : Z) :
  0 <= fst (coder_decode coder w) < 2 ^ 8 /\ 0 <= snd (coder_decode coder w) < 2 ^ 8.
Proof. unfold coder_decode; rsimpl. split; apply u8_range. Qed.

Lemma stream_window_app (a b : list bool) :
  32 <= blen a -> stream_window (a ++ b) = stream_window a.
Proof.
  intros H. unfold stream_window, blen in *.
  rewrite <- !app_assoc. rewrite !firstn_app.
  replace (32 - length a)%nat with 0%nat by lia.
  rewrite !firstn_O. reflexivity.
Qed.

Lemma decode_loop_unfold (fuel : nat) (decoder : aws_huffman_decoder)
    (to_decode : aws_byte_cursor) (output : aws_byte_buf) (bits_left : Z) :
  decode_loop (S fuel) decoder to_decode output bits_left =
    let '(decoder1, cursor1) := decode_fill_working_bits decoder to_decode in
    let '(bits_read, symbol) := coder_decode (dec_coder decoder1) (decode_window decoder1) in
    if bits_read =? 0 then
      if bits_left <? MAX_PATTERN_BITS
      then Some (AWS_OP_SUCCESS, decoder1, cursor1, output)
      else Some (AWS_ERROR_COMPRESSION_UNKNOWN_SYMBOL, decoder1, cursor1, output)
    else if bits_read >? bits_left then
      Some (AWS_OP_SUCCESS, decoder1, cursor1, output)
    else if (buf_len output =? capacity output)%nat then
      Some (AWS_ERROR_SHORT_BUFFER, decoder1, cursor1, output)
    else
      let bits_left1 := usize (bits_left - bits_read) in
      let decoder2 :=
        mk_decoder (dec_coder decoder1)
                   (u64 (Z.shiftl (working_bits decoder1) bits_read))
                   (u8 (dec_num_bits decoder1 - bits_read)) in
      let output1 := aws_byte_buf_write_u8 output symbol in
      if bits_left1 =? 0
      then Some (AWS_OP_SUCCESS, decoder2, cursor1, output1)
      else decode_loop fuel decoder2 cursor1 output1 bits_left1.
Proof. reflexivity. Qed.

Lemma buf_eta (b : aws_byte_buf) : mk_buf (buffer b) (capacity b) = b.
Proof. destruct b; reflexivity. Qed.

Lemma bytes_bits_nil_inv (l : list Z) : bytes_bits l = [] -> l = [].
Proof.
  intros H. apply (f_equal (@length bool)) in H. rewrite bytes_bits_length in H.
  destruct l; [reflexivity|]. cbn [length] in H. lia.
Qed.

Lemma decode_loop_refines (fuel : nat) :
  forall (decoder : aws_huffman_decoder) (cur : aws_byte_cursor) (out : aws_byte_buf)
         (abits : list bool) (bits_left : Z),
    dec_rel decoder abits -> dec_num_bits decoder <= 39 ->
    decode_bounded (dec_coder decoder) -> buf_ok out ->
    let bits := abits ++ bytes_bits cur in
    0 <= bits_left <= blen bits -> bits_left < 2 ^ 64 ->
    (Z.to_nat bits_left < fuel)%nat ->
    let '(res, syms, rem) :=
      decode_stream fuel (dec_coder decoder) bits bits_left (capacity out - buf_len out) in
    decode_post (dec_coder decoder) out (bits_left = blen bits) res syms rem
                (decode_loop fuel decoder cur out bits_left).
Proof.
  induction fuel as [|fuel IH];
    intros decoder cur out abits bits_left Hrel Hle Hbound Hbuf bits Hleft Hsize Hfuel.
  { lia. }
  rewrite decode_loop_unfold. cbn [decode_stream].
  destruct (decode_fill_working_bits_spec cur decoder abits Hrel Hle)
    as (decoder1 & cur1 & taken & Efill & Ecur & Hrel1 & Hcoder1 & Hle1 & _ & Hfull).
  rewrite Efill. rewrite Hcoder1.
  assert (bits = (abits ++ bytes_bits taken) ++ bytes_bits cur1) as Ebits.
  { unfold bits. rewrite Ecur, bytes_bits_app, app_assoc. reflexivity. }
  pose proof Hrel1 as (Hnb1 & Hlen1 & _).
  assert (blen bits = dec_num_bits decoder1 + 8 * Z.of_nat (length cur1)) as Eblen.
  { rewrite Ebits. unfold blen in *. rewrite length_app, bytes_bits_length. lia. }
  assert (decode_window decoder1 = stream_window bits) as Ewin.
  { rewrite (decode_window_spec _ _ Hrel1). rewrite Ebits.
    destruct Hfull as [Hfull | ->].
    - symmetry. apply stream_window_app. lia.
    - cbn [bytes_bits flat_map]. now rewrite app_nil_r. }
  rewrite Ewin.
  pose proof (coder_decode_range (dec_coder decoder) (stream_window bits)) as (Rn & Rs).
  pose proof (Hbound _ (stream_window_range bits)) as Hn32.
  destruct (coder_decode (dec_coder decoder) (stream_window bits)) as [bits_read symbol].
  rsimpl. unfold MAX_PATTERN_BITS.
  assert (bits_left < 32 -> bits_left = blen bits -> cur1 = []) as Hdrained.
  { intros Hlt Hall. destruct Hfull as [Hfull | ->]; [lia | reflexivity]. }
  assert ((bits_left < 32 ->
           decode_post (dec_coder decoder) out (bits_left = blen bits) AWS_OP_SUCCESS [] bits
            (Some (AWS_OP_SUCCESS, decoder1, cur1, out)))
          /\ decode_post (dec_coder decoder) out (bits_left = blen bits)
               AWS_ERROR_COMPRESSION_UNKNOWN_SYMBOL [] bits
               (Some (AWS_ERROR_COMPRESSION_UNKNOWN_SYMBOL, decoder1, cur1, out))
          /\ decode_post (dec_coder decoder) out (bits_left = blen bits)
               AWS_ERROR_SHORT_BUFFER [] bits
               (Some (AWS_ERROR_SHORT_BUFFER, decoder1, cur1, out))) as (Hs & Hu & Hb).
  { repeat split; try intros Hlt; exists decoder1, cur1, (abits ++ bytes_bits taken);
      rewrite app_nil_r, buf_eta; repeat split; auto; try apply Hrel1; discriminate. }
  destruct (bits_read =? 0) eqn:Ez.
  { destruct (bits_left <? 32) eqn:E32; [|assumption].
    apply Z.ltb_lt in E32. auto. }
  apply Z.eqb_neq in Ez.
  destruct (bits_read >? bits_left) eqn:Egt.
  { apply Z.gtb_lt in Egt. apply Hs. lia. }
  rewrite Z.gtb_ltb in Egt. apply Z.ltb_ge in Egt.
  destruct (buf_len out =? capacity out)%nat eqn:Efull.
  { apply Nat.eqb_eq in Efull. rewrite Efull, Nat.sub_diag. assumption. }
  apply Nat.eqb_neq in Efull. unfold buf_ok in Hbuf.
  destruct (capacity out - buf_len out)%nat as [|room'] eqn:Eroom; [lia|].
  (* a symbol is emitted *)
  cbv zeta.
  assert (bits_read <= dec_num_bits decoder1) as Hfit.
  { destruct Hfull as [Hfull | Hnil]; [lia|].
    rewrite Hnil in Eblen. cbn [length] in Eblen. lia. }
  pose proof (decode_shift_spec decoder1 _ bits_read Hrel1 ltac:(lia)) as Hrel2.
  rewrite Hcoder1 in Hrel2.
  set (decoder2 := mk_decoder (dec_coder decoder) _ _) in *.
  assert (dec_num_bits decoder2 <= 39) as Hle2.
  { unfold decoder2; rsimpl.
    rewrite u8_small by (change (2 ^ 8) with 256; lia). lia. }
  assert (aws_byte_buf_write_u8 out symbol
          = mk_buf (buffer out ++ [symbol]) (capacity out)) as Eout.
  { unfold aws_byte_buf_write_u8.
    replace (buf_len out <? capacity out)%nat with true by (symmetry; apply Nat.ltb_lt; lia).
    rewrite u8_small by exact Rs. reflexivity. }
  rewrite Eout.
  rewrite usize_small by lia.
  assert (skipn (Z.to_nat bits_read) bits
          = skipn (Z.to_nat bits_read) (abits ++ bytes_bits taken) ++ bytes_bits cur1) as Eskip.
  { rewrite Ebits, skipn_app.
    replace (Z.to_nat bits_read - length (abits ++ bytes_bits taken))%nat with 0%nat.
    - reflexivity.
    - unfold blen in Hlen1. lia. }
  assert (blen (skipn (Z.to_nat bits_read) bits) = blen bits - bits_read) as Elen.
  { unfold blen in *. rewrite length_skipn. lia. }
  destruct (bits_left - bits_read =? 0) eqn:Eend.
  { apply Z.eqb_eq in Eend.
    exists decoder2, cur1, (skipn (Z.to_nat bits_read) (abits ++ bytes_bits taken)).
    repeat split; auto; try apply Hrel2.
    intros Hall _. apply bytes_bits_nil_inv.
    assert (length (skipn (Z.to_nat bits_read) bits) = 0%nat) as H0
      by (unfold blen in *; lia).
    rewrite Eskip, length_app in H0.
    destruct (bytes_bits cur1); [reflexivity|]. cbn [length] in H0. lia. }
  apply Z.eqb_neq in Eend.
  set (out1 := mk_buf (buffer out ++ [symbol]) (capacity out)).
  assert (buf_ok out1) as Hbuf1.
  { unfold buf_ok, out1, buf_len in *; rsimpl. rewrite length_app; cbn [length]. lia. }
  assert ((capacity out1 - buf_len out1)%nat = room') as Eroom1.
  { unfold out1, buf_len in *; rsimpl. rewrite length_app; cbn [length]. lia. }
  assert (dec_coder decoder2 = dec_coder decoder) as Hcoder2 by reflexivity.
  pose proof (IH decoder2 cur1 out1 _ (bits_left - bits_read) Hrel2 Hle2) as IH2.
  rewrite Hcoder2 in IH2. rewrite <- Eskip in IH2. cbv zeta in IH2.
  rewrite Elen, Eroom1 in IH2.
  specialize (IH2 Hbound Hbuf1 ltac:(lia) ltac:(lia) ltac:(lia)).
  destruct (decode_stream fuel (dec_coder decoder) (skipn (Z.to_nat bits_read) bits)
              (bits_left - bits_read) room') as [[res syms] rem].
  destruct IH2 as (decoder' & cur' & abits' & Erun & Hc' & Hrel' & Hle' & Hrem & Hcur').
  exists decoder', cur', abits'. rewrite Erun. unfold out1; rsimpl.
  rewrite <- app_assoc. repeat split; auto; try apply Hrel'.
  intros Hall. apply Hcur'. lia.
Qed.

(** A call of [aws_huffman_decode] always returns, and keeps the
    accumulator well formed. *)
Lemma aws_huffman_decode_inv (decoder : aws_huffman_decoder) (cur : aws_byte_cursor)
    (out : aws_byte_buf) (abits : list bool) :
  dec_rel decoder abits -> dec_num_bits decoder <= 39 ->
  decode_bounded (dec_coder decoder) -> buf_ok out ->
  exists res decoder' cur' out' abits',
    aws_huffman_decode decoder cur out = Some (res, decoder', cur', out') /\
    dec_coder decoder' = dec_coder decoder /\
    dec_rel decoder' abits' /\ dec_num_bits decoder' <= 39.
Proof.
  intros Hrel Hle Hbound Hbuf. unfold aws_huffman_decode.
  destruct (buf_len out =? capacity out)%nat.
  { exists AWS_ERROR_SHORT_BUFFER, decoder, cur, out, abits. auto. }
  set (bl := usize (dec_num_bits decoder + Z.of_nat (length cur) * 8)).
  assert (0 <= bl <= blen (abits ++ bytes_bits cur) /\ bl < 2 ^ 64) as (Hbl & Hsize).
  { pose proof Hrel as (Hnb & Hlen & _).
    unfold bl, usize, blen in *. rewrite length_app, bytes_bits_length.
    pose proof (Z.mod_pos_bound (dec_num_bits decoder + Z.of_nat (length cur) * 8) (2 ^ 64)
                  ltac:(reflexivity)) as Hm.
    pose proof (Z.mod_le (dec_num_bits decoder + Z.of_nat (length cur) * 8) (2 ^ 64)
                  ltac:(lia) ltac:(reflexivity)) as Hm'.
    lia. }
  pose proof (decode_loop_refines (S (Z.to_nat bl)) decoder cur out abits bl
                Hrel Hle Hbound Hbuf Hbl Hsize ltac:(lia)) as H.
  destruct (decode_stream _ _ _ _ _) as [[res syms] rem].
  destruct H as (decoder' & cur' & abits' & Erun & Hc & Hrel' & Hle' & _).
  exists res, decoder', cur', (mk_buf (buffer out ++ syms) (capacity out)), abits'. auto.
Qed.

Lemma decoder_reachable_inv (coder : aws_huffman_symbol_coder) (decoder : aws_huffman_decoder) :
  decode_bounded coder -> decoder_reachable coder decoder ->
  dec_coder decoder = coder /\
  exists abits, dec_rel decoder abits /\ dec_num_bits decoder <= 39.
Proof.
  intros Hbound Hreach. induction Hreach as [|d Hreach IH|d cur out res d' cur' out' Hreach IH Hbuf Erun].
  - split; [reflexivity|]. exists []. split; [apply dec_rel_init|]. cbn. lia.
  - destruct IH as (Hc & _). unfold aws_huffman_decoder_reset. rewrite Hc.
    split; [reflexivity|]. exists []. split; [apply dec_rel_init|]. cbn. lia.
  - destruct IH as (Hc & abits & Hrel & Hle).
    rewrite <- Hc in Hbound.
    destruct (aws_huffman_decode_inv d cur out abits Hrel Hle Hbound Hbuf)
      as (res0 & d0 & cur0 & out0 & abits0 & Erun0 & Hc0 & Hrel0 & Hle0).
    rewrite Erun in Erun0. injection Erun0 as -> -> -> ->.
    split; [congruence|]. exists abits0. auto.
Qed.

(** C10: in every decoder state reachable from init or reset by calls of
    [aws_huffman_decode] whose coder reports at most 32 bits read,
    [num_bits] is between 0 and 39. *)
Theorem decoder_num_bits_at_most_39 (coder : aws_huffman_symbol_coder)
    (decoder : aws_huffman_decoder) :
  decode_bounded coder -> decoder_reachable coder decoder ->
  0 <= dec_num_bits decoder <= 39.
Proof.
  intros Hbound Hreach.
  destruct (decoder_reachable_inv coder decoder Hbound Hreach) as (_ & abits & Hrel & Hle).
  destruct Hrel as (Hnb & _ & _). lia.
Qed.

Lemma abc_decode_bounded : decode_bounded abc_coder.
Proof.
  intros w Hw. unfold coder_decode, abc_coder, abc_decode; cbn [decode fst].
  destruct (Z.testbit w 31); [destruct (Z.testbit w 30)|];
    cbn [fst]; vm_compute; discriminate.
Qed.

Lemma decoder_num_bits_at_most_39_witness :
  0 <= dec_num_bits (mk_decoder abc_coder 17293822569102704640 4) <= 39.
Proof.
  apply (decoder_num_bits_at_most_39 abc_coder).
  - exact abc_decode_bounded.
  - apply (reach_decode abc_coder (aws_huffman_decoder_init abc_coder) [47] (mk_buf [] 3)
             AWS_ERROR_SHORT_BUFFER _ [] (mk_buf [65; 65; 66] 3)).
    + apply reach_init.
    + unfold buf_ok, buf_len; cbn. lia.
    + vm_compute. reflexivity.
Defined.

Lemma decode_fill_working_bits_idem (cur : aws_byte_cursor) :
  forall decoder decoder1 cur1,
    decode_fill_working_bits decoder cur = (decoder1, cur1) ->
    decode_fill_working_bits decoder1 cur1 = (decoder1, cur1).
Proof.
  induction cur as [|b cur IH]; intros decoder decoder1 cur1 E; cbn [decode_fill_working_bits] in E.
  - injection E as <- <-. reflexivity.
  - destruct (dec_num_bits decoder <? MAX_PATTERN_BITS) eqn:Elt.
    + apply IH in E. exact E.
    + injection E as <- <-. cbn [decode_fill_working_bits]. rewrite Elt. reflexivity.
Qed.

(** C8: when a symbol has been decoded within the bit budget and the output
    buffer is at capacity, the loop fails with short-buffer; the symbol is
    not emitted and the decoder returned is the topped-up one: nothing is
    shifted out and [num_bits] is not decreased, so the code is still the
    head of the accumulator.  The call can be resumed: topping up again
    changes nothing, the coder finds the same code again, and the loop run
    again from the returned decoder and cursor with any other output buffer
    does what the interrupted loop would have done with that buffer; a new
    call of [aws_huffman_decode] on the returned decoder and cursor computes
    the bit budget the interrupted loop had, and is that loop. *)
Theorem decode_short_buffer_resumable (fuel : nat) (decoder : aws_huffman_decoder)
    (cur : aws_byte_cursor) (out : aws_byte_buf) (bits_left : Z)
    (decoder1 : aws_huffman_decoder) (cur1 : aws_byte_cursor) (bits_read symbol : Z) :
  decode_fill_working_bits decoder cur = (decoder1, cur1) ->
  coder_decode (dec_coder decoder1) (decode_window decoder1) = (bits_read, symbol) ->
  bits_read <> 0 -> bits_read <= bits_left ->
  buf_len out = capacity out ->
  decode_loop (S fuel) decoder cur out bits_left
  = Some (AWS_ERROR_SHORT_BUFFER, decoder1, cur1, out) /\
  decode_fill_working_bits decoder1 cur1 = (decoder1, cur1) /\
  coder_decode (dec_coder decoder1) (decode_window decoder1) = (bits_read, symbol) /\
  (forall out2,
     decode_loop (S fuel) decoder1 cur1 out2 bits_left
     = decode_loop (S fuel) decoder cur out2 bits_left) /\
  (forall abits out2,
     dec_rel decoder abits -> dec_num_bits decoder <= 39 ->
     bits_left = blen (abits ++ bytes_bits cur) -> bits_left < 2 ^ 64 ->
     has_room out2 ->
     aws_huffman_decode decoder1 cur1 out2
     = decode_loop (S (Z.to_nat bits_left)) decoder cur out2 bits_left).
Proof.
  intros Efill Edec Hnz Hle Hfull.
  pose proof (decode_fill_working_bits_idem cur decoder decoder1 cur1 Efill) as Eidem.
  assert (forall f out2, decode_loop (S f) decoder1 cur1 out2 bits_left
                         = decode_loop (S f) decoder cur out2 bits_left) as Hsame.
  { intros f out2. rewrite !decode_loop_unfold, Efill, Eidem. reflexivity. }
  split; [|split; [exact Eidem | split; [exact Edec | split; [apply Hsame|]]]].
  - rewrite decode_loop_unfold, Efill, Edec.
    replace (bits_read =? 0) with false by (symmetry; apply Z.eqb_neq; exact Hnz).
    replace (bits_read >? bits_left) with false
      by (symmetry; rewrite Z.gtb_ltb; apply Z.ltb_ge; exact Hle).
    replace (buf_len out =? capacity out)%nat with true
      by (symmetry; apply Nat.eqb_eq; exact Hfull).
    reflexivity.
  - intros abits out2 Hrel Hle39 Hbl Hsize Hroom.
    destruct (decode_fill_working_bits_spec cur decoder abits Hrel Hle39)
      as (d1 & c1 & taken & Efill' & Ecur & Hrel1 & _).
    rewrite Efill in Efill'. injection Efill' as <- <-.
    destruct Hrel1 as (_ & Hlen1 & _).
    assert (usize (dec_num_bits decoder1 + Z.of_nat (length cur1) * 8) = bits_left) as Ebl.
    { rewrite Hbl, Ecur, bytes_bits_app, app_assoc, blen_app, blen_bytes_bits, Hlen1.
      rewrite Hbl, Ecur, bytes_bits_app, app_assoc, blen_app, blen_bytes_bits, Hlen1 in Hsize.
      replace (Z.of_nat (length cur1) * 8) with (8 * Z.of_nat (length cur1)) by lia.
      destruct Hrel as (Hnb & _).
      pose proof (blen_nonneg (abits ++ bytes_bits taken)).
      apply usize_small. lia. }
    unfold aws_huffman_decode.
    replace (buf_len out2 =? capacity out2)%nat with false
      by (symmetry; apply Nat.eqb_neq; unfold has_room in Hroom; lia).
    rewrite Ebl. apply Hsame.
Qed.

Lemma decode_short_buffer_resumable_witness :
  decode_loop 1 (mk_decoder abc_coder (47 * 2 ^ 56) 8) [] (mk_buf [65; 65] 2) 6
  = Some (AWS_ERROR_SHORT_BUFFER, mk_decoder abc_coder (47 * 2 ^ 56) 8, [], mk_buf [65; 65] 2).
Proof.
  refine (proj1 (decode_short_buffer_resumable 0 (mk_decoder abc_coder (47 * 2 ^ 56) 8) []
                   (mk_buf [65; 65] 2) 6 (mk_decoder abc_coder (47 * 2 ^ 56) 8) [] 1 65
                   _ _ _ _ _)).
  - reflexivity.
  - vm_compute. reflexivity.
  - discriminate.
  - lia.
  - reflexivity.
Defined.

(** ** Encoder: which result, and how many bytes *)

(** The first symbol without a code is unique. *)
Lemma first_unknown_unique (coder : aws_huffman_symbol_coder)
    (d1 d2 : list Z) (x1 x2 : Z) (r1 r2 : list Z) :
  d1 ++ x1 :: r1 = d2 ++ x2 :: r2 ->
  Forall (known coder) d1 -> Forall (known coder) d2 ->
  ~ known coder x1 -> ~ known coder x2 ->
  d1 = d2 /\ x1 = x2 /\ r1 = r2.
Proof.
  revert d2; induction d1 as [|a d1 IH]; intros [|b d2] E K1 K2 U1 U2; cbn [List.app] in E.
  - injection E as -> ->. auto.
  - injection E as -> _. inversion K2; subst. contradiction.
  - injection E as -> _. inversion K1; subst. contradiction.
  - injection E as -> E. inversion K1; inversion K2; subst.
    destruct (IH d2 E) as (-> & -> & ->); auto.
Qed.

Lemma known_prefix (coder : aws_huffman_symbol_coder)
    (d1 : list Z) (x : Z) (r1 d2 r2 : list Z) :
  d1 ++ x :: r1 = d2 ++ r2 ->
  Forall (known coder) d1 -> Forall (known coder) d2 -> ~ known coder x ->
  exists t, d1 = d2 ++ t.
Proof.
  revert d2; induction d1 as [|a d1 IH]; intros [|b d2] E K1 K2 U; cbn [List.app] in E.
  - exists []. reflexivity.
  - injection E as -> _. inversion K2; subst. contradiction.
  - exists (a :: d1). reflexivity.
  - injection E as -> E. inversion K1; inversion K2; subst.
    destruct (IH d2 E) as (t & ->); auto. exists t. reflexivity.
Qed.

(** With a free byte, codes for all symbols and fewer bits to write than
    the free bytes can hold, the call drains the cursor and succeeds; the
    bytes appended are the stream followed by the padding. *)
Lemma encode_success (encoder : aws_huffman_encoder) (cur : aws_byte_cursor)
    (out : aws_byte_buf) :
  encoder_ok encoder -> buf_ok out ->
  Forall (known (enc_coder encoder)) cur ->
  blen (encode_stream encoder cur) < 8 * free_bytes out ->
  exists encoder' app pad,
    aws_huffman_encode encoder cur out
    = Some (AWS_OP_SUCCESS, encoder', [], mk_buf (buffer out ++ app) (capacity out)) /\
    enc_coder encoder' = enc_coder encoder /\
    eos_padding encoder' = eos_padding encoder /\
    num_bits (overflow_bits encoder') = 0 /\
    Forall is_u8 app /\
    blen pad < 8 /\ pad = nbits (length pad) (eos_padding encoder) /\
    bytes_bits app = encode_stream encoder cur ++ pad.
Proof.
  intros Hok Hbuf Hknown Hfit.
  destruct (aws_huffman_encode_spec encoder cur out Hok Hbuf)
    as (res & e' & cur' & out' & Erun & Hcap & Hcoder & Heos & Hovn & app & Happ & Hu8 & Hres).
  assert (out' = mk_buf (buffer out ++ app) (capacity out)) as Eout.
  { destruct out' as [b c]. cbn [buffer capacity] in *. congruence. }
  unfold encode_stream, free_bytes in *.
  destruct res.
  - destruct Hres as (Hroom & -> & _ & Hz & pad & Hplen & Hpad & Hbits).
    exists e', app, pad. rewrite Erun, Eout, <- app_assoc. repeat split; auto.
  - exfalso. destruct Hres as (Hfull & done & Ecur & _ & Hbits).
    apply (f_equal blen) in Hbits.
    rewrite Ecur, symbols_bits_app in Hfit.
    rewrite !blen_app, blen_bytes_bits in *.
    pose proof (blen_nonneg (code_bits (overflow_bits e'))).
    pose proof (blen_nonneg (symbols_bits (enc_coder encoder) cur')).
    rewrite Eout in Hfull. unfold buf_len in *. cbn [buffer capacity] in Hfull.
    rewrite length_app in Hfull. lia.
  - exfalso. destruct Hres as (_ & _ & done & x & wbits & Ecur & _ & Hunk & _).
    rewrite Ecur in Hknown. apply Forall_app in Hknown. destruct Hknown as (_ & Hk).
    inversion Hk; subst. contradiction.
Qed.

Lemma symbols_bits_blen (coder : aws_huffman_symbol_coder) (symbols : list Z) :
  blen (symbols_bits coder symbols) = total_code_bits coder symbols.
Proof.
  induction symbols as [|s l IH]; [reflexivity|].
  rewrite symbols_bits_cons, blen_app, IH. cbn [total_code_bits fold_right].
  rewrite code_bits_length by apply coder_encode_num_bits_range. reflexivity.
Qed.

Lemma total_code_bits_range (coder : aws_huffman_symbol_coder) (symbols : list Z) :
  0 <= total_code_bits coder symbols <= 255 * Z.of_nat (length symbols).
Proof.
  induction symbols as [|s l IH]; cbn [total_code_bits fold_right length]; [lia|].
  fold (total_code_bits coder l).
  pose proof (coder_encode_num_bits_range coder (u8 s)) as R. change (2 ^ 8) with 256 in R.
  lia.
Qed.

Lemma encoded_length_bits_spec (coder : aws_huffman_symbol_coder) (symbols : list Z) :
  forall n, 0 <= n -> n + 255 * Z.of_nat (length symbols) < 2 ^ 64 ->
    encoded_length_bits coder symbols n = n + total_code_bits coder symbols.
Proof.
  induction symbols as [|s l IH]; intros n Hn Hsize;
    cbn [encoded_length_bits total_code_bits fold_right]; [lia|].
  fold (total_code_bits coder l).
  pose proof (coder_encode_num_bits_range coder (u8 s)) as R. change (2 ^ 8) with 256 in R.
  cbn [length] in Hsize.
  rewrite usize_small by lia.
  rewrite IH by lia. lia.
Qed.

Lemma get_encoded_length_spec (encoder : aws_huffman_encoder) (seq : list Z) :
  255 * Z.of_nat (length seq) < 2 ^ 64 ->
  aws_huffman_get_encoded_length encoder seq
  = (total_code_bits (enc_coder encoder) seq + 7) / 8.
Proof.
  intros Hsize. unfold aws_huffman_get_encoded_length.
  rewrite encoded_length_bits_spec by lia. rewrite Z.add_0_l.
  pose proof (total_code_bits_range (enc_coder encoder) seq) as R.
  set (t := total_code_bits (enc_coder encoder) seq) in *.
  destruct (t mod 8 =? 0) eqn:E.
  - apply Z.eqb_eq in E. Z.div_mod_to_equations. lia.
  - apply Z.eqb_neq in E. rewrite usize_small by (Z.div_mod_to_equations; lia).
    Z.div_mod_to_equations. lia.
Qed.

(** C9: for a symbol sequence whose symbols all have codes,
    [aws_huffman_get_encoded_length] (a function of the encoder and the
    cursor that returns a number only: it has no encoder to change) is the
    sum of the code lengths divided by 8 and rounded up, and a call of
    [aws_huffman_encode] on that sequence from an encoder with nothing
    pending, into a buffer that can take the bits, succeeds, drains the
    cursor and appends exactly that many bytes. *)
Theorem encoded_length_accurate (encoder : aws_huffman_encoder) (seq : list Z)
    (out : aws_byte_buf) :
  valid_codes (enc_coder encoder) ->
  num_bits (overflow_bits encoder) = 0 ->
  Forall (known (enc_coder encoder)) seq ->
  255 * Z.of_nat (length seq) < 2 ^ 64 ->
  buf_ok out ->
  total_code_bits (enc_coder encoder) seq < 8 * free_bytes out ->
  aws_huffman_get_encoded_length encoder seq
  = (total_code_bits (enc_coder encoder) seq + 7) / 8 /\
  exists encoder' out',
    aws_huffman_encode encoder seq out = Some (AWS_OP_SUCCESS, encoder', [], out') /\
    Z.of_nat (buf_len out') - Z.of_nat (buf_len out)
    = aws_huffman_get_encoded_length encoder seq.
Proof.
  intros Hvalid Hfresh Hknown Hsize Hbuf Hfit.
  split; [apply get_encoded_length_spec; exact Hsize|].
  assert (encode_stream encoder seq = symbols_bits (enc_coder encoder) seq) as Estream.
  { unfold encode_stream. rewrite code_bits_zero by exact Hfresh. reflexivity. }
  destruct (encode_success encoder seq out) as
    (e' & app & pad & Erun & _ & _ & _ & _ & Hplen & _ & Hbits); auto.
  { split; [exact Hvalid | lia]. }
  { rewrite Estream, symbols_bits_blen. exact Hfit. }
  exists e', (mk_buf (buffer out ++ app) (capacity out)). split; [exact Erun|].
  rewrite get_encoded_length_spec by exact Hsize.
  apply (f_equal blen) in Hbits.
  rewrite Estream, blen_app, blen_bytes_bits, symbols_bits_blen in Hbits.
  pose proof (blen_nonneg pad).
  unfold buf_len; cbn [buffer]. rewrite length_app.
  Z.div_mod_to_equations. lia.
Qed.

Lemma abc_valid_codes : valid_codes abc_coder.
Proof.
  intros s Hs. unfold coder_encode, abc_coder, abc_encode; cbn [encode].
  destruct (s =? 65); [|destruct (s =? 66); [|destruct (s =? 67)]];
    cbn [num_bits]; vm_compute; discriminate.
Qed.

Lemma encoded_length_accurate_witness :
  aws_huffman_get_encoded_length (aws_huffman_encoder_init abc_coder) [65; 65; 66] = 1 /\
  exists encoder' out',
    aws_huffman_encode (aws_huffman_encoder_init abc_coder) [65; 65; 66] (mk_buf [] 1)
    = Some (AWS_OP_SUCCESS, encoder', [], out') /\
    Z.of_nat (buf_len out') - 0 = 1.
Proof.
  refine (encoded_length_accurate (aws_huffman_encoder_init abc_coder) [65; 65; 66]
            (mk_buf [] 1) _ _ _ _ _ _).
  - exact abc_valid_codes.
  - reflexivity.
  - repeat constructor; vm_compute; discriminate.
  - vm_compute. reflexivity.
  - unfold buf_ok, buf_len; cbn. lia.
  - vm_compute. reflexivity.
Defined.

(** C3 as stated fails: with [eos_padding] = 0x80, the sequence A, A, B of
    the specification's example leaves the bits 0010 in the last byte and
    four free positions; the byte flushed is 0x20, padded with the four
    low-order bits 0000 of [eos_padding], and not 0x28, which the four
    high-order bits 1000 would give. *)
Lemma eos_padding_high_bits_counterexample :
  aws_huffman_encode (mk_encoder abc_coder 128 zero_code) [65; 65; 66] (mk_buf [] 4)
  = Some (AWS_OP_SUCCESS, mk_encoder abc_coder 128 zero_code, [], mk_buf [32] 4)
  /\ 32 <> Z.lor 32 (Z.shiftr 128 (8 - 4)).
Proof. split; [vm_compute; reflexivity | vm_compute; discriminate]. Qed.

(** C3, amended: a call that drains the cursor without short-buffer
    appends the bit stream followed by the [k] least significant bits of
    [eos_padding], where [k] is the number of free positions of the last
    byte (0 when the stream ends on a byte boundary); what is appended is a
    whole number of bytes. *)
Theorem encode_pads_low_order_bits (encoder : aws_huffman_encoder) (cur : aws_byte_cursor)
    (out : aws_byte_buf) :
  encoder_ok encoder -> buf_ok out ->
  Forall (known (enc_coder encoder)) cur ->
  blen (encode_stream encoder cur) < 8 * free_bytes out ->
  let k := (- blen (encode_stream encoder cur)) mod 8 in
  exists encoder' app,
    aws_huffman_encode encoder cur out
    = Some (AWS_OP_SUCCESS, encoder', [], mk_buf (buffer out ++ app) (capacity out)) /\
    bytes_bits app
    = encode_stream encoder cur ++ nbits (Z.to_nat k) (eos_padding encoder) /\
    bval (nbits (Z.to_nat k) (eos_padding encoder)) = eos_padding encoder mod 2 ^ k.
Proof.
  intros Hok Hbuf Hknown Hfit k.
  destruct (encode_success encoder cur out Hok Hbuf Hknown Hfit)
    as (e' & app & pad & Erun & _ & _ & _ & _ & Hplen & Hpad & Hbits).
  exists e', app. split; [exact Erun|].
  assert (Z.to_nat k = length pad) as Ek.
  { pose proof (f_equal blen Hbits) as Hl.
    rewrite blen_app, blen_bytes_bits in Hl.
    pose proof (blen_nonneg pad). unfold k.
    unfold blen in *. Z.div_mod_to_equations. lia. }
  split.
  - rewrite Ek, <- Hpad. exact Hbits.
  - rewrite bval_nbits. f_equal. f_equal. unfold k.
    pose proof (Z.mod_pos_bound (- blen (encode_stream encoder cur)) 8 ltac:(lia)). lia.
Qed.

Lemma encode_pads_low_order_bits_witness :
  exists encoder' app,
    aws_huffman_encode (mk_encoder abc_coder 128 zero_code) [65; 65; 66] (mk_buf [] 4)
    = Some (AWS_OP_SUCCESS, encoder', [], mk_buf ([] ++ app) 4) /\
    bytes_bits app
    = encode_stream (mk_encoder abc_coder 128 zero_code) [65; 65; 66] ++ nbits 4 128 /\
    bval (nbits 4 128) = 128 mod 2 ^ 4.
Proof.
  refine (encode_pads_low_order_bits (mk_encoder abc_coder 128 zero_code) [65; 65; 66]
            (mk_buf [] 4) _ _ _ _).
  - split; [exact abc_valid_codes | cbn; lia].
  - unfold buf_ok, buf_len; cbn. lia.
  - repeat constructor; vm_compute; discriminate.
  - vm_compute. reflexivity.
Defined.

(** C4 as stated fails: with the table of the specification's example,
    which has no code for 0xFF, encoding A, 0xFF returns unknown-symbol and
    the output buffer is still empty: the bit of A was packed into the
    working byte, which is dropped. *)
Lemma unknown_symbol_commits_counterexample :
  aws_huffman_encode (aws_huffman_encoder_init abc_coder) [65; 255] (mk_buf [] 4)
  = Some (AWS_ERROR_COMPRESSION_UNKNOWN_SYMBOL, aws_huffman_encoder_init abc_coder,
          [], mk_buf [] 4)
  /\ code_bits (coder_encode abc_coder 65) = [false].
Proof. split; vm_compute; reflexivity. Qed.

(** C4, amended: when the call reaches a symbol without a code it fails
    with unknown-symbol; the cursor stands after that symbol, nothing is
    pending in [overflow_bits], and of the bits packed for the symbols
    before it the whole bytes are in the output buffer (no rollback) while
    the bits of the last, partly filled byte (at most 7) are dropped. *)
Theorem encode_unknown_symbol (encoder : aws_huffman_encoder)
    (done : list Z) (x : Z) (rest : list Z) (out : aws_byte_buf) :
  encoder_ok encoder -> buf_ok out ->
  Forall (known (enc_coder encoder)) done -> ~ known (enc_coder encoder) x ->
  blen (encode_stream encoder done) < 8 * free_bytes out ->
  exists encoder' app dropped,
    aws_huffman_encode encoder (done ++ x :: rest) out
    = Some (AWS_ERROR_COMPRESSION_UNKNOWN_SYMBOL, encoder', rest,
            mk_buf (buffer out ++ app) (capacity out)) /\
    num_bits (overflow_bits encoder') = 0 /\
    bytes_bits app ++ dropped = encode_stream encoder done /\
    blen dropped < 8.
Proof.
  intros Hok Hbuf Hknown Hunk Hfit.
  destruct (aws_huffman_encode_spec encoder (done ++ x :: rest) out Hok Hbuf)
    as (res & e' & cur' & out' & Erun & Hcap & Hcoder & Heos & Hovn & app & Happ & Hu8 & Hres).
  assert (out' = mk_buf (buffer out ++ app) (capacity out)) as Eout.
  { destruct out' as [b c]. cbn [buffer capacity] in *. congruence. }
  unfold encode_stream, free_bytes in *.
  destruct res.
  - exfalso. destruct Hres as (_ & _ & Hk & _).
    apply Forall_app in Hk. destruct Hk as (_ & Hk). inversion Hk; subst. contradiction.
  - exfalso. destruct Hres as (Hfull & done' & Ecur & Hk' & Hbits).
    destruct (known_prefix _ _ _ _ _ _ Ecur Hknown Hk' Hunk) as (t & ->).
    apply (f_equal blen) in Hbits.
    rewrite symbols_bits_app in Hfit.
    rewrite !blen_app, blen_bytes_bits in *.
    pose proof (blen_nonneg (code_bits (overflow_bits e'))).
    pose proof (blen_nonneg (symbols_bits (enc_coder encoder) t)).
    rewrite Eout in Hfull. unfold buf_len in *. cbn [buffer capacity] in Hfull.
    rewrite length_app in Hfull. lia.
  - destruct Hres as (_ & Hz & done' & x' & wbits & Ecur & Hk' & Hunk' & Hwlen & Hbits).
    destruct (first_unknown_unique _ _ _ _ _ _ _ Ecur Hknown Hk' Hunk Hunk')
      as (<- & <- & <-).
    exists e', app, wbits. rewrite Erun, Eout. auto.
Qed.

Lemma encode_unknown_symbol_witness :
  exists encoder' app dropped,
    aws_huffman_encode (aws_huffman_encoder_init abc_coder) ([65] ++ 255 :: []) (mk_buf [] 4)
    = Some (AWS_ERROR_COMPRESSION_UNKNOWN_SYMBOL, encoder', [], mk_buf ([] ++ app) 4) /\
    num_bits (overflow_bits encoder') = 0 /\
    bytes_bits app ++ dropped = encode_stream (aws_huffman_encoder_init abc_coder) [65] /\
    blen dropped < 8.
Proof.
  refine (encode_unknown_symbol (aws_huffman_encoder_init abc_coder) [65] 255 []
            (mk_buf [] 4) _ _ _ _ _).
  - split; [exact abc_valid_codes | cbn; lia].
  - unfold buf_ok, buf_len; cbn. lia.
  - repeat constructor; vm_compute; discriminate.
  - intros H. apply H. vm_compute. reflexivity.
  - vm_compute. reflexivity.
Defined.

(** C5 as stated fails.  A call with an output buffer that is full on entry
    returns short-buffer although no code is suspended, even when there is
    nothing to write; and a call whose last code ends exactly on the last
    free byte returns short-buffer with the cursor drained, every bit in the
    output and nothing left in [overflow_bits]. *)
Lemma encode_short_buffer_counterexample :
  aws_huffman_encode (aws_huffman_encoder_init abc_coder) [] (mk_buf [] 0)
  = Some (AWS_ERROR_SHORT_BUFFER, aws_huffman_encoder_init abc_coder, [], mk_buf [] 0)
  /\ aws_huffman_encode (aws_huffman_encoder_init abc_coder) [67; 67; 67; 67] (mk_buf [] 1)
     = Some (AWS_ERROR_SHORT_BUFFER, aws_huffman_encoder_init abc_coder, [], mk_buf [255] 1)
  /\ bytes_bits [255] = symbols_bits abc_coder [67; 67; 67; 67].
Proof. repeat split; vm_compute; reflexivity. Qed.

(** C5, amended: with codes for all the symbols and fewer bits to write
    (pending overflow bits and codes) than the free bytes can hold, the call
    drains the cursor and returns success; and a call returns short-buffer
    only with the output buffer at capacity, the bits of the symbols read so
    far being then in the bytes appended and, for the rest, in
    [overflow_bits]. *)
Theorem encode_result (encoder : aws_huffman_encoder) (cur : aws_byte_cursor)
    (out : aws_byte_buf) :
  encoder_ok encoder -> buf_ok out ->
  (Forall (known (enc_coder encoder)) cur ->
   blen (encode_stream encoder cur) < 8 * free_bytes out ->
   exists encoder' out',
     aws_huffman_encode encoder cur out = Some (AWS_OP_SUCCESS, encoder', [], out')) /\
  (forall encoder' cur' out',
     aws_huffman_encode encoder cur out
     = Some (AWS_ERROR_SHORT_BUFFER, encoder', cur', out') ->
     buf_len out' = capacity out' /\
     exists done app,
       cur = done ++ cur' /\ buffer out' = buffer out ++ app /\
       bytes_bits app ++ code_bits (overflow_bits encoder')
       = encode_stream encoder done).
Proof.
  intros Hok Hbuf. split.
  - intros Hknown Hfit.
    destruct (encode_success encoder cur out Hok Hbuf Hknown Hfit)
      as (e' & app & pad & Erun & _).
    eauto.
  - intros e' cur' out' Erun.
    destruct (aws_huffman_encode_spec encoder cur out Hok Hbuf)
      as (res & e0 & cur0 & out0 & Erun0 & Hcap & Hcoder & Heos & Hovn & app & Happ & Hu8 & Hres).
    rewrite Erun in Erun0. injection Erun0 as <- <- <- <-.
    destruct Hres as (Hfull & done & Ecur & _ & Hbits).
    split; [exact Hfull|]. exists done, app. auto.
Qed.

Lemma encode_result_witness :
  exists encoder' out',
    aws_huffman_encode (aws_huffman_encoder_init abc_coder) [65; 65; 66] (mk_buf [] 1)
    = Some (AWS_OP_SUCCESS, encoder', [], out').
Proof.
  refine (proj1 (encode_result (aws_huffman_encoder_init abc_coder) [65; 65; 66]
                   (mk_buf [] 1) _ _) _ _).
  - split; [exact abc_valid_codes | cbn; lia].
  - unfold buf_ok, buf_len; cbn. lia.
  - repeat constructor; vm_compute; discriminate.
  - vm_compute. reflexivity.
Defined.

(** ** The stream decoder: fuel, exhausted budget, exhausted room *)

Lemma decode_stream_unfold (fuel : nat) (coder : aws_huffman_symbol_coder)
    (bits : list bool) (bits_left : Z) (room : nat) :
  decode_stream (S fuel) coder bits bits_left room =
    let '(bits_read, symbol) := coder_decode coder (stream_window bits) in
    if bits_read =? 0 then
      if bits_left <? 32
      then (AWS_OP_SUCCESS, [], bits)
      else (AWS_ERROR_COMPRESSION_UNKNOWN_SYMBOL, [], bits)
    else if bits_read >? bits_left then (AWS_OP_SUCCESS, [], bits)
    else
      match room with
      | O => (AWS_ERROR_SHORT_BUFFER, [], bits)
      | S room' =>
        let rest := skipn (Z.to_nat bits_read) bits in
        if bits_left - bits_read =? 0 then (AWS_OP_SUCCESS, [symbol], rest)
        else
          let '(res, syms, rem) :=
            decode_stream fuel coder rest (bits_left - bits_read) room' in
          (res, symbol :: syms, rem)
      end.
Proof. reflexivity. Qed.

Lemma decode_stream_fuel (coder : aws_huffman_symbol_coder) (f1 : nat) :
  forall (f2 : nat) (bits : list bool) (bits_left : Z) (room : nat),
    (Z.to_nat bits_left < f1)%nat -> (Z.to_nat bits_left < f2)%nat ->
    decode_stream f1 coder bits bits_left room = decode_stream f2 coder bits bits_left room.
Proof.
  induction f1 as [|f1 IH]; intros f2 bits bl room H1 H2; [lia|].
  destruct f2 as [|f2]; [lia|].
  rewrite !decode_stream_unfold.
  pose proof (coder_decode_range coder (stream_window bits)) as (Rn & _).
  destruct (coder_decode coder (stream_window bits)) as [n s]. cbn [fst] in Rn.
  destruct (n =? 0) eqn:Ez; [reflexivity|]. apply Z.eqb_neq in Ez.
  destruct (n >? bl) eqn:Egt; [reflexivity|].
  rewrite Z.gtb_ltb in Egt. apply Z.ltb_ge in Egt.
  destruct room as [|room]; [reflexivity|]. cbv zeta.
  destruct (bl - n =? 0); [reflexivity|].
  rewrite (IH f2) by lia. reflexivity.
Qed.

Lemma decode_stream_no_budget (fuel : nat) (coder : aws_huffman_symbol_coder)
    (bits : list bool) (room : nat) :
  decode_stream fuel coder bits 0 room = (AWS_OP_SUCCESS, [], bits).
Proof.
  destruct fuel as [|fuel]; [reflexivity|]. rewrite decode_stream_unfold.
  pose proof (coder_decode_range coder (stream_window bits)) as (Rn & _).
  destruct (coder_decode coder (stream_window bits)) as [n s]. cbn [fst] in Rn.
  destruct (n =? 0) eqn:Ez; [reflexivity|]. apply Z.eqb_neq in Ez.
  replace (n >? 0) with true by (symmetry; apply Z.gtb_lt; lia). reflexivity.
Qed.

Lemma decode_stream_no_room (fuel : nat) (coder : aws_huffman_symbol_coder)
    (bits : list bool) (bits_left : Z) :
  exists res, decode_stream fuel coder bits bits_left 0 = (res, [], bits) /\
              (bits_left < 32 -> res <> AWS_ERROR_COMPRESSION_UNKNOWN_SYMBOL).
Proof.
  destruct fuel as [|fuel].
  { exists AWS_OP_SUCCESS. split; [reflexivity | discriminate]. }
  rewrite decode_stream_unfold.
  destruct (coder_decode coder (stream_window bits)) as [n s].
  destruct (n =? 0).
  { destruct (bits_left <? 32) eqn:E.
    - exists AWS_OP_SUCCESS. split; [reflexivity | discriminate].
    - apply Z.ltb_ge in E. exists AWS_ERROR_COMPRESSION_UNKNOWN_SYMBOL.
      split; [reflexivity | lia]. }
  destruct (n >? bits_left).
  - exists AWS_OP_SUCCESS. split; [reflexivity | discriminate].
  - exists AWS_ERROR_SHORT_BUFFER. split; [reflexivity | discriminate].
Qed.

Lemma prefix_code_valid (coder : aws_huffman_symbol_coder) :
  prefix_code coder -> valid_codes coder.
Proof.
  intros (_ & Hp) s Hs.
  destruct (Z.eq_dec (num_bits (coder_encode coder s)) 0) as [E|E]; [lia|].
  assert (u8 s = s) as Es by (apply u8_small; exact Hs).
  assert (known coder s) as Hk by (unfold known; rewrite Es; exact E).
  destruct (Hp s Hs Hk) as (Hn & _). rewrite Es in Hn. lia.
Qed.

(** The window of a stream that starts with a code. *)
Lemma stream_window_code (c : aws_huffman_code) (tail : list bool) :
  0 <= num_bits c <= 32 ->
  exists r, 0 <= r < 2 ^ (32 - num_bits c) /\
    stream_window (code_bits c ++ tail)
    = (pattern c mod 2 ^ num_bits c) * 2 ^ (32 - num_bits c) + r.
Proof.
  intros Hn. unfold stream_window.
  set (cb := code_bits c).
  assert (length cb = Z.to_nat (num_bits c)) as Hlen by (unfold cb, code_bits; apply nbits_length).
  rewrite <- app_assoc, firstn_app.
  rewrite firstn_all2 by lia.
  set (t := firstn (32 - length cb) (tail ++ repeat false 32)).
  assert (blen t = 32 - num_bits c) as Ht.
  { unfold blen, t. rewrite length_firstn, length_app, repeat_length. lia. }
  exists (bval t). pose proof (bval_range t) as R. rewrite Ht in R.
  split; [exact R|].
  rewrite bval_app, Ht. unfold cb, code_bits. rewrite bval_nbits, Z2Nat.id by lia.
  reflexivity.
Qed.

(** Decoding a stream that starts with the codes of [seq]: the symbols of
    [seq] are emitted, and the loop goes on with the rest of the stream and
    of the budget. *)
Lemma decode_stream_symbols (coder : aws_huffman_symbol_coder) :
  prefix_code coder ->
  forall (seq : list Z) (fuel : nat) (tail : list bool) (extra : Z) (room : nat),
    Forall is_u8 seq -> Forall (known coder) seq ->
    0 <= extra -> (length seq <= room)%nat ->
    (Z.to_nat (blen (symbols_bits coder seq) + extra) < fuel)%nat ->
    decode_stream fuel coder (symbols_bits coder seq ++ tail)
                  (blen (symbols_bits coder seq) + extra) room
    = let '(res, syms, rem) := decode_stream fuel coder tail extra (room - length seq) in
      (res, seq ++ syms, rem).
Proof.
  intros (Hbound & Hprefix).
  induction seq as [|s seq IH]; intros fuel tail extra room Hu8 Hknown Hextra Hroom Hfuel.
  { cbn [symbols_bits flat_map List.app length]. unfold blen; cbn [length].
    rewrite Z.add_0_l, Nat.sub_0_r.
    destruct (decode_stream fuel coder tail extra room) as [[res syms] rem]. reflexivity. }
  inversion Hu8 as [|? ? Hs Hu8']; subst. inversion Hknown as [|? ? Hks Hknown']; subst.
  destruct (Hprefix s Hs Hks) as (Hn & Hdec).
  rewrite symbols_bits_cons in *. rewrite blen_app in *.
  set (c := coder_encode coder (u8 s)) in *.
  rewrite (code_bits_length c) in * by lia.
  pose proof (blen_nonneg (symbols_bits coder seq)) as Hpos.
  destruct fuel as [|fuel]; [lia|].
  destruct room as [|room]; [cbn [length] in Hroom; lia|].
  rewrite decode_stream_unfold. rewrite <- app_assoc.
  destruct (stream_window_code c (symbols_bits coder seq ++ tail) ltac:(lia)) as (r & Hr & Ewin).
  rewrite Ewin, (Hdec r Hr).
  replace (num_bits c =? 0) with false by (symmetry; apply Z.eqb_neq; lia).
  replace (num_bits c >? num_bits c + blen (symbols_bits coder seq) + extra) with false
    by (symmetry; rewrite Z.gtb_ltb; apply Z.ltb_ge; lia).
  cbv zeta.
  assert (skipn (Z.to_nat (num_bits c)) (code_bits c ++ symbols_bits coder seq ++ tail)
          = symbols_bits coder seq ++ tail) as Eskip.
  { rewrite skipn_app. unfold code_bits at 1 2. rewrite nbits_length, Nat.sub_diag.
    rewrite skipn_all2 by (rewrite nbits_length; lia). reflexivity. }
  rewrite Eskip.
  replace (num_bits c + blen (symbols_bits coder seq) + extra - num_bits c)
    with (blen (symbols_bits coder seq) + extra) by lia.
  assert (u8 s = s) as Es by (apply u8_small; exact Hs). rewrite Es.
  cbn [length] in Hroom. cbn [length Nat.sub].
  destruct (blen (symbols_bits coder seq) + extra =? 0) eqn:Eend.
  - apply Z.eqb_eq in Eend.
    assert (extra = 0) as -> by lia.
    assert (seq = []) as ->.
    { destruct seq as [|s' seq']; [reflexivity|]. exfalso.
      inversion Hu8' as [|? ? Hs' _]; subst. inversion Hknown' as [|? ? Hks' _]; subst.
      destruct (Hprefix s' Hs' Hks') as (Hn' & _).
      rewrite symbols_bits_cons, blen_app, code_bits_length in Eend by lia.
      pose proof (blen_nonneg (symbols_bits coder seq')). lia. }
    cbn [symbols_bits flat_map List.app length]. rewrite decode_stream_no_budget. reflexivity.
  - apply Z.eqb_neq in Eend.
    rewrite (IH fuel tail extra room Hu8' Hknown' Hextra ltac:(lia) ltac:(lia)).
    rewrite (decode_stream_fuel coder (S fuel) fuel) by lia.
    destruct (decode_stream fuel coder tail extra (room - length seq)) as [[res syms] rem].
    reflexivity.
Qed.

(** A call of [aws_huffman_decode] with a free output byte computes
    [decode_bits] of the pending bits. *)
Lemma aws_huffman_decode_spec (decoder : aws_huffman_decoder) (cur : aws_byte_cursor)
    (out : aws_byte_buf) (abits : list bool) :
  dec_rel decoder abits -> dec_num_bits decoder <= 39 ->
  decode_bounded (dec_coder decoder) -> buf_ok out -> has_room out ->
  blen (abits ++ bytes_bits cur) < 2 ^ 64 ->
  let '(res, syms, rem) :=
    decode_bits (dec_coder decoder) (abits ++ bytes_bits cur) (capacity out - buf_len out) in
  decode_post (dec_coder decoder) out True res syms rem (aws_huffman_decode decoder cur out).
Proof.
  intros Hrel Hle Hbound Hbuf Hroom Hsize. unfold aws_huffman_decode, decode_bits.
  replace (buf_len out =? capacity out)%nat with false
    by (symmetry; apply Nat.eqb_neq; unfold has_room in Hroom; lia).
  assert (usize (dec_num_bits decoder + Z.of_nat (length cur) * 8)
          = blen (abits ++ bytes_bits cur)) as Ebl.
  { destruct Hrel as (Hnb & Hlen & _).
    rewrite blen_app, blen_bytes_bits, Hlen in *.
    replace (Z.of_nat (length cur) * 8) with (8 * Z.of_nat (length cur)) by lia.
    apply usize_small. lia. }
  rewrite Ebl.
  replace (Z.to_nat (blen (abits ++ bytes_bits cur))) with (length (abits ++ bytes_bits cur))
    by (unfold blen; lia).
  pose proof (decode_loop_refines (S (length (abits ++ bytes_bits cur))) decoder cur out abits
                (blen (abits ++ bytes_bits cur)) Hrel Hle Hbound Hbuf) as H.
  cbv zeta in H.
  specialize (H ltac:(unfold blen; lia) Hsize ltac:(unfold blen; lia)).
  destruct (decode_stream _ _ _ _ _) as [[res syms] rem].
  destruct H as (d' & cur' & abits' & Erun & Hc & Hrel' & Hle' & Hrem & Hcur).
  exists d', cur', abits'. repeat split; auto; apply Hrel'.
Qed.

(** Decoding a stream that starts with the codes of [seq] into an output
    buffer with room for exactly the symbols of [seq]: the call appends
    [seq] and nothing else. *)
Lemma decode_call_exact_room (coder : aws_huffman_symbol_coder) (seq : list Z)
    (decoder : aws_huffman_decoder) (abits : list bool) (cur : aws_byte_cursor)
    (tail : list bool) (out : aws_byte_buf) :
  prefix_code coder -> dec_coder decoder = coder ->
  dec_rel decoder abits -> dec_num_bits decoder <= 39 ->
  Forall is_u8 seq -> Forall (known coder) seq ->
  abits ++ bytes_bits cur = symbols_bits coder seq ++ tail ->
  buf_ok out -> free_bytes out = Z.of_nat (length seq) ->
  blen (symbols_bits coder seq ++ tail) < 2 ^ 64 ->
  exists res decoder' cur',
    aws_huffman_decode decoder cur out
    = Some (res, decoder', cur', mk_buf (buffer out ++ seq) (capacity out)) /\
    (blen tail < 32 -> res <> AWS_ERROR_COMPRESSION_UNKNOWN_SYMBOL).
Proof.
  intros Hprefix Hcoder Hrel Hle Hu8 Hknown Hstream Hbuf Hroom Hsize.
  pose proof Hprefix as (Hbound & _). rewrite <- Hcoder in Hbound.
  unfold free_bytes, buf_ok in *.
  destruct (Nat.eq_dec (length seq) 0) as [E0|E0].
  { (* nothing to decode: the output buffer is full *)
    destruct seq; [|discriminate E0].
    exists AWS_ERROR_SHORT_BUFFER, decoder, cur.
    unfold aws_huffman_decode.
    replace (buf_len out =? capacity out)%nat with true
      by (symmetry; apply Nat.eqb_eq; cbn [length] in Hroom; lia).
    rewrite app_nil_r, buf_eta. split; [reflexivity | discriminate]. }
  pose proof (aws_huffman_decode_spec decoder cur out abits Hrel Hle Hbound Hbuf) as H.
  rewrite Hstream, Hcoder in H.
  specialize (H ltac:(unfold has_room; lia) Hsize).
  unfold decode_bits in H. rewrite blen_app in H.
  pose proof (blen_nonneg tail) as Htail.
  rewrite (decode_stream_symbols coder Hprefix seq) in H; auto; try lia.
  2:{ rewrite <- blen_app. unfold blen. lia. }
  replace (capacity out - buf_len out - length seq)%nat with 0%nat in H by lia.
  destruct (decode_stream_no_room (S (length (symbols_bits coder seq ++ tail))) coder tail
              (blen tail)) as (res & Eres & Hres).
  rewrite Eres in H. rewrite app_nil_r in H.
  destruct H as (d' & cur' & abits' & Edec & _).
  exists res, d', cur'. split; [exact Edec | exact Hres].
Qed.

(** Decoding a stream that starts with the codes of [seq] with the bits of
    those codes as the bit budget: the loop appends [seq] and nothing else,
    and returns success. *)
Lemma decode_loop_exact_budget (coder : aws_huffman_symbol_coder) (seq : list Z)
    (decoder : aws_huffman_decoder) (abits : list bool) (cur : aws_byte_cursor)
    (tail : list bool) (out : aws_byte_buf) :
  let total := total_code_bits coder seq in
  prefix_code coder -> dec_coder decoder = coder ->
  dec_rel decoder abits -> dec_num_bits decoder <= 39 ->
  Forall is_u8 seq -> Forall (known coder) seq ->
  abits ++ bytes_bits cur = symbols_bits coder seq ++ tail ->
  buf_ok out -> Z.of_nat (length seq) <= free_bytes out ->
  total < 2 ^ 64 ->
  exists decoder' cur',
    decode_loop (S (Z.to_nat total)) decoder cur out total
    = Some (AWS_OP_SUCCESS, decoder', cur', mk_buf (buffer out ++ seq) (capacity out)).
Proof.
  intros total Hprefix Hcoder Hrel Hle Hu8 Hknown Hstream Hbuf Hroom Hsize.
  pose proof Hprefix as (Hbound & _).
  assert (blen (symbols_bits coder seq) = total) as Etotal by apply symbols_bits_blen.
  assert (0 <= total) as Htpos by (rewrite <- Etotal; apply blen_nonneg).
  rewrite <- Hcoder in Hbound.
  pose proof (decode_loop_refines (S (Z.to_nat total)) decoder cur out abits total
                Hrel Hle Hbound Hbuf) as H.
  rewrite Hstream in H. cbv zeta in H. rewrite Hcoder in H.
  pose proof (blen_nonneg tail).
  specialize (H ltac:(rewrite blen_app, Etotal; lia) Hsize ltac:(lia)).
  unfold free_bytes, buf_ok in *.
  pose proof (decode_stream_symbols coder Hprefix seq (S (Z.to_nat total)) tail 0
                (capacity out - buf_len out) Hu8 Hknown ltac:(lia) ltac:(lia)
                ltac:(rewrite Etotal; lia)) as Hsym.
  rewrite Z.add_0_r, Etotal in Hsym. rewrite Hsym in H.
  rewrite decode_stream_no_budget, app_nil_r in H.
  destruct H as (d' & cur' & abits' & Edec & _).
  exists d', cur'. exact Edec.
Qed.

(** C1: round trip.  For a coder whose functions form a prefix code over
    codes of 1 to 32 bits and a sequence of symbols that have codes, a call
    of [aws_huffman_encode] into a buffer that can take the bits succeeds
    and appends bytes [encoded] such that decoding [encoded] from a fresh
    decoder gives back the sequence exactly, the caller stopping the decoder
    at the end of the meaningful bits: by an output buffer with room for
    exactly the symbols of the sequence, the means
    [aws_huffman_decode] offers (the call then does not fail with
    unknown-symbol), and likewise when the decode loop is given the number
    of meaningful bits as its bit budget [bits_left] (it then returns
    success). *)
Theorem huffman_round_trip (encoder : aws_huffman_encoder) (seq : list Z)
    (out out2 : aws_byte_buf) :
  let coder := enc_coder encoder in
  let total := total_code_bits coder seq in
  prefix_code coder ->
  num_bits (overflow_bits encoder) = 0 ->
  Forall is_u8 seq -> Forall (known coder) seq ->
  buf_ok out -> total < 8 * free_bytes out ->
  total + 8 < 2 ^ 64 ->
  buf_ok out2 ->
  exists encoder' encoded,
    aws_huffman_encode encoder seq out
    = Some (AWS_OP_SUCCESS, encoder', [], mk_buf (buffer out ++ encoded) (capacity out)) /\
    (free_bytes out2 = Z.of_nat (length seq) ->
     exists res decoder' cur',
       aws_huffman_decode (aws_huffman_decoder_init coder) encoded out2
       = Some (res, decoder', cur', mk_buf (buffer out2 ++ seq) (capacity out2)) /\
       res <> AWS_ERROR_COMPRESSION_UNKNOWN_SYMBOL) /\
    (Z.of_nat (length seq) <= free_bytes out2 ->
     exists decoder' cur',
       decode_loop (S (Z.to_nat total)) (aws_huffman_decoder_init coder) encoded out2 total
       = Some (AWS_OP_SUCCESS, decoder', cur',
               mk_buf (buffer out2 ++ seq) (capacity out2))).
Proof.
  intros coder total Hprefix Hfresh Hu8 Hknown Hbuf Hfit Hsize Hbuf2.
  assert (encode_stream encoder seq = symbols_bits coder seq) as Estream.
  { unfold encode_stream. rewrite code_bits_zero by exact Hfresh. reflexivity. }
  assert (blen (symbols_bits coder seq) = total) as Etotal by apply symbols_bits_blen.
  destruct (encode_success encoder seq out) as
    (e' & encoded & pad & Erun & _ & _ & _ & _ & Hplen & _ & Hbits); auto.
  { split; [apply prefix_code_valid; exact Hprefix | lia]. }
  { rewrite Estream, Etotal. exact Hfit. }
  rewrite Estream in Hbits.
  exists e', encoded. split; [exact Erun|].
  pose proof (dec_rel_init coder) as Hrel0.
  assert (dec_num_bits (aws_huffman_decoder_init coder) <= 39) as Hle0 by (cbn; lia).
  pose proof (blen_nonneg pad) as Hppos.
  split.
  - intros Hroom2.
    destruct (decode_call_exact_room coder seq (aws_huffman_decoder_init coder) [] encoded
                pad out2 Hprefix eq_refl Hrel0 Hle0 Hu8 Hknown Hbits Hbuf2 Hroom2)
      as (res & d' & cur' & Edec & Hres).
    { rewrite blen_app, Etotal. lia. }
    exists res, d', cur'. split; [exact Edec | apply Hres; lia].
  - intros Hroom2.
    apply (decode_loop_exact_budget coder seq (aws_huffman_decoder_init coder) [] encoded
             pad out2 Hprefix eq_refl Hrel0 Hle0 Hu8 Hknown Hbits Hbuf2 Hroom2).
    fold total. lia.
Qed.

Lemma testbit_div (a n q : Z) :
  0 <= n -> q * 2 ^ n <= a < (q + 1) * 2 ^ n -> Z.testbit a n = Z.odd q.
Proof.
  intros Hn Ha. rewrite Z.testbit_odd, Z.shiftr_div_pow2 by lia.
  f_equal. symmetry. apply (Z.div_unique a (2 ^ n) q (a - q * 2 ^ n)); lia.
Qed.

Lemma abc_prefix_code : prefix_code abc_coder.
Proof.
  split; [exact abc_decode_bounded|].
  intros s Hs Hk. unfold known in Hk. unfold decodes_back.
  rewrite (u8_small s Hs) in *.
  unfold coder_encode, coder_decode, abc_coder, abc_encode, abc_decode in *;
    cbn [encode decode] in *.
  destruct (s =? 65) eqn:E65; [|destruct (s =? 66) eqn:E66; [|destruct (s =? 67) eqn:E67]];
    cbn [pattern num_bits] in *.
  - apply Z.eqb_eq in E65. subst s. split; [vm_compute; split; discriminate|].
    intros r Hr. change (u8 1) with 1 in *. change (u32 0 mod 2 ^ 1 * 2 ^ (32 - 1)) with 0.
    change (2 ^ (32 - 1)) with (2 ^ 31) in Hr.
    rewrite (testbit_div (0 + r) 31 0) by lia. reflexivity.
  - apply Z.eqb_eq in E66. subst s. split; [vm_compute; split; discriminate|].
    intros r Hr. change (u8 2) with 2 in *.
    change (u32 2 mod 2 ^ 2 * 2 ^ (32 - 2)) with (2 ^ 31).
    change (2 ^ (32 - 2)) with (2 ^ 30) in Hr.
    rewrite (testbit_div (2 ^ 31 + r) 31 1) by lia.
    rewrite (testbit_div (2 ^ 31 + r) 30 2) by lia. reflexivity.
  - apply Z.eqb_eq in E67. subst s. split; [vm_compute; split; discriminate|].
    intros r Hr. change (u8 2) with 2 in *.
    change (u32 3 mod 2 ^ 2 * 2 ^ (32 - 2)) with (2 ^ 31 + 2 ^ 30).
    change (2 ^ (32 - 2)) with (2 ^ 30) in Hr.
    rewrite (testbit_div (2 ^ 31 + 2 ^ 30 + r) 31 1) by lia.
    rewrite (testbit_div (2 ^ 31 + 2 ^ 30 + r) 30 3) by lia. reflexivity.
  - exfalso. apply Hk. reflexivity.
Qed.

Lemma huffman_round_trip_witness :
  exists encoder' encoded,
    aws_huffman_encode (aws_huffman_encoder_init abc_coder) [65; 65; 66] (mk_buf [] 4)
    = Some (AWS_OP_SUCCESS, encoder', [], mk_buf encoded 4) /\
    (exists res decoder' cur',
       aws_huffman_decode (aws_huffman_decoder_init abc_coder) encoded (mk_buf [] 3)
       = Some (res, decoder', cur', mk_buf [65; 65; 66] 3) /\
       res <> AWS_ERROR_COMPRESSION_UNKNOWN_SYMBOL) /\
    (exists decoder' cur',
       decode_loop 5 (aws_huffman_decoder_init abc_coder) encoded (mk_buf [] 3) 4
       = Some (AWS_OP_SUCCESS, decoder', cur', mk_buf [65; 65; 66] 3)).
Proof.
  destruct (huffman_round_trip (aws_huffman_encoder_init abc_coder) [65; 65; 66]
              (mk_buf [] 4) (mk_buf [] 3)) as (e' & encoded & H1 & H2 & H3).
  - exact abc_prefix_code.
  - reflexivity.
  - repeat (apply Forall_cons; [unfold is_u8; lia|]). apply Forall_nil.
  - repeat (apply Forall_cons; [vm_compute; discriminate|]). apply Forall_nil.
  - unfold buf_ok, buf_len; cbn. lia.
  - vm_compute. reflexivity.
  - vm_compute. reflexivity.
  - unfold buf_ok, buf_len; cbn. lia.
  - exists e', encoded. split; [exact H1|]. split.
    + apply H2. reflexivity.
    + apply H3. vm_compute. discriminate.
Defined.

Lemma stream_window_top (bits : list bool) (n : Z) :
  0 <= n <= 32 -> n <= blen bits ->
  stream_window bits / 2 ^ (32 - n) = bval (firstn (Z.to_nat n) bits).
Proof.
  intros Hn Hlen. unfold stream_window, blen in *.
  set (L := firstn 32 (bits ++ repeat false 32)).
  assert (length L = 32%nat) as HL.
  { unfold L. rewrite length_firstn, length_app, repeat_length. lia. }
  assert (firstn (Z.to_nat n) L = firstn (Z.to_nat n) bits) as E.
  { unfold L. rewrite firstn_firstn.
    replace (Init.Nat.min (Z.to_nat n) 32) with (Z.to_nat n) by lia.
    rewrite firstn_app.
    replace (Z.to_nat n - length bits)%nat with 0%nat by lia.
    rewrite firstn_O, app_nil_r. reflexivity. }
  rewrite <- E, bval_firstn by lia. rewrite HL.
  f_equal. f_equal. lia.
Qed.

Lemma decode_stream_rem_len (coder : aws_huffman_symbol_coder) (fuel : nat) :
  forall bits bits_left room res syms rem,
    decode_stream fuel coder bits bits_left room = (res, syms, rem) ->
    (length rem <= length bits)%nat.
Proof.
  induction fuel as [|fuel IH]; intros bits bl room res syms rem E.
  { cbn in E. injection E as _ _ <-. lia. }
  rewrite decode_stream_unfold in E.
  destruct (coder_decode coder (stream_window bits)) as [n s].
  destruct (n =? 0).
  { destruct (bl <? 32); injection E as _ _ <-; lia. }
  destruct (n >? bl); [injection E as _ _ <-; lia|].
  destruct room as [|room]; [injection E as _ _ <-; lia|].
  cbv zeta in E.
  destruct (bl - n =? 0).
  { injection E as _ _ <-. rewrite length_skipn. lia. }
  destruct (decode_stream fuel coder (skipn (Z.to_nat n) bits) (bl - n) room)
    as [[r y] m] eqn:E1.
  injection E as _ _ <-. apply IH in E1. rewrite length_skipn in E1. lia.
Qed.

(** Decoding a stream in two parts: what follows the first part is decoded
    after what the first part leaves pending. *)
Lemma decode_stream_app (coder : aws_huffman_symbol_coder) :
  decode_bounded coder -> decode_prefix_stable coder ->
  forall (fuel : nat) (b1 b2 : list bool) (room : nat),
    (length (b1 ++ b2) < fuel)%nat ->
    decode_stream fuel coder (b1 ++ b2) (blen (b1 ++ b2)) room
    = let '(res1, syms1, rem1) := decode_stream fuel coder b1 (blen b1) room in
      match res1 with
      | AWS_OP_SUCCESS =>
          let '(res2, syms2, rem2) :=
            decode_stream fuel coder (rem1 ++ b2) (blen (rem1 ++ b2))
                          (room - length syms1) in
          (res2, syms1 ++ syms2, rem2)
      | other => (other, syms1, rem1 ++ b2)
      end.
Proof.
  intros Hbound Hstable.
  induction fuel as [|fuel IH]; intros b1 b2 room Hfuel; [lia|].
  rewrite (decode_stream_unfold fuel coder b1).
  pose proof (coder_decode_range coder (stream_window b1)) as (Rn & _).
  pose proof (Hbound _ (stream_window_range b1)) as Hn32.
  pose proof (Hstable (stream_window b1) (stream_window (b1 ++ b2))
                (stream_window_range b1) (stream_window_range (b1 ++ b2))) as Hst.
  cbv zeta in Hst.
  destruct (coder_decode coder (stream_window b1)) as [n s] eqn:Edec.
  cbn [fst] in *.
  pose proof (blen_nonneg b1) as Hb1. pose proof (blen_nonneg b2) as Hb2.
  destruct (n =? 0) eqn:Ez.
  { destruct (blen b1 <? 32) eqn:E32.
    - cbn [length]. rewrite Nat.sub_0_r.
      destruct (decode_stream (S fuel) coder (b1 ++ b2) (blen (b1 ++ b2)) room)
        as [[r y] m]. reflexivity.
    - apply Z.ltb_ge in E32. rewrite decode_stream_unfold.
      rewrite stream_window_app by lia. rewrite Edec, Ez.
      replace (blen (b1 ++ b2) <? 32) with false
        by (symmetry; apply Z.ltb_ge; rewrite blen_app; lia).
      reflexivity. }
  apply Z.eqb_neq in Ez.
  destruct (n >? blen b1) eqn:Egt.
  { cbn [length]. rewrite Nat.sub_0_r.
    destruct (decode_stream (S fuel) coder (b1 ++ b2) (blen (b1 ++ b2)) room)
      as [[r y] m]. reflexivity. }
  rewrite Z.gtb_ltb in Egt. apply Z.ltb_ge in Egt.
  (* the code lies within the first part: both windows decode alike *)
  assert (coder_decode coder (stream_window (b1 ++ b2)) = (n, s)) as Edec2.
  { apply Hst; [exact Ez|].
    rewrite !stream_window_top by (try rewrite blen_app; lia).
    rewrite firstn_app.
    replace (Z.to_nat n - length b1)%nat with 0%nat by (unfold blen in *; lia).
    rewrite firstn_O, app_nil_r. reflexivity. }
  rewrite (decode_stream_unfold fuel coder (b1 ++ b2)). rewrite Edec2.
  replace (n =? 0) with false by (symmetry; apply Z.eqb_neq; exact Ez).
  replace (n >? blen (b1 ++ b2)) with false
    by (symmetry; rewrite Z.gtb_ltb; apply Z.ltb_ge; rewrite blen_app; lia).
  destruct room as [|room]; [reflexivity|]. cbv zeta.
  assert (skipn (Z.to_nat n) (b1 ++ b2) = skipn (Z.to_nat n) b1 ++ b2) as Eskip.
  { rewrite skipn_app.
    replace (Z.to_nat n - length b1)%nat with 0%nat by (unfold blen in *; lia).
    reflexivity. }
  rewrite Eskip.
  set (rest1 := skipn (Z.to_nat n) b1) in *.
  assert (blen rest1 = blen b1 - n) as Erest.
  { unfold rest1, blen in *. rewrite length_skipn. lia. }
  assert (blen (b1 ++ b2) - n = blen (rest1 ++ b2)) as Erest2.
  { rewrite !blen_app, Erest. lia. }
  rewrite Erest2. rewrite <- Erest.
  assert (length (rest1 ++ b2) < fuel)%nat as Hfuel1.
  { pose proof Erest2 as H. unfold blen in H. rewrite !length_app in *. lia. }
  destruct (blen rest1 =? 0) eqn:Eend1.
  - (* the first part ends with this code *)
    apply Z.eqb_eq in Eend1.
    assert (rest1 = []) as Hnil.
    { unfold blen in Eend1. destruct rest1; [reflexivity|]. cbn [length] in Eend1. lia. }
    rewrite Hnil in *. cbn [List.app length Nat.sub] in *.
    destruct (blen b2 =? 0) eqn:Eend2.
    + apply Z.eqb_eq in Eend2.
      assert (b2 = []) as ->.
      { unfold blen in Eend2. destruct b2; [reflexivity|]. cbn [length] in Eend2. lia. }
      change (blen []) with 0. rewrite decode_stream_no_budget. reflexivity.
    + rewrite (decode_stream_fuel coder (S fuel) fuel) by (unfold blen; lia).
      rewrite Nat.sub_0_r.
      destruct (decode_stream fuel coder b2 (blen b2) room) as [[r y] m]. reflexivity.
  - apply Z.eqb_neq in Eend1.
    replace (blen (rest1 ++ b2) =? 0) with false
      by (symmetry; apply Z.eqb_neq; rewrite blen_app; pose proof (blen_nonneg rest1); lia).
    rewrite (IH rest1 b2 room Hfuel1).
    destruct (decode_stream fuel coder rest1 (blen rest1) room) as [[r1 y1] m1] eqn:E1.
    pose proof (decode_stream_rem_len coder fuel _ _ _ _ _ _ E1) as Hm1.
    destruct r1; try reflexivity.
    cbn [length Nat.sub].
    rewrite (decode_stream_fuel coder (S fuel) fuel)
      by (unfold blen; rewrite !length_app in *; lia).
    destruct (decode_stream fuel coder (m1 ++ b2) (blen (m1 ++ b2)) (room - length y1))
      as [[r2 y2] m2].
    reflexivity.
Qed.

Lemma encode_stream_app (encoder : aws_huffman_encoder) (a b : list Z) :
  encode_stream encoder (a ++ b)
  = encode_stream encoder a ++ symbols_bits (enc_coder encoder) b.
Proof. unfold encode_stream. rewrite symbols_bits_app, app_assoc. reflexivity. Qed.

Lemma encode_with_buffers_spec (caps : list nat) :
  forall (encoder : aws_huffman_encoder) (cur : aws_byte_cursor),
    encoder_ok encoder ->
    exists res encoder' cur' bytes,
      encode_with_buffers encoder cur caps = Some (res, encoder', cur', bytes) /\
      buffers_post encoder cur caps res encoder' cur' bytes.
Proof.
  induction caps as [|c caps IH]; intros encoder cur Hok.
  { exists AWS_ERROR_SHORT_BUFFER, encoder, cur, []. split; [reflexivity|].
    destruct Hok as (_ & Hov). unfold buffers_post. repeat split; auto; try lia.
    exists []. repeat split; auto. unfold encode_stream. cbn. now rewrite app_nil_r. }
  cbn [encode_with_buffers].
  assert (buf_ok (mk_buf [] c)) as Hbuf by (unfold buf_ok, buf_len; cbn; lia).
  destruct (aws_huffman_encode_spec encoder cur (mk_buf [] c) Hok Hbuf)
    as (res & e1 & cur1 & out1 & Erun & Hcap & Hcoder & Heos & Hovn & app & Happ & Hu8 & Hres).
  rewrite Erun. cbn [buffer capacity List.app] in *.
  destruct res.
  - destruct Hres as (_ & -> & Hknown & _ & pad & Hplen & Hpad & Hbits).
    exists AWS_OP_SUCCESS, e1, [], (buffer out1). split; [reflexivity|].
    unfold buffers_post. rewrite Happ. repeat split; auto; try lia.
    exists pad. repeat split; auto. rewrite Hbits. unfold encode_stream.
    now rewrite <- app_assoc.
  - destruct Hres as (Hfull & done1 & Ecur & Hknown1 & Hbits1).
    change (code_bits (overflow_bits encoder) ++ symbols_bits (enc_coder encoder) done1)
      with (encode_stream encoder done1) in Hbits1.
    assert (encoder_ok e1) as Hok1.
    { destruct Hok as (Hvalid & _). split; [rewrite Hcoder; exact Hvalid | exact Hovn]. }
    destruct (IH e1 cur1 Hok1)
      as (res2 & e2 & cur2 & bytes2 & Erun2 & Hcoder2 & Heos2 & Hovn2 & Hu82 & Hres2).
    rewrite Erun2. exists res2, e2, cur2, (buffer out1 ++ bytes2). split; [reflexivity|].
    assert (encode_stream e1 cur1
            = code_bits (overflow_bits e1) ++ symbols_bits (enc_coder encoder) cur1) as Es1
      by (unfold encode_stream; rewrite Hcoder; reflexivity).
    unfold buffers_post. rewrite Hcoder in *. rewrite Happ in *.
    repeat split; try congruence; try lia.
    { apply Forall_app; split; assumption. }
    rewrite bytes_bits_app.
    destruct res2.
    + destruct Hres2 as (-> & Hknown2 & pad & Hplen & Hpad & Hbits2).
      split; [reflexivity|]. split.
      { rewrite Ecur. apply Forall_app; split; assumption. }
      exists pad. repeat split; auto; try congruence.
      rewrite Ecur, encode_stream_app, <- Hbits1, Hbits2, Es1, <- !app_assoc. reflexivity.
    + destruct Hres2 as (Hlen2 & done2 & Ecur2 & Hknown2 & Hbits2).
      split.
      { rewrite length_app, Hlen2. unfold buf_len in Hfull. rewrite Happ in Hfull.
        change (list_sum (c :: caps)) with (c + list_sum caps)%nat. lia. }
      exists (done1 ++ done2). split; [rewrite Ecur, Ecur2, app_assoc; reflexivity|].
      split; [apply Forall_app; split; assumption|].
      rewrite encode_stream_app, <- Hbits1.
      unfold encode_stream in Hbits2. rewrite Hcoder in Hbits2.
      rewrite <- !app_assoc. f_equal. exact Hbits2.
    + destruct Hres2 as (done2 & x & wbits & Ecur2 & Hknown2 & Hunk & Hwlen & Hbits2).
      exists (done1 ++ done2), x, wbits.
      split; [rewrite Ecur, Ecur2, app_assoc; reflexivity|].
      split; [apply Forall_app; split; assumption|].
      split; [exact Hunk|]. split; [exact Hwlen|].
      rewrite encode_stream_app, <- Hbits1.
      unfold encode_stream in Hbits2. rewrite Hcoder in Hbits2.
      rewrite <- !app_assoc. f_equal. exact Hbits2.
  - destruct Hres as (_ & Hz & done & x & wbits & Ecur & Hknown & Hunk & Hwlen & Hbits).
    exists AWS_ERROR_COMPRESSION_UNKNOWN_SYMBOL, e1, cur1, (buffer out1).
    split; [reflexivity|].
    unfold buffers_post. rewrite Happ. repeat split; auto; try lia.
    exists done, x, wbits. auto.
Qed.

(** Two runs on the same encoder and cursor that both end (neither is
    left with short-buffer when its buffers run out) end alike. *)
Lemma buffers_post_deterministic (encoder : aws_huffman_encoder) (cur : aws_byte_cursor)
    (caps1 caps2 : list nat) (res1 res2 : aws_result)
    (e1 e2 : aws_huffman_encoder) (cur1 cur2 : aws_byte_cursor) (bytes1 bytes2 : list Z) :
  buffers_post encoder cur caps1 res1 e1 cur1 bytes1 ->
  buffers_post encoder cur caps2 res2 e2 cur2 bytes2 ->
  res1 <> AWS_ERROR_SHORT_BUFFER -> res2 <> AWS_ERROR_SHORT_BUFFER ->
  res1 = res2 /\ cur1 = cur2 /\ bytes1 = bytes2.
Proof.
  intros (_ & _ & _ & Hu1 & H1) (_ & _ & _ & Hu2 & H2) Hn1 Hn2.
  destruct res1; try contradiction; destruct res2; try contradiction.
  - destruct H1 as (-> & _ & pad1 & Hl1 & Hp1 & Hb1).
    destruct H2 as (-> & _ & pad2 & Hl2 & Hp2 & Hb2).
    repeat split. apply bytes_bits_inj; auto.
    assert (length pad1 = length pad2) as El.
    { pose proof (f_equal blen Hb1) as L1. pose proof (f_equal blen Hb2) as L2.
      rewrite blen_app, blen_bytes_bits in L1, L2.
      pose proof (blen_nonneg pad1). pose proof (blen_nonneg pad2).
      unfold blen in *. lia. }
    rewrite Hb1, Hb2, Hp1, Hp2, El. reflexivity.
  - exfalso. destruct H1 as (_ & Hk & _).
    destruct H2 as (done & x & _ & Ecur & _ & Hunk & _).
    rewrite Ecur in Hk. apply Forall_app in Hk. destruct Hk as (_ & Hk).
    inversion Hk; subst. contradiction.
  - exfalso. destruct H2 as (_ & Hk & _).
    destruct H1 as (done & x & _ & Ecur & _ & Hunk & _).
    rewrite Ecur in Hk. apply Forall_app in Hk. destruct Hk as (_ & Hk).
    inversion Hk; subst. contradiction.
  - destruct H1 as (d1 & x1 & w1 & Ec1 & Hk1 & Hx1 & Hw1 & Hb1).
    destruct H2 as (d2 & x2 & w2 & Ec2 & Hk2 & Hx2 & Hw2 & Hb2).
    rewrite Ec1 in Ec2.
    destruct (first_unknown_unique _ _ _ _ _ _ _ Ec2 Hk1 Hk2 Hx1 Hx2) as (<- & <- & <-).
    repeat split. apply bytes_bits_inj; auto.
    rewrite <- Hb2 in Hb1.
    apply app_inj_length in Hb1; [tauto|].
    pose proof (f_equal blen Hb1) as L.
    rewrite !blen_app, !blen_bytes_bits in L.
    pose proof (blen_nonneg w1). pose proof (blen_nonneg w2).
    rewrite !bytes_bits_length. lia.
Qed.

Lemma decode_bits_app (coder : aws_huffman_symbol_coder) (b1 b2 : list bool) (room : nat) :
  decode_bounded coder -> decode_prefix_stable coder ->
  decode_bits coder (b1 ++ b2) room
  = let '(res1, syms1, rem1) := decode_bits coder b1 room in
    match res1 with
    | AWS_OP_SUCCESS =>
        let '(res2, syms2, rem2) :=
          decode_bits coder (rem1 ++ b2) (room - length syms1) in
        (res2, syms1 ++ syms2, rem2)
    | other => (other, syms1, rem1 ++ b2)
    end.
Proof.
  intros Hbound Hstable. unfold decode_bits.
  rewrite (decode_stream_app coder Hbound Hstable) by lia.
  rewrite (decode_stream_fuel coder (S (length (b1 ++ b2))) (S (length b1)) b1)
    by (unfold blen; rewrite ?length_app; lia).
  destruct (decode_stream (S (length b1)) coder b1 (blen b1) room) as [[r1 y1] m1] eqn:E1.
  pose proof (decode_stream_rem_len coder _ _ _ _ _ _ _ E1) as Hm1.
  destruct r1; try reflexivity.
  rewrite (decode_stream_fuel coder (S (length (b1 ++ b2))) (S (length (m1 ++ b2))))
    by (unfold blen; rewrite ?length_app; lia).
  reflexivity.
Qed.

Lemma decode_bits_no_room (coder : aws_huffman_symbol_coder) (bits : list bool) :
  decoded_symbols coder bits 0 = [].
Proof.
  unfold decoded_symbols, decode_bits.
  destruct (decode_stream_no_room (S (length bits)) coder bits (blen bits)) as (res & E & _).
  rewrite E. reflexivity.
Qed.

(** A call of [aws_huffman_decode] in terms of [decode_bits], whether or
    not the output buffer has a free byte. *)
Lemma decode_call_symbols (decoder : aws_huffman_decoder) (cur : aws_byte_cursor)
    (out : aws_byte_buf) (abits : list bool) :
  dec_rel decoder abits -> dec_num_bits decoder <= 39 ->
  decode_bounded (dec_coder decoder) -> buf_ok out ->
  blen (abits ++ bytes_bits cur) < 2 ^ 64 ->
  let room := (capacity out - buf_len out)%nat in
  let '(res_abs, syms, rem) := decode_bits (dec_coder decoder) (abits ++ bytes_bits cur) room in
  exists res decoder' cur' abits',
    aws_huffman_decode decoder cur out
    = Some (res, decoder', cur', mk_buf (buffer out ++ syms) (capacity out)) /\
    dec_coder decoder' = dec_coder decoder /\
    dec_rel decoder' abits' /\ dec_num_bits decoder' <= 39 /\
    (res = AWS_OP_SUCCESS -> res_abs = AWS_OP_SUCCESS /\ cur' = [] /\ abits' = rem) /\
    (res <> AWS_OP_SUCCESS -> res_abs <> AWS_OP_SUCCESS \/ room = 0%nat).
Proof.
  intros Hrel Hle Hbound Hbuf Hsize room.
  destruct (Nat.eq_dec room 0) as [E0|E0].
  - (* the output buffer is full *)
    pose proof (decode_bits_no_room (dec_coder decoder) (abits ++ bytes_bits cur)) as Hnil.
    unfold decoded_symbols in Hnil. rewrite E0.
    destruct (decode_bits (dec_coder decoder) (abits ++ bytes_bits cur) 0) as [[r y] m].
    cbn [fst snd] in Hnil. subst y.
    exists AWS_ERROR_SHORT_BUFFER, decoder, cur, abits.
    unfold aws_huffman_decode.
    replace (buf_len out =? capacity out)%nat with true
      by (symmetry; apply Nat.eqb_eq; unfold room, buf_ok in *; lia).
    rewrite app_nil_r, buf_eta.
    split; [reflexivity|]. split; [reflexivity|]. split; [exact Hrel|]. split; [exact Hle|].
    split; [discriminate | intros _; right; reflexivity].
  - pose proof (aws_huffman_decode_spec decoder cur out abits Hrel Hle Hbound Hbuf
                  ltac:(unfold has_room, room in *; lia) Hsize) as H.
    fold room in H.
    destruct (decode_bits (dec_coder decoder) (abits ++ bytes_bits cur) room) as [[r y] m].
    destruct H as (d' & cur' & abits' & Erun & Hc & Hrel' & Hle' & Hrem & Hcur).
    exists r, d', cur', abits'.
    split; [exact Erun|]. split; [exact Hc|]. split; [exact Hrel'|]. split; [exact Hle'|].
    split.
    + intros Hr. specialize (Hcur I Hr). subst cur'.
      cbn [bytes_bits flat_map] in Hrem. rewrite app_nil_r in Hrem. auto.
    + intros Hne. left. exact Hne.
Qed.

Lemma decode_bits_rem_len (coder : aws_huffman_symbol_coder) (bits : list bool) (room : nat)
    (res : aws_result) (syms : list Z) (rem : list bool) :
  decode_bits coder bits room = (res, syms, rem) -> blen rem <= blen bits.
Proof.
  unfold decode_bits. intros E. apply decode_stream_rem_len in E. unfold blen. lia.
Qed.

Lemma decode_bits_syms_len (coder : aws_huffman_symbol_coder) (fuel : nat) :
  forall bits bits_left room res syms rem,
    decode_stream fuel coder bits bits_left room = (res, syms, rem) ->
    (length syms <= room)%nat.
Proof.
  induction fuel as [|fuel IH]; intros bits bl room res syms rem E.
  { cbn in E. injection E as _ <- _. cbn. lia. }
  rewrite decode_stream_unfold in E.
  destruct (coder_decode coder (stream_window bits)) as [n s].
  destruct (n =? 0).
  { destruct (bl <? 32); injection E as _ <- _; cbn; lia. }
  destruct (n >? bl); [injection E as _ <- _; cbn; lia|].
  destruct room as [|room]; [injection E as _ <- _; cbn; lia|].
  cbv zeta in E.
  destruct (bl - n =? 0).
  { injection E as _ <- _. cbn. lia. }
  destruct (decode_stream fuel coder (skipn (Z.to_nat n) bits) (bl - n) room)
    as [[r y] m] eqn:E1.
  injection E as _ <- _. apply IH in E1. cbn [length]. lia.
Qed.

Lemma decode_chunks_symbols (chunks : list aws_byte_cursor) :
  forall (chunk : aws_byte_cursor) (decoder : aws_huffman_decoder) (abits : list bool)
         (out : aws_byte_buf),
    dec_rel decoder abits -> dec_num_bits decoder <= 39 ->
    decode_bounded (dec_coder decoder) -> decode_prefix_stable (dec_coder decoder) ->
    buf_ok out ->
    blen (abits ++ bytes_bits (concat (chunk :: chunks))) < 2 ^ 64 ->
    exists res decoder',
      decode_chunks decoder (chunk :: chunks) out
      = Some (res, decoder',
              mk_buf (buffer out
                      ++ decoded_symbols (dec_coder decoder)
                           (abits ++ bytes_bits (concat (chunk :: chunks)))
                           (capacity out - buf_len out))
                     (capacity out)).
Proof.
  induction chunks as [|chunk2 chunks IH];
    intros chunk decoder abits out Hrel Hle Hbound Hstable Hbuf Hsize.
  - cbn [concat] in *. rewrite app_nil_r in *.
    pose proof (decode_call_symbols decoder chunk out abits Hrel Hle Hbound Hbuf Hsize) as H.
    cbv zeta in H. unfold decoded_symbols.
    destruct (decode_bits (dec_coder decoder) (abits ++ bytes_bits chunk)
                (capacity out - buf_len out)) as [[r y] m].
    destruct H as (res & d' & cur' & abits' & Erun & _).
    cbn [decode_chunks fst snd]. rewrite Erun.
    destruct res; eauto.
  - set (rest := concat (chunk2 :: chunks)) in *.
    change (concat (chunk :: chunk2 :: chunks)) with (chunk ++ rest) in *.
    rewrite bytes_bits_app, app_assoc in *.
    set (b1 := abits ++ bytes_bits chunk) in *.
    assert (blen b1 < 2 ^ 64) as Hsize1.
    { rewrite blen_app in Hsize. pose proof (blen_nonneg (bytes_bits rest)). lia. }
    pose proof (decode_call_symbols decoder chunk out abits Hrel Hle Hbound Hbuf Hsize1) as H.
    cbv zeta in H. fold b1 in H.
    unfold decoded_symbols.
    rewrite (decode_bits_app (dec_coder decoder) b1 (bytes_bits rest)) by assumption.
    destruct (decode_bits (dec_coder decoder) b1 (capacity out - buf_len out))
      as [[r1 y1] m1] eqn:E1.
    destruct H as (res & d' & cur' & abits' & Erun & Hc & Hrel' & Hle' & Hsucc & Hfail).
    change (decode_chunks decoder (chunk :: chunk2 :: chunks) out)
      with (match aws_huffman_decode decoder chunk out with
            | None => None
            | Some (AWS_OP_SUCCESS, decoder', _, out') =>
                decode_chunks decoder' (chunk2 :: chunks) out'
            | Some (res, decoder', _, out') => Some (res, decoder', out')
            end).
    rewrite Erun.
    pose proof (decode_bits_rem_len _ _ _ _ _ _ E1) as Hm1.
    pose proof E1 as Hy1. unfold decode_bits in Hy1. apply decode_bits_syms_len in Hy1.
    assert (res <> AWS_OP_SUCCESS ->
            snd (fst (match r1 with
                      | AWS_OP_SUCCESS =>
                          let '(res2, syms2, rem2) :=
                            decode_bits (dec_coder decoder) (m1 ++ bytes_bits rest)
                                        (capacity out - buf_len out - length y1) in
                          (res2, y1 ++ syms2, rem2)
                      | other => (other, y1, m1 ++ bytes_bits rest)
                      end)) = y1) as Hstop.
    { intros Hne. destruct (Hfail Hne) as [Hr | Hroom0].
      - destruct r1; try contradiction; reflexivity.
      - destruct r1; try reflexivity.
        rewrite Hroom0 in *. cbn [Nat.sub].
        pose proof (decode_bits_no_room (dec_coder decoder) (m1 ++ bytes_bits rest)) as Hnil.
        unfold decoded_symbols in Hnil.
        destruct (decode_bits (dec_coder decoder) (m1 ++ bytes_bits rest) 0) as [[r2 y2] m2].
        cbn [fst snd] in *. subst y2. apply app_nil_r. }
    destruct res.
    + destruct (Hsucc eq_refl) as (-> & -> & ->).
      set (out1 := mk_buf (buffer out ++ y1) (capacity out)).
      assert (buf_ok out1) as Hbuf1.
      { unfold buf_ok, out1, buf_len in *; cbn [buffer capacity]. rewrite length_app. lia. }
      assert ((capacity out1 - buf_len out1)%nat
              = (capacity out - buf_len out - length y1)%nat) as Eroom.
      { unfold out1, buf_len; cbn [buffer capacity]. rewrite length_app. lia. }
      rewrite <- Hc in Hbound, Hstable.
      destruct (IH chunk2 d' m1 out1 Hrel' Hle' Hbound Hstable Hbuf1) as (res2 & d2 & Erun2).
      { fold rest. rewrite blen_app in *. lia. }
      fold rest in Erun2. rewrite Erun2, Eroom, Hc.
      exists res2, d2. unfold out1, decoded_symbols; cbn [buffer capacity].
      destruct (decode_bits (dec_coder decoder) (m1 ++ bytes_bits rest)
                  (capacity out - buf_len out - length y1)) as [[r2 y2] m2].
      cbn [fst snd]. rewrite <- app_assoc. reflexivity.
    + rewrite Hstop by discriminate. eauto.
    + rewrite Hstop by discriminate. eauto.
Qed.

(** C2: splitting the work across calls does not change the result, for
    every symbol coder within the contract of [huffman.h]: [num_bits] is the
    number of bits of the 32-bit pattern to use, and [decode] returns the
    number of bits read from the bits it is given (at most 32, the result
    being that of every window with the same first bits).
    Encoding: for symbols that all have codes, one call into a buffer that
    can take the bits and the calls resumed after short-buffer with any
    buffers that can together take the bits produce the same bytes; and
    whatever the input, two ways of supplying buffers that both run to the
    end give the same result code, cursor and bytes.  Decoding: one call on
    the concatenation of the chunks and one call per chunk leave the same
    output buffer. *)
Theorem split_calls_same_result (encoder : aws_huffman_encoder) (cur : aws_byte_cursor)
    (decoder : aws_huffman_decoder) (abits : list bool)
    (chunk : aws_byte_cursor) (chunks : list aws_byte_cursor) (out : aws_byte_buf) :
  encoder_ok encoder ->
  dec_rel decoder abits -> dec_num_bits decoder <= 39 ->
  decode_bounded (dec_coder decoder) -> decode_prefix_stable (dec_coder decoder) ->
  buf_ok out ->
  blen (abits ++ bytes_bits (concat (chunk :: chunks))) < 2 ^ 64 ->
  (forall cap caps,
     Forall (known (enc_coder encoder)) cur ->
     blen (encode_stream encoder cur) < 8 * Z.of_nat cap ->
     blen (encode_stream encoder cur) < 8 * Z.of_nat (list_sum caps) ->
     exists e1 e2 bytes,
       aws_huffman_encode encoder cur (mk_buf [] cap)
       = Some (AWS_OP_SUCCESS, e1, [], mk_buf bytes cap) /\
       encode_with_buffers encoder cur caps = Some (AWS_OP_SUCCESS, e2, [], bytes)) /\
  (forall caps1 caps2 res1 res2 e1 e2 cur1 cur2 bytes1 bytes2,
     encode_with_buffers encoder cur caps1 = Some (res1, e1, cur1, bytes1) ->
     encode_with_buffers encoder cur caps2 = Some (res2, e2, cur2, bytes2) ->
     res1 <> AWS_ERROR_SHORT_BUFFER -> res2 <> AWS_ERROR_SHORT_BUFFER ->
     res1 = res2 /\ cur1 = cur2 /\ bytes1 = bytes2) /\
  exists res1 decoder1 cur1 res2 decoder2 out',
    aws_huffman_decode decoder (concat (chunk :: chunks)) out
    = Some (res1, decoder1, cur1, out') /\
    decode_chunks decoder (chunk :: chunks) out = Some (res2, decoder2, out').
Proof.
  intros Hok Hrel Hle Hbound Hstable Hbuf Hsize.
  assert (forall caps1 caps2 res1 res2 e1 e2 cur1 cur2 bytes1 bytes2,
     encode_with_buffers encoder cur caps1 = Some (res1, e1, cur1, bytes1) ->
     encode_with_buffers encoder cur caps2 = Some (res2, e2, cur2, bytes2) ->
     res1 <> AWS_ERROR_SHORT_BUFFER -> res2 <> AWS_ERROR_SHORT_BUFFER ->
     res1 = res2 /\ cur1 = cur2 /\ bytes1 = bytes2) as Hdet.
  { intros caps1 caps2 res1 res2 e1 e2 cur1 cur2 bytes1 bytes2 E1 E2 Hn1 Hn2.
    destruct (encode_with_buffers_spec caps1 encoder cur Hok)
      as (r1 & e1' & c1' & b1' & E1' & P1).
    destruct (encode_with_buffers_spec caps2 encoder cur Hok)
      as (r2 & e2' & c2' & b2' & E2' & P2).
    rewrite E1 in E1'. injection E1' as <- <- <- <-.
    rewrite E2 in E2'. injection E2' as <- <- <- <-.
    exact (buffers_post_deterministic _ _ _ _ _ _ _ _ _ _ _ _ P1 P2 Hn1 Hn2). }
  split; [|split; [exact Hdet|]].
  - intros cap caps Hknown Hfit1 Hfit2.
    assert (buf_ok (mk_buf [] cap)) as Hbuf0 by (unfold buf_ok, buf_len; cbn; lia).
    destruct (encode_success encoder cur (mk_buf [] cap) Hok Hbuf0 Hknown) as
      (e1 & bytes & pad & Erun & _).
    { unfold free_bytes, buf_len; cbn [buffer capacity length]. lia. }
    cbn [buffer capacity List.app] in Erun.
    destruct (encode_with_buffers_spec caps encoder cur Hok)
      as (r2 & e2 & c2 & b2 & E2 & P2).
    assert (r2 = AWS_OP_SUCCESS) as ->.
    { destruct P2 as (_ & _ & _ & _ & P2). destruct r2; [reflexivity| |]; exfalso.
      - destruct P2 as (Hlen & done & Ecur & _ & Hbits).
        apply (f_equal blen) in Hbits.
        rewrite Ecur, encode_stream_app in Hfit2.
        rewrite !blen_app, blen_bytes_bits in *.
        pose proof (blen_nonneg (code_bits (overflow_bits e2))).
        pose proof (blen_nonneg (symbols_bits (enc_coder encoder) c2)).
        lia.
      - destruct P2 as (done & x & _ & Ecur & _ & Hunk & _).
        rewrite Ecur in Hknown. apply Forall_app in Hknown. destruct Hknown as (_ & Hk).
        inversion Hk; subst. contradiction. }
    assert (encode_with_buffers encoder cur [cap]
            = Some (AWS_OP_SUCCESS, e1, [], bytes)) as E1.
    { cbn [encode_with_buffers]. rewrite Erun. reflexivity. }
    destruct (Hdet [cap] caps _ _ _ _ _ _ _ _ E1 E2) as (_ & <- & <-); try discriminate.
    exists e1, e2, bytes. auto.
  - destruct (decode_chunks_symbols chunks chunk decoder abits out
                Hrel Hle Hbound Hstable Hbuf Hsize) as (res2 & d2 & Echunks).
    pose proof (decode_call_symbols decoder (concat (chunk :: chunks)) out abits
                  Hrel Hle Hbound Hbuf Hsize) as H.
    cbv zeta in H. unfold decoded_symbols in Echunks.
    destruct (decode_bits (dec_coder decoder)
                (abits ++ bytes_bits (concat (chunk :: chunks)))
                (capacity out - buf_len out)) as [[r y] m].
    destruct H as (res1 & d1 & cur1 & abits1 & Erun & _).
    cbn [fst snd] in Echunks.
    exists res1, d1, cur1, res2, d2, (mk_buf (buffer out ++ y) (capacity out)). auto.
Qed.

Lemma testbit_odd_div (a n : Z) : 0 <= n -> Z.testbit a n = Z.odd (a / 2 ^ n).
Proof. intros Hn. rewrite Z.testbit_odd, Z.shiftr_div_pow2 by lia. reflexivity. Qed.

Lemma abc_decode_prefix_stable : decode_prefix_stable abc_coder.
Proof.
  intros w w' Hw Hw' n Hn Hdiv.
  assert (Z.testbit w 31 = true ->
          Z.testbit w' 31 = Z.testbit w 31 /\ Z.testbit w' 30 = Z.testbit w 30) as H2.
  { intros E. unfold n, coder_decode, abc_coder, abc_decode in Hdiv; cbn [decode] in Hdiv.
    rewrite E in Hdiv.
    assert (w / 2 ^ 30 = w' / 2 ^ 30) as Hq.
    { destruct (Z.testbit w 30); exact Hdiv. }
    rewrite !(testbit_odd_div _ 30), !(testbit_odd_div _ 31) by lia.
    replace (2 ^ 31) with (2 ^ 30 * 2) by reflexivity.
    rewrite <- !Z.div_div by lia. rewrite Hq. auto. }
  assert (Z.testbit w 31 = false -> Z.testbit w' 31 = false) as H1.
  { intros E. unfold n, coder_decode, abc_coder, abc_decode in Hdiv; cbn [decode] in Hdiv.
    rewrite E in Hdiv. change (w / 2 ^ 31 = w' / 2 ^ 31) in Hdiv.
    rewrite (testbit_odd_div w' 31) by lia. rewrite <- Hdiv.
    rewrite <- (testbit_odd_div w 31) by lia. exact E. }
  unfold coder_decode, abc_coder, abc_decode; cbn [decode].
  destruct (Z.testbit w 31) eqn:E31.
  - destruct (H2 eq_refl) as (-> & ->). reflexivity.
  - rewrite (H1 eq_refl). reflexivity.
Qed.

Lemma split_calls_same_result_witness :
  exists res1 decoder1 cur1 res2 decoder2 out',
    aws_huffman_decode (aws_huffman_decoder_init abc_coder) (concat [[47]; [47]]) (mk_buf [] 9)
    = Some (res1, decoder1, cur1, out') /\
    decode_chunks (aws_huffman_decoder_init abc_coder) [[47]; [47]] (mk_buf [] 9)
    = Some (res2, decoder2, out').
Proof.
  refine (proj2 (proj2 (split_calls_same_result (aws_huffman_encoder_init abc_coder)
                          [65; 65; 66] (aws_huffman_decoder_init abc_coder) [] [47] [[47]]
                          (mk_buf [] 9) _ _ _ _ _ _ _))).
  - split; [exact abc_valid_codes | cbn; lia].
  - apply dec_rel_init.
  - cbn. lia.
  - exact abc_decode_bounded.
  - exact abc_decode_prefix_stable.
  - unfold buf_ok, buf_len; cbn. lia.
  - vm_compute. reflexivity.
Defined.

(** * Further properties of the encoder *)

(** ** The bit-packing helper *)

(** X1: [encode_write_bit_pattern], called with a partly filled working
    byte, a free byte in the output buffer and a code of 1 to 32 bits,
    returns after at most 255 iterations; it appends whole bytes only and
    loses no bit: on success the bits of the bytes appended followed by the
    bits of the new working byte are the bits of the old working byte
    followed by the code, and a free byte is left; on short-buffer the
    output buffer is at capacity, the working byte is empty again and the
    bits of the code that are not in the output are the code kept in
    [overflow_bits], which is shorter than the code written. *)
Theorem encode_write_bit_pattern_accounts (state : encoder_state) (wbits : list bool)
    (bit_pattern : aws_huffman_code) :
  est_rel state wbits -> has_room (output_buf state) ->
  1 <= num_bits bit_pattern <= 32 ->
  exists res state' app,
    encode_write_bit_pattern state bit_pattern = Some (res, state') /\
    buffer (output_buf state') = buffer (output_buf state) ++ app /\
    capacity (output_buf state') = capacity (output_buf state) /\
    Forall is_u8 app /\
    8 * Z.of_nat (length app) <= blen wbits + num_bits bit_pattern /\
    ((res = AWS_OP_SUCCESS /\
      es_encoder state' = es_encoder state /\ has_room (output_buf state') /\
      exists wbits', est_rel state' wbits' /\
        bytes_bits app ++ wbits' = wbits ++ code_bits bit_pattern) \/
     (res = AWS_ERROR_SHORT_BUFFER /\
      buf_len (output_buf state') = capacity (output_buf state') /\
      bit_pos state' = 8 /\ working state' = 0 /\
      0 <= num_bits (overflow_bits (es_encoder state')) < num_bits bit_pattern /\
      bytes_bits app ++ code_bits (overflow_bits (es_encoder state'))
      = wbits ++ code_bits bit_pattern)).
Proof.
  intros Hrel Hroom Hn.
  destruct (encode_write_bit_pattern_spec state wbits bit_pattern Hrel Hroom Hn)
    as (res & state' & Erun & Hcap & _ & _ & app & Happ & Hu8 & Hres).
  exists res, state', app.
  split; [exact Erun|]. split; [exact Happ|]. split; [exact Hcap|]. split; [exact Hu8|].
  destruct res; try contradiction.
  - destruct Hres as (Henc & Hroom' & wbits' & Hrel' & Hbits).
    split.
    + apply (f_equal blen) in Hbits.
      rewrite !blen_app, blen_bytes_bits, code_bits_length in Hbits by lia.
      pose proof (blen_nonneg wbits'). lia.
    + left. split; [reflexivity|]. split; [exact Henc|]. split; [exact Hroom'|].
      exists wbits'. split; assumption.
  - destruct Hres as (Hfull & Hov & Hbits & Hpos & Hwork).
    rewrite code_bits_length in Hov by lia.
    split.
    + apply (f_equal blen) in Hbits.
      rewrite !blen_app, blen_bytes_bits, (code_bits_length bit_pattern) in Hbits by lia.
      pose proof (blen_nonneg (code_bits (overflow_bits (es_encoder state')))). lia.
    + right. repeat split; try assumption; lia.
Qed.

Lemma encode_write_bit_pattern_accounts_witness :
  exists res state' app,
    encode_write_bit_pattern
      (mk_estate (aws_huffman_encoder_init abc_coder) (mk_buf [] 1) 0 8) (mk_code 3 2)
    = Some (res, state') /\
    buffer (output_buf state') = [] ++ app /\ capacity (output_buf state') = 1%nat.
Proof.
  destruct (encode_write_bit_pattern_accounts
              (mk_estate (aws_huffman_encoder_init abc_coder) (mk_buf [] 1) 0 8) []
              (mk_code 3 2))
    as (res & state' & app & Erun & Happ & Hcap & _).
  - apply est_rel_init.
  - unfold has_room, buf_len; cbn. lia.
  - cbn. lia.
  - exists res, state', app. auto.
Defined.

(** ** The call *)

(** The first step of [aws_huffman_encode]: the bits left over from the
    previous call. *)
Lemma encode_pending_spec (encoder : aws_huffman_encoder) (out : aws_byte_buf) :
  0 <= num_bits (overflow_bits encoder) < 32 -> has_room out ->
  let state0 := mk_estate encoder out 0 8 in
  exists res state1,
    (if negb (num_bits (overflow_bits encoder) =? 0) then
        match encode_write_bit_pattern state0 (overflow_bits encoder) with
        | None => None
        | Some (AWS_OP_SUCCESS, state1) =>
          Some (AWS_OP_SUCCESS,
                mk_estate (set_overflow (es_encoder state1) zero_code)
                          (output_buf state1) (working state1) (bit_pos state1))
        | Some (result, state1) => Some (result, state1)
        end
      else Some (AWS_OP_SUCCESS, state0)) = Some (res, state1) /\
    capacity (output_buf state1) = capacity out /\
    enc_coder (es_encoder state1) = enc_coder encoder /\
    exists app, buffer (output_buf state1) = buffer out ++ app /\
      match res with
      | AWS_OP_SUCCESS =>
          has_room (output_buf state1) /\
          exists wbits, est_rel state1 wbits /\
            bytes_bits app ++ wbits = code_bits (overflow_bits encoder)
      | AWS_ERROR_SHORT_BUFFER =>
          buf_len (output_buf state1) = capacity (output_buf state1)
      | AWS_ERROR_COMPRESSION_UNKNOWN_SYMBOL => False
      end.
Proof.
  intros Hov Hroom state0.
  pose proof (est_rel_init encoder out) as Hrel0. fold state0 in Hrel0.
  destruct (num_bits (overflow_bits encoder) =? 0) eqn:Ez; cbn [negb].
  - apply Z.eqb_eq in Ez. exists AWS_OP_SUCCESS, state0. split; [reflexivity|].
    unfold state0; rsimpl. split; [reflexivity|]. split; [reflexivity|].
    exists []. rewrite app_nil_r. split; [reflexivity|]. split; [exact Hroom|].
    exists []. split; [exact Hrel0|]. rewrite code_bits_zero by exact Ez. reflexivity.
  - apply Z.eqb_neq in Ez.
    destruct (encode_write_bit_pattern_spec state0 [] (overflow_bits encoder) Hrel0 Hroom
                ltac:(lia))
      as (res & state1 & Erun & Hcap & Hcoder & _ & app & Happ & _ & Hres).
    rewrite Erun. unfold state0 in Hcap, Hcoder, Happ. rsimpl.
    destruct res; try contradiction.
    + destruct Hres as (_ & Hroom1 & wbits & Hrel1 & Hbits).
      eexists _, _. split; [reflexivity|]. rsimpl.
      split; [exact Hcap|]. split; [exact Hcoder|].
      exists app. split; [exact Happ|]. split; [exact Hroom1|].
      exists wbits. split; [exact Hrel1 | exact Hbits].
    + destruct Hres as (Hfull & _).
      eexists _, _. split; [reflexivity|].
      split; [exact Hcap|]. split; [exact Hcoder|].
      exists app. split; [exact Happ | exact Hfull].
Qed.

(** The output buffer is never filled beyond its capacity, and a call that
    succeeds had room for one bit more than the stream. *)
Lemma aws_huffman_encode_room (encoder : aws_huffman_encoder) (cur : aws_byte_cursor)
    (out : aws_byte_buf) (res : aws_result) (encoder' : aws_huffman_encoder)
    (cur' : aws_byte_cursor) (out' : aws_byte_buf) :
  encoder_ok encoder -> buf_ok out ->
  aws_huffman_encode encoder cur out = Some (res, encoder', cur', out') ->
  buf_ok out' /\
  (res = AWS_OP_SUCCESS -> blen (encode_stream encoder cur) < 8 * free_bytes out).
Proof.
  intros (Hvalid & Hov) Hbuf Erun. unfold aws_huffman_encode in Erun.
  destruct (buf_len out =? capacity out)%nat eqn:Efull.
  { injection Erun as <- <- <- <-. split; [exact Hbuf | discriminate]. }
  apply Nat.eqb_neq in Efull.
  assert (has_room out) as Hroom by (unfold has_room, buf_ok in *; lia).
  destruct (encode_pending_spec encoder out Hov Hroom)
    as (res1 & state1 & Erun1 & Hcap1 & Hcoder1 & app1 & Happ1 & Hres1).
  cbv zeta in Erun1. rewrite Erun1 in Erun.
  destruct res1; try contradiction.
  2:{ injection Erun as <- <- <- <-.
      split; [unfold buf_ok; lia | discriminate]. }
  destruct Hres1 as (Hroom1 & wbits1 & Hrel1 & Hbits1).
  assert (valid_codes (enc_coder (es_encoder state1))) as Hvalid1
    by (rewrite Hcoder1; exact Hvalid).
  destruct (encode_symbols_spec cur state1 wbits1 Hrel1 Hroom1 Hvalid1)
    as (res2 & state2 & cur2 & Erun2 & Hcap2 & Hcoder2 & _ & app2 & Happ2 & _ & Hres2).
  rewrite Erun2 in Erun. rewrite Hcoder1 in Hres2.
  destruct res2.
  - destruct Hres2 as (-> & _ & _ & Hroom2 & wbits2 & Hrel2 & Hbits2).
    destruct (encode_eos_spec state2 wbits2 Hrel2 Hroom2)
      as (state3 & Erun3 & Hcap3 & _ & _ & _ & _ & _ & app3 & Happ3 & _ & Hbits3).
    rewrite Erun3 in Erun. injection Erun as <- <- <- <-.
    pose proof (est_rel_blen state2 wbits2 Hrel2) as Hw2.
    destruct Hrel2 as (Hbp2 & _ & _).
    destruct (eos_pad_shape (eos_padding (es_encoder state2)) (bit_pos state2) Hbp2)
      as (Hplen & _).
    apply (f_equal blen) in Hbits1, Hbits2, Hbits3.
    unfold encode_stream.
    rewrite !blen_app, !blen_bytes_bits in *.
    pose proof (blen_nonneg wbits1). pose proof (blen_nonneg wbits2).
    pose proof (blen_nonneg (eos_pad (eos_padding (es_encoder state2)) (bit_pos state2))).
    unfold buf_ok, has_room, free_bytes, buf_len in *.
    rewrite Happ3, Happ2, Happ1, !length_app in *.
    split; [lia|]. intros _. lia.
  - destruct Hres2 as (done & _ & _ & Hfull2 & _).
    injection Erun as <- <- <- <-.
    split; [unfold buf_ok; lia | discriminate].
  - destruct Hres2 as (done & x & _ & _ & _ & _ & Hroom2 & _).
    injection Erun as <- <- <- <-.
    split; [unfold buf_ok, has_room in *; lia | discriminate].
Qed.

Lemma total_code_bits_valid (coder : aws_huffman_symbol_coder) (symbols : list Z) :
  valid_codes coder ->
  0 <= total_code_bits coder symbols <= 32 * Z.of_nat (length symbols).
Proof.
  intros Hvalid.
  induction symbols as [|s l IH]; cbn [total_code_bits fold_right length]; [lia|].
  fold (total_code_bits coder l).
  pose proof (coder_encode_num_bits_range coder (u8 s)) as R.
  pose proof (Hvalid (u8 s) (u8_range s)). lia.
Qed.

Lemma total_code_bits_app (coder : aws_huffman_symbol_coder) (a b : list Z) :
  total_code_bits coder (a ++ b) = total_code_bits coder a + total_code_bits coder b.
Proof.
  induction a as [|s a IH]; [reflexivity|].
  cbn [List.app total_code_bits fold_right]. fold (total_code_bits coder (a ++ b)).
  fold (total_code_bits coder a). rewrite IH. lia.
Qed.

Lemma encode_stream_blen (encoder : aws_huffman_encoder) (cur : aws_byte_cursor) :
  0 <= num_bits (overflow_bits encoder) ->
  blen (encode_stream encoder cur)
  = num_bits (overflow_bits encoder) + total_code_bits (enc_coder encoder) cur.
Proof.
  intros H. unfold encode_stream.
  rewrite blen_app, symbols_bits_blen, code_bits_length by exact H. reflexivity.
Qed.

Lemma unknown_code_bits (coder : aws_huffman_symbol_coder) (x : Z) :
  ~ known coder x -> num_bits (coder_encode coder (u8 x)) = 0.
Proof.
  unfold known. intros H.
  destruct (Z.eq_dec (num_bits (coder_encode coder (u8 x))) 0) as [E | E];
    [exact E | contradiction].
Qed.

(** X2: a call of [aws_huffman_encode] on an encoder whose codes have at
    most 32 bits always returns, and keeps what the next call relies on:
    the coder and the padding byte are unchanged, fewer than 32 bits are
    pending in [overflow_bits], the output buffer keeps its capacity and its
    content, gains bytes at its end only, and is not filled beyond capacity;
    the cursor has advanced over the symbols read, and the bytes appended
    never hold more than the pending bits and the codes of the symbols read
    (rounded up to a byte). *)
Theorem aws_huffman_encode_keeps_invariants (encoder : aws_huffman_encoder)
    (cur : aws_byte_cursor) (out : aws_byte_buf) :
  encoder_ok encoder -> buf_ok out ->
  exists res encoder' cur' out' app taken,
    aws_huffman_encode encoder cur out = Some (res, encoder', cur', out') /\
    encoder_ok encoder' /\
    enc_coder encoder' = enc_coder encoder /\
    eos_padding encoder' = eos_padding encoder /\
    buf_ok out' /\ capacity out' = capacity out /\
    buffer out' = buffer out ++ app /\ Forall is_u8 app /\
    cur = taken ++ cur' /\
    8 * Z.of_nat (length app) <= blen (encode_stream encoder taken) + 7.
Proof.
  intros Hok Hbuf.
  destruct (aws_huffman_encode_spec encoder cur out Hok Hbuf)
    as (res & e' & cur' & out' & Erun & Hcap & Hcoder & Heos & Hovn & app & Happ & Hu8 & Hres).
  destruct (aws_huffman_encode_room encoder cur out res e' cur' out' Hok Hbuf Erun)
    as (Hbuf' & _).
  destruct Hok as (Hvalid & Hov).
  assert (exists taken, cur = taken ++ cur' /\
            8 * Z.of_nat (length app) <= blen (encode_stream encoder taken) + 7)
    as (taken & Ecur & Hcount).
  { unfold encode_stream. destruct res.
    - destruct Hres as (_ & -> & _ & _ & pad & Hplen & _ & Hbits).
      exists cur. rewrite app_nil_r. split; [reflexivity|].
      apply (f_equal blen) in Hbits. rewrite !blen_app, blen_bytes_bits in *.
      pose proof (blen_nonneg pad). lia.
    - destruct Hres as (_ & done & Ecur & _ & Hbits).
      exists done. split; [exact Ecur|].
      apply (f_equal blen) in Hbits. rewrite !blen_app, blen_bytes_bits in *.
      pose proof (blen_nonneg (code_bits (overflow_bits e'))). lia.
    - destruct Hres as (_ & _ & done & x & wbits & Ecur & _ & Hunk & _ & Hbits).
      exists (done ++ [x]). rewrite <- app_assoc. split; [exact Ecur|].
      apply (f_equal blen) in Hbits.
      rewrite symbols_bits_app, !blen_app, blen_bytes_bits in *.
      pose proof (blen_nonneg wbits).
      pose proof (blen_nonneg (symbols_bits (enc_coder encoder) [x])). lia. }
  exists res, e', cur', out', app, taken.
  split; [exact Erun|]. split; [split; [rewrite Hcoder; exact Hvalid | exact Hovn]|].
  auto 10.
Qed.

Lemma aws_huffman_encode_keeps_invariants_witness :
  exists res encoder' cur' out',
    aws_huffman_encode (aws_huffman_encoder_init abc_coder) [67; 67; 67; 67; 67] (mk_buf [] 1)
    = Some (res, encoder', cur', out') /\
    encoder_ok encoder' /\ buf_ok out'.
Proof.
  destruct (aws_huffman_encode_keeps_invariants (aws_huffman_encoder_init abc_coder)
              [67; 67; 67; 67; 67] (mk_buf [] 1))
    as (res & e' & cur' & out' & app & taken & Erun & Hok & _ & _ & Hbuf & _).
  - split; [exact abc_valid_codes | cbn; lia].
  - unfold buf_ok, buf_len; cbn. lia.
  - exists res, e', cur', out'. auto.
Defined.

(** X3: a call of [aws_huffman_encode] never returns short-buffer when
    the free bytes of the output buffer can hold more bits than there are
    to write; 4 free bytes for each symbol of the cursor and 4 more are
    always enough.  With codes for all the symbols the call then succeeds
    and drains the cursor. *)
Theorem encode_worst_case_room (encoder : aws_huffman_encoder) (cur : aws_byte_cursor)
    (out : aws_byte_buf) :
  encoder_ok encoder -> buf_ok out ->
  4 * Z.of_nat (length cur) + 4 <= free_bytes out ->
  exists res encoder' cur' out',
    aws_huffman_encode encoder cur out = Some (res, encoder', cur', out') /\
    res <> AWS_ERROR_SHORT_BUFFER /\
    (Forall (known (enc_coder encoder)) cur -> res = AWS_OP_SUCCESS /\ cur' = []).
Proof.
  intros Hok Hbuf Hfree.
  destruct (aws_huffman_encode_spec encoder cur out Hok Hbuf)
    as (res & e' & cur' & out' & Erun & Hcap & Hcoder & Heos & Hovn & app & Happ & Hu8 & Hres).
  exists res, e', cur', out'. split; [exact Erun|].
  destruct Hok as (Hvalid & Hov).
  assert (res <> AWS_ERROR_SHORT_BUFFER) as Hshort.
  { intros ->. destruct Hres as (Hfull & done & Ecur & _ & Hbits).
    apply (f_equal blen) in Hbits.
    rewrite !blen_app, blen_bytes_bits, symbols_bits_blen, !code_bits_length in Hbits by lia.
    pose proof (total_code_bits_valid (enc_coder encoder) done Hvalid) as Htot.
    apply (f_equal (@length Z)) in Ecur. rewrite length_app in Ecur.
    unfold free_bytes, buf_len in *. rewrite Happ, length_app in Hfull. lia. }
  split; [exact Hshort|].
  intros Hknown. destruct res; [|contradiction|].
  - destruct Hres as (_ & -> & _). auto.
  - exfalso. destruct Hres as (_ & _ & done & x & wbits & Ecur & _ & Hunk & _).
    rewrite Ecur in Hknown. apply Forall_app in Hknown. destruct Hknown as (_ & Hk).
    inversion Hk; subst. contradiction.
Qed.

Lemma encode_worst_case_room_witness :
  exists res encoder' cur' out',
    aws_huffman_encode (aws_huffman_encoder_init abc_coder) [65; 255; 66] (mk_buf [] 16)
    = Some (res, encoder', cur', out') /\
    res <> AWS_ERROR_SHORT_BUFFER.
Proof.
  destruct (encode_worst_case_room (aws_huffman_encoder_init abc_coder) [65; 255; 66]
              (mk_buf [] 16))
    as (res & e' & cur' & out' & Erun & Hres & _).
  - split; [exact abc_valid_codes | cbn; lia].
  - unfold buf_ok, buf_len; cbn. lia.
  - vm_compute. discriminate.
  - exists res, e', cur', out'. auto.
Defined.

(** X4: a call of [aws_huffman_encode] returns success exactly when every
    symbol of the cursor has a code and the bits to write (the pending bits
    and the codes) are fewer than the bits of the free bytes: a stream that
    fills the free bytes to the last bit is not a success. *)
Theorem encode_success_iff (encoder : aws_huffman_encoder) (cur : aws_byte_cursor)
    (out : aws_byte_buf) :
  encoder_ok encoder -> buf_ok out ->
  (exists encoder' cur' out',
     aws_huffman_encode encoder cur out = Some (AWS_OP_SUCCESS, encoder', cur', out')) <->
  (Forall (known (enc_coder encoder)) cur /\
   blen (encode_stream encoder cur) < 8 * free_bytes out).
Proof.
  intros Hok Hbuf. split.
  - intros (e' & cur' & out' & Erun).
    destruct (aws_huffman_encode_room encoder cur out _ e' cur' out' Hok Hbuf Erun)
      as (_ & Hfit).
    destruct (aws_huffman_encode_spec encoder cur out Hok Hbuf)
      as (res & e0 & cur0 & out0 & Erun0 & _ & _ & _ & _ & app & _ & _ & Hres).
    rewrite Erun in Erun0. injection Erun0 as <- <- <- <-.
    destruct Hres as (_ & _ & Hknown & _).
    split; [exact Hknown | exact (Hfit eq_refl)].
  - intros (Hknown & Hfit).
    destruct (encode_success encoder cur out Hok Hbuf Hknown Hfit)
      as (e' & app & pad & Erun & _).
    eauto.
Qed.

Lemma encode_success_iff_witness :
  Forall (known abc_coder) [65; 65; 66] /\
  blen (encode_stream (aws_huffman_encoder_init abc_coder) [65; 65; 66])
  < 8 * free_bytes (mk_buf [] 1).
Proof.
  refine (proj1 (encode_success_iff (aws_huffman_encoder_init abc_coder) [65; 65; 66]
                   (mk_buf [] 1) _ _) _).
  - split; [exact abc_valid_codes | cbn; lia].
  - unfold buf_ok, buf_len; cbn. lia.
  - eexists _, _, _. vm_compute. reflexivity.
Defined.

(** X5: when every symbol has a code and the bits to write fill the free
    bytes of the output buffer exactly, [aws_huffman_encode] returns
    short-buffer although nothing is left to do: every bit is in the bytes
    appended, the cursor is drained and no bit is pending; the call that
    resumes it then writes nothing and returns success. *)
Theorem encode_exact_fit (encoder : aws_huffman_encoder) (cur : aws_byte_cursor)
    (out : aws_byte_buf) :
  encoder_ok encoder -> buf_ok out -> has_room out ->
  Forall (known (enc_coder encoder)) cur ->
  blen (encode_stream encoder cur) = 8 * free_bytes out ->
  exists encoder' app,
    aws_huffman_encode encoder cur out
    = Some (AWS_ERROR_SHORT_BUFFER, encoder', [], mk_buf (buffer out ++ app) (capacity out)) /\
    bytes_bits app = encode_stream encoder cur /\
    num_bits (overflow_bits encoder') = 0 /\
    forall out2, has_room out2 ->
      aws_huffman_encode encoder' [] out2 = Some (AWS_OP_SUCCESS, encoder', [], out2).
Proof.
  intros Hok Hbuf Hroom Hknown Hfit.
  destruct (aws_huffman_encode_spec encoder cur out Hok Hbuf)
    as (res & e' & cur' & out' & Erun & Hcap & Hcoder & Heos & Hovn & app & Happ & Hu8 & Hres).
  destruct (aws_huffman_encode_room encoder cur out res e' cur' out' Hok Hbuf Erun)
    as (_ & Hstrict).
  assert (out' = mk_buf (buffer out ++ app) (capacity out)) as Eout.
  { destruct out' as [b c]. cbn [buffer capacity] in *. congruence. }
  destruct res.
  - specialize (Hstrict eq_refl). lia.
  - destruct Hres as (Hfull & done & Ecur & _ & Hbits).
    pose proof Hbits as Hlen. apply (f_equal blen) in Hlen.
    unfold encode_stream in *. rewrite Ecur, symbols_bits_app in Hfit.
    rewrite !blen_app, blen_bytes_bits in *.
    rewrite (code_bits_length (overflow_bits e')) in Hlen by lia.
    pose proof (blen_nonneg (symbols_bits (enc_coder encoder) cur')) as Hpos.
    assert (Z.of_nat (length app) = free_bytes out) as Happlen.
    { unfold free_bytes, buf_len in *. rewrite Happ, length_app in Hfull. lia. }
    assert (num_bits (overflow_bits e') = 0) as Hz by lia.
    assert (cur' = []) as ->.
    { destruct cur' as [|x cur']; [reflexivity|]. exfalso.
      rewrite Ecur in Hknown. apply Forall_app in Hknown. destruct Hknown as (_ & Hk).
      inversion Hk as [|? ? Hx _]; subst. unfold known in Hx.
      rewrite symbols_bits_cons, blen_app,
        (code_bits_length (coder_encode (enc_coder encoder) (u8 x))) in Hfit
        by apply coder_encode_num_bits_range.
      pose proof (coder_encode_num_bits_range (enc_coder encoder) (u8 x)).
      pose proof (blen_nonneg (symbols_bits (enc_coder encoder) cur')). lia. }
    rewrite app_nil_r in Ecur. subst done.
    exists e', app. rewrite Erun, Eout.
    split; [reflexivity|]. split.
    { rewrite code_bits_zero in Hbits by exact Hz. rewrite app_nil_r in Hbits. exact Hbits. }
    split; [exact Hz|].
    intros out2 Hroom2. unfold aws_huffman_encode.
    replace (buf_len out2 =? capacity out2)%nat with false
      by (symmetry; apply Nat.eqb_neq; unfold has_room in Hroom2; lia).
    rewrite Hz. reflexivity.
  - exfalso. destruct Hres as (_ & _ & done & x & wbits & Ecur & _ & Hunk & _).
    rewrite Ecur in Hknown. apply Forall_app in Hknown. destruct Hknown as (_ & Hk).
    inversion Hk; subst. contradiction.
Qed.

Lemma encode_exact_fit_witness :
  exists encoder' app,
    aws_huffman_encode (aws_huffman_encoder_init abc_coder) [67; 67; 67; 67] (mk_buf [] 1)
    = Some (AWS_ERROR_SHORT_BUFFER, encoder', [], mk_buf ([] ++ app) 1) /\
    bytes_bits app = encode_stream (aws_huffman_encoder_init abc_coder) [67; 67; 67; 67].
Proof.
  destruct (encode_exact_fit (aws_huffman_encoder_init abc_coder) [67; 67; 67; 67]
              (mk_buf [] 1))
    as (e' & app & Erun & Hbits & _).
  - split; [exact abc_valid_codes | cbn; lia].
  - unfold buf_ok, buf_len; cbn. lia.
  - unfold has_room, buf_len; cbn. lia.
  - repeat constructor; vm_compute; discriminate.
  - vm_compute. reflexivity.
  - exists e', app. auto.
Defined.

(** ** The encoded length *)

Lemma encoded_length_bits_app (coder : aws_huffman_symbol_coder) (a b : list Z) :
  forall n, encoded_length_bits coder (a ++ b) n
            = encoded_length_bits coder b (encoded_length_bits coder a n).
Proof.
  induction a as [|s a IH]; intros n; [reflexivity|].
  cbn [List.app encoded_length_bits]. apply IH.
Qed.

Lemma encoded_length_bits_range (coder : aws_huffman_symbol_coder) (a : list Z) :
  forall n, 0 <= n < 2 ^ 64 -> 0 <= encoded_length_bits coder a n < 2 ^ 64.
Proof.
  induction a as [|s a IH]; intros n Hn; [exact Hn|].
  cbn [encoded_length_bits]. apply IH. apply Z.mod_pos_bound. reflexivity.
Qed.

Lemma total_code_bits_known (coder : aws_huffman_symbol_coder) (symbols : list Z) :
  Forall (known coder) symbols -> Z.of_nat (length symbols) <= total_code_bits coder symbols.
Proof.
  induction 1 as [|s l Hs _ IH]; cbn [total_code_bits fold_right length]; [lia|].
  fold (total_code_bits coder l). unfold known in Hs.
  pose proof (coder_encode_num_bits_range coder (u8 s)). lia.
Qed.

(** X6: [aws_huffman_get_encoded_length] does not count the bits a
    short-buffer call left pending: a call of [aws_huffman_encode] that
    succeeds appends the pending bits and the codes, rounded up to a byte,
    which is the length [aws_huffman_get_encoded_length] gives for the
    cursor or up to 4 bytes more. *)
Theorem encode_appends_pending_and_codes (encoder : aws_huffman_encoder)
    (cur : aws_byte_cursor) (out : aws_byte_buf) :
  encoder_ok encoder -> buf_ok out ->
  Forall (known (enc_coder encoder)) cur ->
  255 * Z.of_nat (length cur) < 2 ^ 64 ->
  blen (encode_stream encoder cur) < 8 * free_bytes out ->
  exists encoder' out',
    aws_huffman_encode encoder cur out = Some (AWS_OP_SUCCESS, encoder', [], out') /\
    Z.of_nat (buf_len out') - Z.of_nat (buf_len out)
    = (num_bits (overflow_bits encoder) + total_code_bits (enc_coder encoder) cur + 7) / 8 /\
    aws_huffman_get_encoded_length encoder cur
    <= Z.of_nat (buf_len out') - Z.of_nat (buf_len out)
    <= aws_huffman_get_encoded_length encoder cur + 4.
Proof.
  intros Hok Hbuf Hknown Hsize Hfit.
  destruct (encode_success encoder cur out Hok Hbuf Hknown Hfit)
    as (e' & app & pad & Erun & _ & _ & _ & _ & Hplen & _ & Hbits).
  destruct Hok as (_ & Hov).
  exists e', (mk_buf (buffer out ++ app) (capacity out)). split; [exact Erun|].
  apply (f_equal blen) in Hbits.
  rewrite blen_app, blen_bytes_bits, encode_stream_blen in Hbits by lia.
  rewrite get_encoded_length_spec by exact Hsize.
  pose proof (total_code_bits_range (enc_coder encoder) cur).
  pose proof (blen_nonneg pad).
  unfold buf_len; cbn [buffer]. rewrite length_app.
  split; Z.div_mod_to_equations; lia.
Qed.

Lemma encode_appends_pending_and_codes_witness :
  exists encoder' out',
    aws_huffman_encode (mk_encoder abc_coder 255 (mk_code 5 3)) [67; 67; 67] (mk_buf [] 4)
    = Some (AWS_OP_SUCCESS, encoder', [], out') /\
    Z.of_nat (buf_len out') - Z.of_nat (buf_len (mk_buf [] 4)) = 2.
Proof.
  destruct (encode_appends_pending_and_codes (mk_encoder abc_coder 255 (mk_code 5 3))
              [67; 67; 67] (mk_buf [] 4))
    as (e' & out' & Erun & Hlen & _).
  - split; [exact abc_valid_codes | cbn; lia].
  - unfold buf_ok, buf_len; cbn. lia.
  - repeat constructor; vm_compute; discriminate.
  - cbn. lia.
  - vm_compute. reflexivity.
  - exists e', out'. split; [exact Erun|]. rewrite Hlen. vm_compute. reflexivity.
Defined.

(** X7: [aws_huffman_get_encoded_length] reports no error: a symbol
    without a code counts for no bit, so the length returned for a sequence
    is the length of the sequence without that symbol, although
    [aws_huffman_encode] fails on it. *)
Theorem get_encoded_length_ignores_unknown (encoder : aws_huffman_encoder)
    (a : list Z) (x : Z) (b : list Z) :
  ~ known (enc_coder encoder) x ->
  aws_huffman_get_encoded_length encoder (a ++ x :: b)
  = aws_huffman_get_encoded_length encoder (a ++ b).
Proof.
  intros Hunk. unfold aws_huffman_get_encoded_length.
  rewrite !encoded_length_bits_app. cbn [encoded_length_bits].
  rewrite (unknown_code_bits _ _ Hunk), Z.add_0_r.
  rewrite (usize_small (encoded_length_bits (enc_coder encoder) a 0))
    by (apply encoded_length_bits_range; lia).
  reflexivity.
Qed.

Lemma get_encoded_length_ignores_unknown_witness :
  aws_huffman_get_encoded_length (aws_huffman_encoder_init abc_coder) ([65; 66] ++ 255 :: [67])
  = aws_huffman_get_encoded_length (aws_huffman_encoder_init abc_coder) ([65; 66] ++ [67]).
Proof.
  apply (get_encoded_length_ignores_unknown (aws_huffman_encoder_init abc_coder)
           [65; 66] 255 [67]).
  vm_compute. intros H. apply H. reflexivity.
Defined.

(** X8: the length of a concatenation: encoding two sequences apart takes
    as many bytes as encoding them in one piece, or one byte more (the
    padding of the first piece). *)
Theorem get_encoded_length_concat (encoder : aws_huffman_encoder) (a b : list Z) :
  255 * Z.of_nat (length (a ++ b)) < 2 ^ 64 ->
  aws_huffman_get_encoded_length encoder (a ++ b)
  <= aws_huffman_get_encoded_length encoder a + aws_huffman_get_encoded_length encoder b
  <= aws_huffman_get_encoded_length encoder (a ++ b) + 1.
Proof.
  intros Hsize. rewrite length_app in Hsize.
  rewrite !get_encoded_length_spec by (rewrite ?length_app; lia).
  rewrite total_code_bits_app.
  pose proof (total_code_bits_range (enc_coder encoder) a).
  pose proof (total_code_bits_range (enc_coder encoder) b).
  Z.div_mod_to_equations. lia.
Qed.

Lemma get_encoded_length_concat_witness :
  aws_huffman_get_encoded_length (aws_huffman_encoder_init abc_coder) ([65; 66] ++ [67])
  <= aws_huffman_get_encoded_length (aws_huffman_encoder_init abc_coder) [65; 66]
     + aws_huffman_get_encoded_length (aws_huffman_encoder_init abc_coder) [67]
  <= aws_huffman_get_encoded_length (aws_huffman_encoder_init abc_coder) ([65; 66] ++ [67]) + 1.
Proof.
  apply (get_encoded_length_concat (aws_huffman_encoder_init abc_coder) [65; 66] [67]).
  cbn. lia.
Defined.

(** X9: bounds of the encoded length: with codes of at most 32 bits the
    length is at most 4 bytes for each symbol, and when every symbol has a
    code (of at least one bit) it is at least an eighth of the number of
    symbols; the length of the empty sequence is 0. *)
Theorem get_encoded_length_bounds (encoder : aws_huffman_encoder) (seq : list Z) :
  valid_codes (enc_coder encoder) ->
  255 * Z.of_nat (length seq) < 2 ^ 64 ->
  0 <= aws_huffman_get_encoded_length encoder seq <= 4 * Z.of_nat (length seq) /\
  (Forall (known (enc_coder encoder)) seq ->
   Z.of_nat (length seq) <= 8 * aws_huffman_get_encoded_length encoder seq).
Proof.
  intros Hvalid Hsize. rewrite get_encoded_length_spec by exact Hsize.
  pose proof (total_code_bits_valid (enc_coder encoder) seq Hvalid) as Htot.
  split; [Z.div_mod_to_equations; lia|].
  intros Hknown. pose proof (total_code_bits_known _ _ Hknown).
  Z.div_mod_to_equations. lia.
Qed.

Lemma get_encoded_length_bounds_witness :
  0 <= aws_huffman_get_encoded_length (aws_huffman_encoder_init abc_coder) [65; 66; 67]
  <= 4 * Z.of_nat (length [65; 66; 67]).
Proof.
  apply (get_encoded_length_bounds (aws_huffman_encoder_init abc_coder) [65; 66; 67]).
  - exact abc_valid_codes.
  - cbn. lia.
Defined.
(** ** Reset *)

(** X10: [aws_huffman_encoder_reset] drops the bits a short-buffer call
    left pending and keeps the padding byte (where
    [aws_huffman_encoder_init] sets it to 0xFF): whatever state the encoder
    was in, the next call starts on a byte boundary with the code of its
    first symbol, and pads with the encoder's own [eos_padding]. *)
Theorem encoder_reset_drops_pending (encoder : aws_huffman_encoder) (seq : list Z)
    (out : aws_byte_buf) :
  valid_codes (enc_coder encoder) -> buf_ok out ->
  Forall (known (enc_coder encoder)) seq ->
  total_code_bits (enc_coder encoder) seq < 8 * free_bytes out ->
  aws_huffman_encoder_reset (aws_huffman_encoder_init (enc_coder encoder))
  = aws_huffman_encoder_init (enc_coder encoder) /\
  exists encoder' app pad,
    aws_huffman_encode (aws_huffman_encoder_reset encoder) seq out
    = Some (AWS_OP_SUCCESS, encoder', [], mk_buf (buffer out ++ app) (capacity out)) /\
    bytes_bits app = symbols_bits (enc_coder encoder) seq ++ pad /\
    blen pad < 8 /\ pad = nbits (length pad) (eos_padding encoder) /\
    eos_padding encoder' = eos_padding encoder.
Proof.
  intros Hvalid Hbuf Hknown Hfit. split; [reflexivity|].
  set (e0 := aws_huffman_encoder_reset encoder).
  assert (encoder_ok e0) as Hok by (split; [exact Hvalid | cbn; lia]).
  assert (encode_stream e0 seq = symbols_bits (enc_coder encoder) seq) as Estream
    by reflexivity.
  destruct (encode_success e0 seq out Hok Hbuf Hknown)
    as (e' & app & pad & Erun & _ & Heos & _ & _ & Hplen & Hpad & Hbits).
  { rewrite Estream, symbols_bits_blen. exact Hfit. }
  exists e', app, pad. rewrite Estream in Hbits. auto.
Qed.

Lemma encoder_reset_drops_pending_witness :
  exists encoder' app pad,
    aws_huffman_encode
      (aws_huffman_encoder_reset (mk_encoder abc_coder 0 (mk_code 5 3))) [65; 66] (mk_buf [] 2)
    = Some (AWS_OP_SUCCESS, encoder', [], mk_buf ([] ++ app) 2) /\
    bytes_bits app = symbols_bits abc_coder [65; 66] ++ pad.
Proof.
  destruct (encoder_reset_drops_pending (mk_encoder abc_coder 0 (mk_code 5 3)) [65; 66]
              (mk_buf [] 2))
    as (_ & e' & app & pad & Erun & Hbits & _).
  - exact abc_valid_codes.
  - unfold buf_ok, buf_len; cbn. lia.
  - repeat constructor; vm_compute; discriminate.
  - vm_compute. reflexivity.
  - exists e', app, pad. auto.
Defined.

(** * Further properties of the decoder *)

(** ** The window-fill helper *)

Lemma decode_fill_cursor_suffix (cur : aws_byte_cursor) :
  forall decoder decoder1 cur1,
    decode_fill_working_bits decoder cur = (decoder1, cur1) ->
    dec_coder decoder1 = dec_coder decoder /\ exists taken, cur = taken ++ cur1.
Proof.
  induction cur as [|b cur IH]; intros decoder decoder1 cur1 E;
    cbn [decode_fill_working_bits] in E.
  - injection E as <- <-. split; [reflexivity | exists []; reflexivity].
  - destruct (dec_num_bits decoder <? MAX_PATTERN_BITS).
    + apply IH in E. destruct E as (Hc & taken & ->). rsimpl.
      split; [exact Hc | exists (b :: taken); reflexivity].
    + injection E as <- <-. split; [reflexivity | exists []; reflexivity].
Qed.

Lemma decode_fill_full (decoder : aws_huffman_decoder) (cur : aws_byte_cursor) :
  32 <= dec_num_bits decoder -> decode_fill_working_bits decoder cur = (decoder, cur).
Proof.
  intros H. destruct cur as [|b cur]; [reflexivity|].
  cbn [decode_fill_working_bits]. unfold MAX_PATTERN_BITS.
  replace (dec_num_bits decoder <? 32) with false by (symmetry; apply Z.ltb_ge; exact H).
  reflexivity.
Qed.

Lemma decode_fill_fixed (decoder : aws_huffman_decoder) (cur : aws_byte_cursor) :
  decode_fill_working_bits decoder cur = (decoder, cur) ->
  cur = [] \/ 32 <= dec_num_bits decoder.
Proof.
  intros E. destruct cur as [|b cur]; [left; reflexivity|]. right.
  cbn [decode_fill_working_bits] in E. unfold MAX_PATTERN_BITS in E.
  destruct (dec_num_bits decoder <? 32) eqn:Elt; [|apply Z.ltb_ge in Elt; exact Elt].
  apply decode_fill_cursor_suffix in E. destruct E as (_ & taken & E).
  apply (f_equal (@length Z)) in E. rewrite length_app in E. cbn [length] in E. lia.
Qed.

(** X11: [decode_fill_working_bits] reads the cursor in order, byte by
    byte, placing each byte right below the bits already buffered; it stops
    as soon as 32 bits are buffered or the cursor is empty, so it never
    takes more than 4 bytes, never holds more than 39 bits, takes nothing
    when 32 bits are buffered already, and running it again changes
    nothing. *)
Theorem decode_fill_working_bits_tops_up (decoder : aws_huffman_decoder)
    (abits : list bool) (cur : aws_byte_cursor) :
  dec_rel decoder abits -> dec_num_bits decoder <= 39 ->
  exists decoder' cur' taken,
    decode_fill_working_bits decoder cur = (decoder', cur') /\
    cur = taken ++ cur' /\
    dec_rel decoder' (abits ++ bytes_bits taken) /\
    dec_num_bits decoder' = dec_num_bits decoder + 8 * Z.of_nat (length taken) /\
    (32 <= dec_num_bits decoder' \/ cur' = []) /\
    dec_num_bits decoder' <= 39 /\
    (length taken <= 4)%nat /\
    (32 <= dec_num_bits decoder -> taken = []) /\
    decode_fill_working_bits decoder' cur' = (decoder', cur').
Proof.
  intros Hrel Hle.
  destruct (decode_fill_working_bits_spec cur decoder abits Hrel Hle)
    as (d1 & c1 & taken & Efill & Ecur & Hrel1 & _ & Hle1 & _ & Hfull).
  exists d1, c1, taken.
  assert (dec_num_bits d1 = dec_num_bits decoder + 8 * Z.of_nat (length taken)) as Enb.
  { destruct Hrel as (_ & Hlen & _). destruct Hrel1 as (_ & Hlen1 & _).
    rewrite blen_app, blen_bytes_bits in Hlen1. lia. }
  destruct Hrel as (Hnb & _).
  split; [exact Efill|]. split; [exact Ecur|]. split; [exact Hrel1|].
  split; [exact Enb|]. split; [exact Hfull|]. split; [exact Hle1|].
  split; [lia|]. split.
  - intros H32. rewrite (decode_fill_full decoder cur H32) in Efill.
    injection Efill as <- <-.
    destruct taken as [|b taken]; [reflexivity|]. cbn [length] in Enb. lia.
  - apply (decode_fill_working_bits_idem cur decoder). exact Efill.
Qed.

Lemma decode_fill_working_bits_tops_up_witness :
  exists decoder' cur' taken,
    decode_fill_working_bits (aws_huffman_decoder_init abc_coder) [47; 1; 2; 3; 4; 5]
    = (decoder', cur') /\
    [47; 1; 2; 3; 4; 5] = taken ++ cur' /\ (length taken <= 4)%nat.
Proof.
  destruct (decode_fill_working_bits_tops_up (aws_huffman_decoder_init abc_coder) []
              [47; 1; 2; 3; 4; 5] (dec_rel_init abc_coder) ltac:(cbn; lia))
    as (d' & c' & taken & E & Ecur & _ & _ & _ & _ & Hlen & _).
  exists d', c', taken. auto.
Defined.

(** ** Every call returns *)

Lemma decode_loop_returns (fuel : nat) :
  forall (decoder : aws_huffman_decoder) (cur : aws_byte_cursor) (out : aws_byte_buf)
         (bits_left : Z),
    0 <= bits_left < 2 ^ 64 -> (Z.to_nat bits_left < fuel)%nat ->
    exists res decoder' cur' out' syms taken,
      decode_loop fuel decoder cur out bits_left = Some (res, decoder', cur', out') /\
      dec_coder decoder' = dec_coder decoder /\
      cur = taken ++ cur' /\
      buffer out' = buffer out ++ syms /\ capacity out' = capacity out /\
      Forall is_u8 syms /\
      (buf_ok out -> buf_ok out').
Proof.
  induction fuel as [|fuel IH]; intros decoder cur out bl Hbl Hfuel; [lia|].
  rewrite decode_loop_unfold.
  destruct (decode_fill_working_bits decoder cur) as [d1 c1] eqn:Efill.
  destruct (decode_fill_cursor_suffix cur decoder d1 c1 Efill) as (Hc1 & taken & Ecur).
  pose proof (coder_decode_range (dec_coder d1) (decode_window d1)) as (Rn & _).
  destruct (coder_decode (dec_coder d1) (decode_window d1)) as [n s]. cbn [fst] in Rn.
  assert (forall res : aws_result, exists res' decoder' cur' out' syms taken',
            Some (res, d1, c1, out) = Some (res', decoder', (cur' : aws_byte_cursor), out') /\
            dec_coder decoder' = dec_coder decoder /\
            cur = taken' ++ cur' /\
            buffer out' = buffer out ++ syms /\ capacity out' = capacity out /\
            Forall is_u8 syms /\ (buf_ok out -> buf_ok out')) as Hstop.
  { intros res. exists res, d1, c1, out, [], taken. rewrite app_nil_r.
    repeat split; auto. }
  destruct (n =? 0) eqn:Ez.
  { destruct (bl <? MAX_PATTERN_BITS); apply Hstop. }
  apply Z.eqb_neq in Ez.
  destruct (n >? bl) eqn:Egt; [apply Hstop|].
  rewrite Z.gtb_ltb in Egt. apply Z.ltb_ge in Egt.
  destruct (buf_len out =? capacity out)%nat eqn:Efull; [apply Hstop|].
  apply Nat.eqb_neq in Efull.
  rewrite (usize_small (bl - n)) by lia.
  set (d2 := mk_decoder (dec_coder d1) (u64 (Z.shiftl (working_bits d1) n))
                        (u8 (dec_num_bits d1 - n))).
  set (out1 := aws_byte_buf_write_u8 out s).
  assert (exists w, buffer out1 = buffer out ++ w /\ capacity out1 = capacity out /\
                    Forall is_u8 w /\ (buf_ok out -> buf_ok out1)) as (w & Hw & Hcap1 & Hu8 & Hok1).
  { unfold out1, aws_byte_buf_write_u8.
    destruct (buf_len out <? capacity out)%nat eqn:Elt.
    - apply Nat.ltb_lt in Elt. exists [u8 s]. cbn [buffer capacity].
      repeat split; auto.
      + repeat constructor; apply u8_range.
      + intros _. unfold buf_ok, buf_len in *. cbn [buffer capacity].
        rewrite length_app. cbn [length]. lia.
    - exists []. rewrite app_nil_r. repeat split; auto. }
  cbv zeta. destruct (bl - n =? 0) eqn:Elast.
  { exists AWS_OP_SUCCESS, d2, c1, out1, w, taken.
    split; [reflexivity|]. split; [exact Hc1|]. auto 10. }
  apply Z.eqb_neq in Elast.
  destruct (IH d2 c1 out1 (bl - n) ltac:(lia) ltac:(lia))
    as (res & d' & c' & out' & syms & taken' & Erun & Hc' & Ecur' & Hbuf' & Hcap' & Hu8' & Hok').
  exists res, d', c', out', (w ++ syms), (taken ++ taken').
  rewrite Erun. repeat split; auto.
  - rewrite Hc'. exact Hc1.
  - rewrite Ecur, Ecur', app_assoc. reflexivity.
  - rewrite Hbuf', Hw, app_assoc. reflexivity.
  - congruence.
  - apply Forall_app; split; assumption.
Qed.

(** X12: every call of [aws_huffman_decode] returns, whatever the coder
    and the decoder state: an iteration of the [while (1)] loop that does
    not return takes at least one bit off [bits_left], so the loop is left
    after at most [bits_left + 1] iterations.  The call keeps the coder,
    only takes bytes from the front of the cursor, only appends bytes to
    the output buffer, keeps its capacity, and never fills it beyond the
    capacity. *)
Theorem aws_huffman_decode_returns (decoder : aws_huffman_decoder)
    (cur : aws_byte_cursor) (out : aws_byte_buf) :
  exists res decoder' cur' out' syms taken,
    aws_huffman_decode decoder cur out = Some (res, decoder', cur', out') /\
    dec_coder decoder' = dec_coder decoder /\
    cur = taken ++ cur' /\
    buffer out' = buffer out ++ syms /\ capacity out' = capacity out /\
    Forall is_u8 syms /\
    (buf_ok out -> buf_ok out').
Proof.
  unfold aws_huffman_decode.
  destruct (buf_len out =? capacity out)%nat.
  { exists AWS_ERROR_SHORT_BUFFER, decoder, cur, out, [], []. rewrite app_nil_r.
    repeat split; auto. }
  set (bl := usize (dec_num_bits decoder + Z.of_nat (length cur) * 8)).
  assert (0 <= bl < 2 ^ 64) as Hbl by (apply Z.mod_pos_bound; reflexivity).
  apply decode_loop_returns; [exact Hbl | lia].
Qed.

(** ** What a call leaves pending *)

(** The stream decoder's account of the bits: the pending bits are what is
    left of the stream after the bits read ([used]), every symbol has taken
    at least one bit, and the result tells what stands at the head of what
    is left. *)
Lemma decode_stream_account (coder : aws_huffman_symbol_coder) :
  decode_bounded coder ->
  forall (fuel : nat) (bits : list bool) (bits_left : Z) (room : nat) res syms rem,
    0 <= bits_left <= blen bits -> (Z.to_nat bits_left < fuel)%nat ->
    decode_stream fuel coder bits bits_left room = (res, syms, rem) ->
    exists used,
      0 <= used <= bits_left /\ rem = skipn (Z.to_nat used) bits /\
      Z.of_nat (length syms) <= used /\ Forall is_u8 syms /\
      match res with
      | AWS_OP_SUCCESS => bits_left - used < 32
      | AWS_ERROR_COMPRESSION_UNKNOWN_SYMBOL =>
          32 <= bits_left - used /\ fst (coder_decode coder (stream_window rem)) = 0
      | AWS_ERROR_SHORT_BUFFER =>
          length syms = room /\
          1 <= fst (coder_decode coder (stream_window rem)) <= bits_left - used
      end.
Proof.
  intros Hbound.
  induction fuel as [|fuel IH]; intros bits bl room res syms rem Hbl Hfuel E; [lia|].
  rewrite decode_stream_unfold in E.
  pose proof (coder_decode_range coder (stream_window bits)) as (Rn & Rs).
  pose proof (Hbound (stream_window bits) (stream_window_range bits)) as Hn32.
  destruct (coder_decode coder (stream_window bits)) as [n s] eqn:Edec.
  cbn [fst snd] in Rn, Rs, Hn32.
  assert (forall r, (r, @nil Z, bits) = (res, syms, rem) ->
            match r with
            | AWS_OP_SUCCESS => bl < 32
            | AWS_ERROR_COMPRESSION_UNKNOWN_SYMBOL => 32 <= bl /\ n = 0
            | AWS_ERROR_SHORT_BUFFER => room = 0%nat /\ 1 <= n <= bl
            end ->
            exists used,
              0 <= used <= bl /\ rem = skipn (Z.to_nat used) bits /\
              Z.of_nat (length syms) <= used /\ Forall is_u8 syms /\
              match res with
              | AWS_OP_SUCCESS => bl - used < 32
              | AWS_ERROR_COMPRESSION_UNKNOWN_SYMBOL =>
                  32 <= bl - used /\ fst (coder_decode coder (stream_window rem)) = 0
              | AWS_ERROR_SHORT_BUFFER =>
                  length syms = room /\
                  1 <= fst (coder_decode coder (stream_window rem)) <= bl - used
              end) as Hstop.
  { intros r Er Hr. injection Er as <- <- <-. exists 0.
    split; [lia|]. split; [reflexivity|]. split; [cbn; lia|]. split; [constructor|].
    rewrite Z.sub_0_r, Edec. cbn [fst length].
    destruct r; [exact Hr | destruct Hr; split; [congruence | assumption] | exact Hr]. }
  destruct (n =? 0) eqn:Ez.
  { apply Z.eqb_eq in Ez.
    destruct (bl <? 32) eqn:Elt.
    - apply Z.ltb_lt in Elt. apply (Hstop _ E). exact Elt.
    - apply Z.ltb_ge in Elt. apply (Hstop _ E). split; assumption. }
  apply Z.eqb_neq in Ez.
  destruct (n >? bl) eqn:Egt.
  { rewrite Z.gtb_ltb in Egt. apply Z.ltb_lt in Egt. apply (Hstop _ E). lia. }
  rewrite Z.gtb_ltb in Egt. apply Z.ltb_ge in Egt.
  destruct room as [|room].
  { apply (Hstop _ E). split; [reflexivity | lia]. }
  cbv zeta in E.
  destruct (bl - n =? 0) eqn:Elast.
  { apply Z.eqb_eq in Elast. injection E as <- <- <-. exists n.
    split; [lia|]. split; [reflexivity|]. split; [cbn; lia|].
    split; [constructor; [exact Rs | constructor] | lia]. }
  apply Z.eqb_neq in Elast.
  destruct (decode_stream fuel coder (skipn (Z.to_nat n) bits) (bl - n) room)
    as [[r y] m] eqn:E1.
  injection E as <- <- <-.
  assert (blen (skipn (Z.to_nat n) bits) = blen bits - n) as Hrest
    by (unfold blen in *; rewrite length_skipn; lia).
  destruct (IH (skipn (Z.to_nat n) bits) (bl - n) room r y m ltac:(lia) ltac:(lia) E1)
    as (used & Hused & Hrem & Hsyms & Hu8 & Hres).
  exists (n + used).
  split; [lia|]. split.
  { rewrite Hrem, skipn_skipn. f_equal. lia. }
  split; [cbn [length]; lia|]. split; [constructor; [exact Rs | exact Hu8]|].
  replace (bl - (n + used)) with (bl - n - used) by lia.
  destruct r; [exact Hres | | exact Hres].
  destruct Hres as (Hlen & Hpend). split; [cbn [length]; lia | exact Hpend].
Qed.

Lemma decode_loop_failure_fixed (fuel : nat) :
  forall decoder cur out bits_left res decoder' cur' out',
    decode_loop fuel decoder cur out bits_left = Some (res, decoder', cur', out') ->
    res <> AWS_OP_SUCCESS ->
    decode_fill_working_bits decoder' cur' = (decoder', cur').
Proof.
  induction fuel as [|fuel IH]; intros decoder cur out bl res d' c' out' E Hres;
    [discriminate E|].
  rewrite decode_loop_unfold in E.
  destruct (decode_fill_working_bits decoder cur) as [d1 c1] eqn:Efill.
  apply decode_fill_working_bits_idem in Efill.
  destruct (coder_decode (dec_coder d1) (decode_window d1)) as [n s].
  destruct (n =? 0).
  { destruct (bl <? MAX_PATTERN_BITS); injection E as <- <- <- <-; [congruence | exact Efill]. }
  destruct (n >? bl); [injection E as <- <- <- <-; congruence|].
  destruct (buf_len out =? capacity out)%nat; [injection E as <- <- <- <-; exact Efill|].
  cbv zeta in E.
  destruct (usize (bl - n) =? 0); [injection E as <- <- <- <-; congruence|].
  apply (IH _ _ _ _ _ _ _ _ E Hres).
Qed.

(** A call of [aws_huffman_decode] on a decoder that holds the bits
    [abits]: the symbols appended, the bits left pending, and what the
    result says about them. *)
Lemma aws_huffman_decode_account (decoder : aws_huffman_decoder) (cur : aws_byte_cursor)
    (out : aws_byte_buf) (abits : list bool) :
  dec_rel decoder abits -> dec_num_bits decoder <= 39 ->
  decode_bounded (dec_coder decoder) -> buf_ok out -> has_room out ->
  blen (abits ++ bytes_bits cur) < 2 ^ 64 ->
  exists res decoder' cur' abits' syms,
    aws_huffman_decode decoder cur out
    = Some (res, decoder', cur', mk_buf (buffer out ++ syms) (capacity out)) /\
    dec_coder decoder' = dec_coder decoder /\
    dec_rel decoder' abits' /\ dec_num_bits decoder' <= 39 /\
    blen (abits' ++ bytes_bits cur') + Z.of_nat (length syms)
    <= blen (abits ++ bytes_bits cur) /\
    (length syms <= capacity out - buf_len out)%nat /\
    match res with
    | AWS_OP_SUCCESS => cur' = [] /\ dec_num_bits decoder' < 32
    | AWS_ERROR_COMPRESSION_UNKNOWN_SYMBOL =>
        32 <= dec_num_bits decoder' /\
        fst (coder_decode (dec_coder decoder') (decode_window decoder')) = 0
    | AWS_ERROR_SHORT_BUFFER =>
        length syms = (capacity out - buf_len out)%nat /\
        Z.of_nat (length syms) < blen (abits ++ bytes_bits cur)
    end.
Proof.
  intros Hrel Hle Hbound Hbuf Hroom Hsize.
  pose proof (aws_huffman_decode_spec decoder cur out abits Hrel Hle Hbound Hbuf Hroom Hsize)
    as Hspec.
  set (bits := abits ++ bytes_bits cur) in *.
  destruct (decode_bits (dec_coder decoder) bits (capacity out - buf_len out))
    as [[res syms] rem] eqn:Ebits.
  destruct Hspec as (d' & c' & abits' & Erun & Hc' & Hrel' & Hle' & Hrem & Hdrain).
  unfold decode_bits in Ebits.
  pose proof (decode_bits_syms_len _ _ _ _ _ _ _ _ Ebits) as Hroomlen.
  destruct (decode_stream_account (dec_coder decoder) Hbound (S (length bits)) bits
              (blen bits) (capacity out - buf_len out) res syms rem
              ltac:(unfold blen; lia) ltac:(unfold blen; lia) Ebits)
    as (used & Hused & Hskip & Hsyms & _ & Hres).
  assert (blen rem = blen bits - used) as Hremlen
    by (rewrite Hskip; unfold blen in *; rewrite length_skipn; lia).
  exists res, d', c', abits', syms.
  split; [exact Erun|]. split; [exact Hc'|]. split; [exact Hrel'|]. split; [exact Hle'|].
  split; [rewrite Hrem; lia|]. split; [exact Hroomlen|].
  pose proof Hrel' as (Hnb' & Hlen' & _).
  destruct res.
  - specialize (Hdrain I eq_refl). subst c'. split; [reflexivity|].
    rewrite <- Hrem in Hremlen. cbn [bytes_bits flat_map] in Hremlen.
    rewrite app_nil_r in Hremlen. lia.
  - destruct Hres as (Hfull & Hpend). split; [exact Hfull | lia].
  - destruct Hres as (H32 & Hzero).
    unfold aws_huffman_decode in Erun.
    replace (buf_len out =? capacity out)%nat with false in Erun
      by (symmetry; apply Nat.eqb_neq; unfold has_room in Hroom; lia).
    pose proof (decode_loop_failure_fixed _ _ _ _ _ _ _ _ _ Erun ltac:(discriminate)) as Hfix.
    assert (32 <= dec_num_bits d') as Hnb32.
    { destruct (decode_fill_fixed d' c' Hfix) as [-> | H]; [|exact H].
      rewrite <- Hrem in Hremlen. cbn [bytes_bits flat_map] in Hremlen.
      rewrite app_nil_r in Hremlen. lia. }
    split; [exact Hnb32|].
    rewrite (decode_window_spec d' abits' Hrel'), Hc'.
    rewrite <- (stream_window_app abits' (bytes_bits c')) by lia.
    rewrite Hrem. exact Hzero.
Qed.

Lemma decoder_reachable_rel (coder : aws_huffman_symbol_coder) (decoder : aws_huffman_decoder)
    (cur : aws_byte_cursor) :
  decode_bounded coder -> decoder_reachable coder decoder ->
  dec_num_bits decoder + 8 * Z.of_nat (length cur) < 2 ^ 64 ->
  decode_bounded (dec_coder decoder) /\
  exists abits, dec_rel decoder abits /\ dec_num_bits decoder <= 39 /\
                blen (abits ++ bytes_bits cur) = dec_num_bits decoder + 8 * Z.of_nat (length cur).
Proof.
  intros Hbound Hreach Hsize.
  destruct (decoder_reachable_inv coder decoder Hbound Hreach) as (Hc & abits & Hrel & Hle).
  split; [rewrite Hc; exact Hbound|]. exists abits.
  split; [exact Hrel|]. split; [exact Hle|].
  destruct Hrel as (_ & Hlen & _). rewrite blen_app, blen_bytes_bits. lia.
Qed.

Lemma decode_full_output (decoder : aws_huffman_decoder) (cur : aws_byte_cursor)
    (out : aws_byte_buf) :
  buf_ok out -> ~ has_room out ->
  aws_huffman_decode decoder cur out = Some (AWS_ERROR_SHORT_BUFFER, decoder, cur, out).
Proof.
  intros Hbuf Hfull. unfold aws_huffman_decode.
  replace (buf_len out =? capacity out)%nat with true
    by (symmetry; apply Nat.eqb_eq; unfold buf_ok, has_room in *; lia).
  reflexivity.
Qed.

Lemma ab_decode_bounded : decode_bounded ab_coder.
Proof.
  intros w Hw. unfold coder_decode, ab_coder, ab_decode; cbn [decode].
  destruct (Z.testbit w 31); [destruct (Z.testbit w 30)|]; vm_compute; discriminate.
Defined.

(** X13: a call of [aws_huffman_decode] that returns success has read the
    whole cursor, and fewer than 32 bits are left buffered in the decoder:
    after a success the caller has no byte to hand over again. *)
Theorem decode_success_drains_cursor (coder : aws_huffman_symbol_coder)
    (decoder : aws_huffman_decoder) (cur : aws_byte_cursor) (out : aws_byte_buf)
    (decoder' : aws_huffman_decoder) (cur' : aws_byte_cursor) (out' : aws_byte_buf) :
  decode_bounded coder -> decoder_reachable coder decoder -> buf_ok out ->
  dec_num_bits decoder + 8 * Z.of_nat (length cur) < 2 ^ 64 ->
  aws_huffman_decode decoder cur out = Some (AWS_OP_SUCCESS, decoder', cur', out') ->
  cur' = [] /\ 0 <= dec_num_bits decoder' < 32.
Proof.
  intros Hbound Hreach Hbuf Hsize Erun.
  destruct (decoder_reachable_rel coder decoder cur Hbound Hreach Hsize)
    as (Hbound' & abits & Hrel & Hle & Hlen).
  assert (has_room out) as Hroom.
  { unfold has_room. destruct (Nat.lt_ge_cases (buf_len out) (capacity out)) as [H | H];
      [exact H|].
    rewrite decode_full_output in Erun by (unfold has_room; auto with zarith).
    discriminate Erun. }
  destruct (aws_huffman_decode_account decoder cur out abits Hrel Hle Hbound' Hbuf Hroom
              ltac:(lia))
    as (res & d1 & c1 & abits1 & syms & Erun1 & _ & Hrel1 & _ & _ & _ & Hres).
  rewrite Erun in Erun1. injection Erun1 as <- <- <- _.
  destruct Hres as (-> & Hlt). destruct Hrel1 as (Hnb1 & _).
  split; [reflexivity | lia].
Qed.

Lemma decode_success_drains_cursor_witness :
  exists decoder',
    aws_huffman_decode (aws_huffman_decoder_init abc_coder) [47; 47] (mk_buf [] 16)
    = Some (AWS_OP_SUCCESS, decoder', [], mk_buf [65; 65; 66; 67; 67; 65; 65; 66; 67; 67] 16)
    /\ 0 <= dec_num_bits decoder' < 32.
Proof.
  eexists. split; [vm_compute; reflexivity|].
  refine (proj2 (decode_success_drains_cursor abc_coder (aws_huffman_decoder_init abc_coder)
                   [47; 47] (mk_buf [] 16) _ _ _ abc_decode_bounded
                   (reach_init abc_coder) _ _ _)).
  - unfold buf_ok, buf_len; cbn. lia.
  - cbn. lia.
  - vm_compute. reflexivity.
Defined.

(** X14: an unknown-symbol failure of [aws_huffman_decode] is permanent:
    the decoder returned holds at least 32 bits that start no code, and
    every later call on it, whatever the cursor and the output buffer (with
    a free byte), fails with unknown-symbol again without reading a byte or
    writing a symbol.  [aws_huffman_decoder_reset] is the way out: it
    gives back the decoder [aws_huffman_decoder_init] makes. *)
Theorem decode_unknown_symbol_is_permanent (coder : aws_huffman_symbol_coder)
    (decoder : aws_huffman_decoder) (cur : aws_byte_cursor) (out : aws_byte_buf)
    (decoder' : aws_huffman_decoder) (cur' : aws_byte_cursor) (out' : aws_byte_buf) :
  decode_bounded coder -> decoder_reachable coder decoder -> buf_ok out ->
  dec_num_bits decoder + 8 * Z.of_nat (length cur) < 2 ^ 64 ->
  aws_huffman_decode decoder cur out
  = Some (AWS_ERROR_COMPRESSION_UNKNOWN_SYMBOL, decoder', cur', out') ->
  32 <= dec_num_bits decoder' <= 39 /\
  (forall cur2 out2,
     has_room out2 -> 39 + 8 * Z.of_nat (length cur2) < 2 ^ 64 ->
     aws_huffman_decode decoder' cur2 out2
     = Some (AWS_ERROR_COMPRESSION_UNKNOWN_SYMBOL, decoder', cur2, out2)) /\
  aws_huffman_decoder_reset decoder' = aws_huffman_decoder_init coder.
Proof.
  intros Hbound Hreach Hbuf Hsize Erun.
  destruct (decoder_reachable_rel coder decoder cur Hbound Hreach Hsize)
    as (Hbound' & abits & Hrel & Hle & Hlen).
  assert (has_room out) as Hroom.
  { unfold has_room. destruct (Nat.lt_ge_cases (buf_len out) (capacity out)) as [H | H];
      [exact H|].
    rewrite decode_full_output in Erun by (unfold has_room; auto with zarith).
    discriminate Erun. }
  destruct (aws_huffman_decode_account decoder cur out abits Hrel Hle Hbound' Hbuf Hroom
              ltac:(lia))
    as (res & d1 & c1 & abits1 & syms & Erun1 & Hc1 & Hrel1 & Hle1 & _ & _ & Hres).
  rewrite Erun in Erun1. injection Erun1 as <- <- <- _.
  destruct Hres as (H32 & Hzero).
  split; [lia|]. split.
  2:{ unfold aws_huffman_decoder_reset. rewrite Hc1.
      destruct (decoder_reachable_inv coder decoder Hbound Hreach) as (-> & _).
      reflexivity. }
  intros cur2 out2 Hroom2 Hsize2. unfold aws_huffman_decode.
  replace (buf_len out2 =? capacity out2)%nat with false
    by (symmetry; apply Nat.eqb_neq; unfold has_room in Hroom2; lia).
  rewrite usize_small by lia.
  rewrite decode_loop_unfold, (decode_fill_full decoder' cur2 H32).
  destruct (coder_decode (dec_coder decoder') (decode_window decoder')) as [n s].
  cbn [fst] in Hzero. subst n. cbn [Z.eqb]. unfold MAX_PATTERN_BITS.
  replace (dec_num_bits decoder' + Z.of_nat (length cur2) * 8 <? 32) with false
    by (symmetry; apply Z.ltb_ge; lia).
  reflexivity.
Qed.

Lemma decode_unknown_symbol_is_permanent_witness :
  exists decoder',
    aws_huffman_decode (aws_huffman_decoder_init ab_coder) [192; 0; 0; 0] (mk_buf [] 4)
    = Some (AWS_ERROR_COMPRESSION_UNKNOWN_SYMBOL, decoder', [], mk_buf [] 4) /\
    aws_huffman_decode decoder' [0; 0] (mk_buf [] 9)
    = Some (AWS_ERROR_COMPRESSION_UNKNOWN_SYMBOL, decoder', [0; 0], mk_buf [] 9).
Proof.
  eexists. split; [vm_compute; reflexivity|].
  refine (proj1 (proj2 (decode_unknown_symbol_is_permanent ab_coder
                   (aws_huffman_decoder_init ab_coder) [192; 0; 0; 0] (mk_buf [] 4)
                   _ [] (mk_buf [] 4) _ (reach_init ab_coder) _ _ _)) [0; 0] (mk_buf [] 9) _ _).
  - exact ab_decode_bounded.
  - unfold buf_ok, buf_len; cbn. lia.
  - cbn. lia.
  - vm_compute. reflexivity.
  - unfold has_room, buf_len; cbn. lia.
  - cbn. lia.
Defined.

(** X15: [aws_huffman_decode] returns short-buffer only with the output
    buffer at capacity, and a symbol takes at least one bit: the symbols
    appended by a call never outnumber the bits it was given, and a call
    into a buffer with a free byte for every pending bit (the bits buffered
    in the decoder and 8 for each byte of the cursor) never returns
    short-buffer. *)
Theorem decode_short_buffer_only_when_full (coder : aws_huffman_symbol_coder)
    (decoder : aws_huffman_decoder) (cur : aws_byte_cursor) (out : aws_byte_buf)
    (res : aws_result) (decoder' : aws_huffman_decoder) (cur' : aws_byte_cursor)
    (out' : aws_byte_buf) :
  decode_bounded coder -> decoder_reachable coder decoder -> buf_ok out ->
  dec_num_bits decoder + 8 * Z.of_nat (length cur) < 2 ^ 64 ->
  aws_huffman_decode decoder cur out = Some (res, decoder', cur', out') ->
  Z.of_nat (buf_len out') - Z.of_nat (buf_len out)
  <= dec_num_bits decoder + 8 * Z.of_nat (length cur) /\
  (res = AWS_ERROR_SHORT_BUFFER -> buf_len out' = capacity out') /\
  (has_room out ->
   dec_num_bits decoder + 8 * Z.of_nat (length cur) <= free_bytes out ->
   res <> AWS_ERROR_SHORT_BUFFER).
Proof.
  intros Hbound Hreach Hbuf Hsize Erun.
  destruct (decoder_reachable_rel coder decoder cur Hbound Hreach Hsize)
    as (Hbound' & abits & Hrel & Hle & Hlen).
  destruct (Nat.lt_ge_cases (buf_len out) (capacity out)) as [Hroom | Hfull].
  2:{ rewrite decode_full_output in Erun by (unfold has_room; auto with zarith).
      injection Erun as <- <- <- <-. destruct Hrel as (Hnb & _).
      split; [lia|]. split; [intros _; unfold buf_ok in Hbuf; lia|].
      intros Hroom. unfold has_room in Hroom. lia. }
  destruct (aws_huffman_decode_account decoder cur out abits Hrel Hle Hbound' Hbuf Hroom
              ltac:(lia))
    as (res1 & d1 & c1 & abits1 & syms & Erun1 & _ & Hrel1 & _ & Hacc & Hfit & Hres).
  rewrite Erun in Erun1. injection Erun1 as <- <- <- ->.
  unfold free_bytes, buf_ok, has_room, buf_len in *. cbn [buffer capacity]. rewrite length_app.
  pose proof (blen_nonneg (abits1 ++ bytes_bits cur')) as Hpos.
  split; [lia|]. split.
  - intros ->. destruct Hres as (Hlen' & _). lia.
  - intros _ Hfree ->. destruct Hres as (Hlen' & Hlt). lia.
Qed.

Lemma decode_short_buffer_only_when_full_witness :
  exists res decoder' cur' out',
    aws_huffman_decode (aws_huffman_decoder_init abc_coder) [47] (mk_buf [] 8)
    = Some (res, decoder', cur', out') /\
    res <> AWS_ERROR_SHORT_BUFFER.
Proof.
  eexists _, _, _, _. split; [vm_compute; reflexivity|].
  refine (proj2 (proj2 (decode_short_buffer_only_when_full abc_coder
                   (aws_huffman_decoder_init abc_coder) [47] (mk_buf [] 8) _ _ _ _
                   abc_decode_bounded (reach_init abc_coder) _ _ _)) _ _).
  - unfold buf_ok, buf_len; cbn. lia.
  - cbn. lia.
  - vm_compute. reflexivity.
  - unfold has_room, buf_len; cbn. lia.
  - vm_compute. discriminate.
Defined.

(** X16: with nothing buffered in the decoder and an empty cursor a call
    of [aws_huffman_decode] changes nothing, whatever the coder: it returns
    short-buffer when the output buffer is at capacity (the check on entry
    comes first) and success otherwise. *)
Theorem decode_nothing_pending (decoder : aws_huffman_decoder) (out : aws_byte_buf) :
  dec_num_bits decoder = 0 ->
  aws_huffman_decode decoder [] out
  = Some (if (buf_len out =? capacity out)%nat then AWS_ERROR_SHORT_BUFFER
          else AWS_OP_SUCCESS, decoder, [], out).
Proof.
  intros Hz. unfold aws_huffman_decode.
  destruct (buf_len out =? capacity out)%nat eqn:Efull; [reflexivity|].
  rewrite Hz. cbn [length Z.of_nat Z.mul Z.add]. change (usize 0) with 0.
  change (Z.to_nat 0) with 0%nat.
  rewrite decode_loop_unfold. cbn [decode_fill_working_bits].
  pose proof (coder_decode_range (dec_coder decoder) (decode_window decoder)) as (Rn & _).
  destruct (coder_decode (dec_coder decoder) (decode_window decoder)) as [n s].
  cbn [fst] in Rn.
  destruct (n =? 0) eqn:Ez; [reflexivity|]. apply Z.eqb_neq in Ez.
  replace (n >? 0) with true by (symmetry; apply Z.gtb_lt; lia).
  reflexivity.
Qed.

Lemma decode_nothing_pending_witness :
  aws_huffman_decode (aws_huffman_decoder_init abc_coder) [] (mk_buf [] 1)
  = Some (AWS_OP_SUCCESS, aws_huffman_decoder_init abc_coder, [], mk_buf [] 1).
Proof. exact (decode_nothing_pending (aws_huffman_decoder_init abc_coder) (mk_buf [] 1) eq_refl). Defined.

(** X17: in every decoder state reachable from init or reset by calls of
    [aws_huffman_decode], the accumulator holds its [num_bits] valid bits
    at the top of the 64-bit word and zeros below them, as the comment in
    the loop says of the bottom of [working_bits]; the window handed to the
    coder is therefore the valid bits followed by zeros. *)
Theorem decoder_accumulator_zero_below (coder : aws_huffman_symbol_coder)
    (decoder : aws_huffman_decoder) :
  decode_bounded coder -> decoder_reachable coder decoder ->
  0 <= working_bits decoder < 2 ^ 64 /\
  working_bits decoder mod 2 ^ (64 - dec_num_bits decoder) = 0 /\
  0 <= decode_window decoder < 2 ^ 32 /\
  (dec_num_bits decoder < 32 ->
   decode_window decoder mod 2 ^ (32 - dec_num_bits decoder) = 0).
Proof.
  intros Hbound Hreach.
  destruct (decoder_reachable_inv coder decoder Hbound Hreach) as (_ & abits & Hrel & Hle).
  pose proof (decode_window_spec decoder abits Hrel) as Hwin.
  destruct Hrel as (Hnb & Hlen & Hw).
  pose proof (bval_range abits) as Hv. rewrite Hlen in Hv.
  assert (0 < 2 ^ (64 - dec_num_bits decoder)) as Hpos by (apply pow2_pos; lia).
  split.
  { rewrite Hw. rewrite (pow2_split 64 (64 - dec_num_bits decoder)) by lia.
    replace (64 - (64 - dec_num_bits decoder)) with (dec_num_bits decoder) by lia.
    nia. }
  split; [rewrite Hw; apply Z.mod_mul; lia|].
  split; [rewrite Hwin; apply stream_window_range|].
  intros Hlt. unfold decode_window, MAX_PATTERN_BITS.
  rewrite Hw, Z.shiftr_div_pow2 by lia.
  replace (2 ^ (64 - dec_num_bits decoder))
    with (2 ^ (32 - dec_num_bits decoder) * 2 ^ (64 - 32))
    by (rewrite <- Z.pow_add_r by lia; f_equal; lia).
  rewrite Z.mul_assoc, Z.div_mul by (apply Z.pow_nonzero; lia).
  assert (0 < 2 ^ (32 - dec_num_bits decoder)) as Hpos' by (apply pow2_pos; lia).
  unfold u32. rewrite (Z.mod_small _ (2 ^ 32)).
  - apply Z.mod_mul. lia.
  - rewrite (pow2_split 32 (32 - dec_num_bits decoder)) by lia.
    replace (32 - (32 - dec_num_bits decoder)) with (dec_num_bits decoder) by lia.
    nia.
Qed.

Lemma decoder_accumulator_zero_below_witness :
  exists decoder',
    aws_huffman_decode (aws_huffman_decoder_init ab_coder) [47; 192; 5] (mk_buf [] 16)
    = Some (AWS_OP_SUCCESS, decoder', [], mk_buf [65; 65; 66] 16) /\
    working_bits decoder' mod 2 ^ (64 - dec_num_bits decoder') = 0.
Proof.
  eexists. split; [vm_compute; reflexivity|].
  refine (proj1 (proj2 (decoder_accumulator_zero_below ab_coder _ _ _))).
  - exact ab_decode_bounded.
  - apply (reach_decode ab_coder (aws_huffman_decoder_init ab_coder) [47; 192; 5]
             (mk_buf [] 16) AWS_OP_SUCCESS _ [] (mk_buf [65; 65; 66] 16)).
    + apply reach_init.
    + unfold buf_ok, buf_len; cbn. lia.
    + vm_compute. reflexivity.
Defined.

(** * The iterations of a call of the decoder *)

Lemma decode_loop_fuel (f1 : nat) :
  forall (f2 : nat) decoder cur out bits_left,
    0 <= bits_left < 2 ^ 64 ->
    (Z.to_nat bits_left < f1)%nat -> (Z.to_nat bits_left < f2)%nat ->
    decode_loop f1 decoder cur out bits_left = decode_loop f2 decoder cur out bits_left.
Proof.
  induction f1 as [|f1 IH]; intros f2 d c o bl Hbl H1 H2; [lia|].
  destruct f2 as [|f2]; [lia|].
  rewrite !decode_loop_unfold.
  destruct (decode_fill_working_bits d c) as [d1 c1].
  pose proof (coder_decode_range (dec_coder d1) (decode_window d1)) as (Rn & _).
  destruct (coder_decode (dec_coder d1) (decode_window d1)) as [n s]. cbn [fst] in Rn.
  destruct (n =? 0) eqn:Ez; [reflexivity|]. apply Z.eqb_neq in Ez.
  destruct (n >? bl) eqn:Egt; [reflexivity|].
  rewrite Z.gtb_ltb in Egt. apply Z.ltb_ge in Egt.
  destruct (buf_len o =? capacity o)%nat; [reflexivity|].
  cbv zeta. rewrite (usize_small (bl - n)) by lia.
  destruct (bl - n =? 0); [reflexivity|].
  apply IH; lia.
Qed.

(** What holds at the head of every iteration of a call: [bits_left] is
    the number of bits that remain (the bits buffered in the decoder and 8
    for each unread byte of the cursor), the accumulator is well formed, the
    output buffer has only gained bytes, and the call returns what the loop
    returns from there. *)
Lemma decode_iteration_inv (decoder : aws_huffman_decoder) (abits : list bool)
    (cur : aws_byte_cursor) (out : aws_byte_buf) :
  dec_rel decoder abits -> dec_num_bits decoder <= 39 ->
  decode_bounded (dec_coder decoder) -> buf_ok out ->
  dec_num_bits decoder + 8 * Z.of_nat (length cur) < 2 ^ 64 ->
  forall d c o bits_left,
    decode_iteration decoder cur out d c o bits_left ->
    dec_coder d = dec_coder decoder /\
    (exists abits_i, dec_rel d abits_i) /\ dec_num_bits d <= 39 /\
    bits_left = dec_num_bits d + 8 * Z.of_nat (length c) /\
    bits_left < 2 ^ 64 /\
    buf_ok o /\ capacity o = capacity out /\
    (exists syms, buffer o = buffer out ++ syms) /\
    decode_loop (S (Z.to_nat bits_left)) d c o bits_left
    = aws_huffman_decode decoder cur out.
Proof.
  intros Hrel Hle Hbound Hbuf Hsize d c o bl Hiter.
  induction Hiter as [Hroom | d c o bl d1 c1 n s Hiter IH Efill Edec Hn0 Hnbl Hroom Hlast].
  - pose proof Hrel as (Hnb & _).
    assert (usize (dec_num_bits decoder + Z.of_nat (length cur) * 8)
            = dec_num_bits decoder + 8 * Z.of_nat (length cur)) as Ebl
      by (rewrite usize_small; lia).
    split; [reflexivity|]. split; [exists abits; exact Hrel|]. split; [exact Hle|].
    split; [exact Ebl|]. split; [lia|]. split; [exact Hbuf|]. split; [reflexivity|].
    split; [exists []; rewrite app_nil_r; reflexivity|].
    unfold aws_huffman_decode.
    replace (buf_len out =? capacity out)%nat with false
      by (symmetry; apply Nat.eqb_neq; exact Hroom).
    reflexivity.
  - destruct IH as (Hc & (abits_i & Hrel_i) & Hle_i & Ebl & Hsz & Hbuf_i & Hcap_i
                    & (syms & Hsyms) & Eloop).
    destruct (decode_fill_working_bits_spec c d abits_i Hrel_i Hle_i)
      as (d1' & c1' & taken & Efill' & Ecur & Hrel1 & Hc1 & Hle1 & _ & Hfull).
    rewrite Efill in Efill'. injection Efill' as <- <-.
    pose proof (coder_decode_range (dec_coder d1) (decode_window d1)) as (Rn & _).
    assert (fst (coder_decode (dec_coder d1) (decode_window d1)) <= 32) as Hn32.
    { rewrite Hc1, Hc. apply Hbound. unfold decode_window, u32.
      apply Z.mod_pos_bound. reflexivity. }
    rewrite Edec in Rn, Hn32. cbn [fst] in Rn, Hn32.
    pose proof Hrel_i as (Hnb_i & Hlen_i & _).
    pose proof Hrel1 as (Hnb1 & Hlen1 & _).
    rewrite blen_app, blen_bytes_bits in Hlen1.
    assert (bl = dec_num_bits d1 + 8 * Z.of_nat (length c1)) as Ebl1.
    { rewrite Ebl, Ecur, length_app. lia. }
    assert (n <= dec_num_bits d1) as Hnnb.
    { destruct Hfull as [H | ->]; [lia|]. cbn [length] in Ebl1. lia. }
    pose proof (decode_shift_spec d1 _ n Hrel1 ltac:(lia)) as Hrel2.
    rewrite (usize_small (bl - n)) in * by lia.
    set (d2 := mk_decoder (dec_coder d1) (u64 (Z.shiftl (working_bits d1) n))
                          (u8 (dec_num_bits d1 - n))) in *.
    assert (dec_num_bits d2 = dec_num_bits d1 - n) as Enb2.
    { unfold d2; rsimpl. apply u8_small. change (2 ^ 8) with 256. lia. }
    split; [unfold d2; rsimpl; congruence|].
    split; [eexists; exact Hrel2|]. split; [lia|]. split; [lia|]. split; [lia|].
    assert (buf_len o < capacity o)%nat as Hlt by (unfold buf_ok in Hbuf_i; lia).
    unfold aws_byte_buf_write_u8.
    replace (buf_len o <? capacity o)%nat with true
      by (symmetry; apply Nat.ltb_lt; exact Hlt).
    split; [unfold buf_ok, buf_len in *; cbn [buffer capacity]; rewrite length_app;
            cbn [length]; lia|].
    split; [exact Hcap_i|].
    split; [exists (syms ++ [u8 s]); cbn [buffer]; rewrite Hsyms, app_assoc; reflexivity|].
    rewrite <- Eloop. rewrite (decode_loop_unfold (Z.to_nat bl)), Efill, Edec.
    replace (n =? 0) with false by (symmetry; apply Z.eqb_neq; exact Hn0).
    replace (n >? bl) with false
      by (symmetry; rewrite Z.gtb_ltb; apply Z.ltb_ge; exact Hnbl).
    replace (buf_len o =? capacity o)%nat with false
      by (symmetry; apply Nat.eqb_neq; exact Hroom).
    cbv zeta. rewrite (usize_small (bl - n)) by lia.
    replace (bl - n =? 0) with false by (symmetry; apply Z.eqb_neq; exact Hlast).
    unfold aws_byte_buf_write_u8.
    replace (buf_len o <? capacity o)%nat with true
      by (symmetry; apply Nat.ltb_lt; exact Hlt).
    apply decode_loop_fuel; lia.
Qed.

(** An iteration of a call, after the top-up: the decoder that is looked
    at holds the bits the iteration started with and the bytes taken from
    the cursor, and [bits_left] counts its bits and the bytes still unread. *)
Lemma decode_iteration_topped_up (decoder : aws_huffman_decoder) (abits : list bool)
    (cur : aws_byte_cursor) (out : aws_byte_buf) d c o bits_left decoder1 cur1 :
  dec_rel decoder abits -> dec_num_bits decoder <= 39 ->
  decode_bounded (dec_coder decoder) -> buf_ok out ->
  dec_num_bits decoder + 8 * Z.of_nat (length cur) < 2 ^ 64 ->
  decode_iteration decoder cur out d c o bits_left ->
  decode_fill_working_bits d c = (decoder1, cur1) ->
  bits_left = dec_num_bits decoder1 + 8 * Z.of_nat (length cur1) /\
  bits_left = dec_num_bits d + 8 * Z.of_nat (length c) /\
  0 <= dec_num_bits decoder1 <= 39 /\
  (32 <= dec_num_bits decoder1 \/ cur1 = []) /\
  fst (coder_decode (dec_coder decoder1) (decode_window decoder1)) <= 32 /\
  (exists abits_i taken,
     dec_rel d abits_i /\ c = taken ++ cur1 /\
     dec_rel decoder1 (abits_i ++ bytes_bits taken)) /\
  decode_loop (S (Z.to_nat bits_left)) d c o bits_left
  = aws_huffman_decode decoder cur out.
Proof.
  intros Hrel Hle Hbound Hbuf Hsize Hiter Efill.
  destruct (decode_iteration_inv decoder abits cur out Hrel Hle Hbound Hbuf Hsize
              d c o bits_left Hiter)
    as (Hc & (abits_i & Hrel_i) & Hle_i & Ebl & _ & _ & _ & _ & Eloop).
  destruct (decode_fill_working_bits_spec c d abits_i Hrel_i Hle_i)
    as (d1' & c1' & taken & Efill' & Ecur & Hrel1 & Hc1 & Hle1 & _ & Hfull).
  rewrite Efill in Efill'. injection Efill' as <- <-.
  pose proof Hrel_i as (_ & Hlen_i & _).
  pose proof Hrel1 as (Hnb1 & Hlen1 & _).
  rewrite blen_app, blen_bytes_bits in Hlen1.
  split; [rewrite Ebl, Ecur, length_app; lia|]. split; [exact Ebl|].
  split; [lia|]. split; [exact Hfull|]. split.
  { rewrite Hc1, Hc. apply Hbound. unfold decode_window, u32.
    apply Z.mod_pos_bound. reflexivity. }
  split; [exists abits_i, taken; auto | exact Eloop].
Qed.

(** C6: at any iteration of the loop of a call of [aws_huffman_decode],
    [bits_left] is the number of bits that remain: the bits buffered in the
    decoder and 8 for each unread byte of the cursor.  When the coder
    reports 0 bits read on the window presented after the top-up, the call
    returns there, leaving the output buffer as the iteration found it:
    with success when fewer than 32 bits remain, and then the cursor is
    empty and the decoder returned holds every bit that was pending, for a
    later call with more input; with unknown-symbol otherwise. *)
Theorem decode_no_match (decoder : aws_huffman_decoder) (abits : list bool)
    (cur : aws_byte_cursor) (out : aws_byte_buf)
    (d : aws_huffman_decoder) (c : aws_byte_cursor) (o : aws_byte_buf) (bits_left : Z)
    (decoder1 : aws_huffman_decoder) (cur1 : aws_byte_cursor) (symbol : Z) :
  dec_rel decoder abits -> dec_num_bits decoder <= 39 ->
  decode_bounded (dec_coder decoder) -> buf_ok out ->
  dec_num_bits decoder + 8 * Z.of_nat (length cur) < 2 ^ 64 ->
  decode_iteration decoder cur out d c o bits_left ->
  decode_fill_working_bits d c = (decoder1, cur1) ->
  coder_decode (dec_coder decoder1) (decode_window decoder1) = (0, symbol) ->
  let bits_remaining := dec_num_bits decoder1 + 8 * Z.of_nat (length cur1) in
  bits_left = bits_remaining /\
  bits_left = dec_num_bits d + 8 * Z.of_nat (length c) /\
  aws_huffman_decode decoder cur out
  = Some (if bits_remaining <? 32 then AWS_OP_SUCCESS
          else AWS_ERROR_COMPRESSION_UNKNOWN_SYMBOL, decoder1, cur1, o) /\
  (exists abits_i taken,
     dec_rel d abits_i /\ c = taken ++ cur1 /\
     dec_rel decoder1 (abits_i ++ bytes_bits taken)) /\
  (bits_remaining < 32 -> cur1 = []).
Proof.
  intros Hrel Hle Hbound Hbuf Hsize Hiter Efill Edec bits_remaining.
  destruct (decode_iteration_topped_up decoder abits cur out d c o bits_left decoder1 cur1
              Hrel Hle Hbound Hbuf Hsize Hiter Efill)
    as (Ebl1 & Ebl & Hnb1 & Hfull & _ & Hheld & Eloop).
  fold bits_remaining in Ebl1.
  split; [exact Ebl1|]. split; [exact Ebl|]. split; [|split; [exact Hheld|]].
  - rewrite <- Eloop, decode_loop_unfold, Efill, Edec.
    cbn [Z.eqb]. unfold MAX_PATTERN_BITS. rewrite Ebl1.
    destruct (bits_remaining <? 32); reflexivity.
  - intros Hlt. destruct Hfull as [H | H]; [|exact H].
    unfold bits_remaining in Hlt. lia.
Qed.

Lemma decode_no_match_witness :
  aws_huffman_decode (aws_huffman_decoder_init ab_coder) [96] (mk_buf [] 4)
  = Some (AWS_OP_SUCCESS, mk_decoder ab_coder (192 * 2 ^ 56) 7, [], mk_buf [65] 4).
Proof.
  refine (proj1 (proj2 (proj2
    (decode_no_match (aws_huffman_decoder_init ab_coder) [] [96] (mk_buf [] 4)
       _ _ _ _ (mk_decoder ab_coder (192 * 2 ^ 56) 7) [] 0
       (dec_rel_init ab_coder) _ ab_decode_bounded _ _
       (iter_next _ _ _ _ _ _ _ (mk_decoder ab_coder (96 * 2 ^ 56) 8) [] 1 65
          (iter_first _ _ _ _) _ _ _ _ _ _) _ _)))).
  - cbn. lia.
  - unfold buf_ok, buf_len; cbn. lia.
  - cbn. lia.
  - cbn. discriminate.
  - vm_compute. reflexivity.
  - vm_compute. reflexivity.
  - discriminate.
  - vm_compute. discriminate.
  - cbn. discriminate.
  - vm_compute. discriminate.
  - vm_compute. reflexivity.
  - vm_compute. reflexivity.
Defined.

Lemma decode_window_zero_fill (decoder : aws_huffman_decoder) (abits : list bool) :
  dec_rel decoder abits -> dec_num_bits decoder < 32 ->
  decode_window decoder mod 2 ^ (32 - dec_num_bits decoder) = 0.
Proof.
  intros (Hnb & Hlen & Hw) Hlt.
  pose proof (bval_range abits) as Hv. rewrite Hlen in Hv.
  unfold decode_window, MAX_PATTERN_BITS.
  rewrite Hw, Z.shiftr_div_pow2 by lia.
  replace (2 ^ (64 - dec_num_bits decoder))
    with (2 ^ (32 - dec_num_bits decoder) * 2 ^ (64 - 32))
    by (rewrite <- Z.pow_add_r by lia; f_equal; lia).
  rewrite Z.mul_assoc, Z.div_mul by (apply Z.pow_nonzero; lia).
  assert (0 < 2 ^ (32 - dec_num_bits decoder)) as Hpos by (apply pow2_pos; lia).
  unfold u32. rewrite (Z.mod_small _ (2 ^ 32)).
  - apply Z.mod_mul. lia.
  - rewrite (pow2_split 32 (32 - dec_num_bits decoder)) by lia.
    replace (32 - (32 - dec_num_bits decoder)) with (dec_num_bits decoder) by lia.
    nia.
Qed.

(** C7 as stated fails: [aws_huffman_decode] has no bit budget to be told;
    the budget of a call is the bit count of the buffered bits and of the
    bytes handed over, padding included.  With the table of the
    specification's example, [A; A; B] is encoded in 4 bits and padded to
    the byte 0x2F; decoding that byte from a fresh decoder into a buffer
    with room gives A, A, B and then C, C, decoded from the padding. *)
Lemma padding_is_decoded_counterexample :
  aws_huffman_encode (aws_huffman_encoder_init abc_coder) [65; 65; 66] (mk_buf [] 8)
  = Some (AWS_OP_SUCCESS, aws_huffman_encoder_init abc_coder, [], mk_buf [47] 8) /\
  total_code_bits abc_coder [65; 65; 66] = 4 /\
  aws_huffman_decode (aws_huffman_decoder_init abc_coder) [47] (mk_buf [] 8)
  = Some (AWS_OP_SUCCESS, aws_huffman_decoder_init abc_coder, [],
          mk_buf ([65; 65; 66] ++ [67; 67]) 8).
Proof. repeat split; vm_compute; reflexivity. Qed.

(** C7, amended: at any iteration of the loop of a call of
    [aws_huffman_decode], [bits_left] is the number of bits that remain:
    the bits buffered in the decoder and 8 for each unread byte of the
    cursor.  When the coder reports more bits read than that, the call
    returns success there without emitting the symbol: the cursor is empty,
    the decoder returned holds the fewer than 32 bits that were pending,
    none shifted out, and what the window showed below them was zero fill.
    A code found within the bits that remain is emitted whenever the output
    buffer has a free byte, whether its bits are content or end-of-stream
    padding: the call is given no other budget. *)
Theorem decode_overrun_stops (decoder : aws_huffman_decoder) (abits : list bool)
    (cur : aws_byte_cursor) (out : aws_byte_buf)
    (d : aws_huffman_decoder) (c : aws_byte_cursor) (o : aws_byte_buf) (bits_left : Z)
    (decoder1 : aws_huffman_decoder) (cur1 : aws_byte_cursor) (bits_read symbol : Z) :
  dec_rel decoder abits -> dec_num_bits decoder <= 39 ->
  decode_bounded (dec_coder decoder) -> buf_ok out ->
  dec_num_bits decoder + 8 * Z.of_nat (length cur) < 2 ^ 64 ->
  decode_iteration decoder cur out d c o bits_left ->
  decode_fill_working_bits d c = (decoder1, cur1) ->
  coder_decode (dec_coder decoder1) (decode_window decoder1) = (bits_read, symbol) ->
  let bits_remaining := dec_num_bits decoder1 + 8 * Z.of_nat (length cur1) in
  bits_left = bits_remaining /\
  (bits_remaining < bits_read ->
     aws_huffman_decode decoder cur out = Some (AWS_OP_SUCCESS, decoder1, cur1, o) /\
     cur1 = [] /\ dec_num_bits decoder1 < 32 /\
     decode_window decoder1 mod 2 ^ (32 - dec_num_bits decoder1) = 0 /\
     exists abits_i taken,
       dec_rel d abits_i /\ c = taken ++ cur1 /\
       dec_rel decoder1 (abits_i ++ bytes_bits taken)) /\
  (bits_read <> 0 -> bits_read <= bits_remaining -> buf_len o <> capacity o ->
     exists res decoder' cur' out' more,
       aws_huffman_decode decoder cur out = Some (res, decoder', cur', out') /\
       buffer out' = buffer o ++ [symbol] ++ more).
Proof.
  intros Hrel Hle Hbound Hbuf Hsize Hiter Efill Edec bits_remaining.
  destruct (decode_iteration_topped_up decoder abits cur out d c o bits_left decoder1 cur1
              Hrel Hle Hbound Hbuf Hsize Hiter Efill)
    as (Ebl1 & Ebl & Hnb1 & Hfull & Hn32 & Hheld & Eloop).
  destruct (decode_iteration_inv decoder abits cur out Hrel Hle Hbound Hbuf Hsize
              d c o bits_left Hiter)
    as (_ & _ & _ & _ & Hsz & Hbuf_o & _).
  pose proof (coder_decode_range (dec_coder decoder1) (decode_window decoder1)) as (Rn & Rs).
  rewrite Edec in Hn32, Rn, Rs. cbn [fst snd] in Hn32, Rn, Rs.
  fold bits_remaining in Ebl1.
  split; [exact Ebl1|]. split.
  - intros Hover.
    assert (dec_num_bits decoder1 < 32) as Hlt by (unfold bits_remaining in Hover; lia).
    assert (cur1 = []) as Hnil by (destruct Hfull as [H | H]; [lia | exact H]).
    split.
    { rewrite <- Eloop, decode_loop_unfold, Efill, Edec.
      replace (bits_read =? 0) with false by (symmetry; apply Z.eqb_neq; lia).
      replace (bits_read >? bits_left) with true by (symmetry; apply Z.gtb_lt; lia).
      reflexivity. }
    split; [exact Hnil|]. split; [exact Hlt|]. split; [|exact Hheld].
    destruct Hheld as (abits_i & taken & _ & _ & Hrel1).
    apply (decode_window_zero_fill decoder1 _ Hrel1 Hlt).
  - intros Hn0 Hin Hroom.
    assert (buf_len o < capacity o)%nat as Hlt by (unfold buf_ok in Hbuf_o; lia).
    rewrite <- Eloop, decode_loop_unfold, Efill, Edec.
    replace (bits_read =? 0) with false by (symmetry; apply Z.eqb_neq; exact Hn0).
    replace (bits_read >? bits_left) with false
      by (symmetry; rewrite Z.gtb_ltb; apply Z.ltb_ge; lia).
    replace (buf_len o =? capacity o)%nat with false
      by (symmetry; apply Nat.eqb_neq; exact Hroom).
    cbv zeta. rewrite (usize_small (bits_left - bits_read)) by lia.
    unfold aws_byte_buf_write_u8.
    replace (buf_len o <? capacity o)%nat with true
      by (symmetry; apply Nat.ltb_lt; exact Hlt).
    rewrite (u8_small symbol) by exact Rs.
    destruct (bits_left - bits_read =? 0) eqn:Elast.
    + eexists _, _, _, _, []. split; [reflexivity|]. reflexivity.
    + apply Z.eqb_neq in Elast.
      match goal with
      | |- context [decode_loop ?f ?d2 ?c2 ?o2 ?b2] =>
          destruct (decode_loop_returns f d2 c2 o2 b2 ltac:(lia) ltac:(lia))
            as (res & d' & c' & out' & syms & taken' & Erun & _ & _ & Hout & _)
      end.
      exists res, d', c', out', syms. split; [exact Erun|].
      rewrite Hout. cbn [buffer]. rewrite <- app_assoc. reflexivity.
Qed.

Lemma decode_overrun_stops_witness :
  aws_huffman_decode (aws_huffman_decoder_init abc_coder) [253] (mk_buf [] 8)
  = Some (AWS_OP_SUCCESS, mk_decoder abc_coder (2 ^ 63) 1, [], mk_buf [67; 67; 67; 65] 8).
Proof.
  eassert (decode_iteration (aws_huffman_decoder_init abc_coder) [253] (mk_buf [] 8)
             _ _ _ _) as Hiter.
  { eapply iter_next;
      [eapply iter_next;
         [eapply iter_next;
            [eapply iter_next; [apply iter_first; cbn; discriminate | ..] | ..] | ..] | ..];
      first [vm_compute; reflexivity | vm_compute; discriminate]. }
  refine (proj1 (proj1 (proj2
    (decode_overrun_stops (aws_huffman_decoder_init abc_coder) [] [253] (mk_buf [] 8)
       _ _ _ _ (mk_decoder abc_coder (2 ^ 63) 1) [] 2 66
       (dec_rel_init abc_coder) _ abc_decode_bounded _ _ Hiter _ _)) _)).
  - cbn. lia.
  - unfold buf_ok, buf_len; cbn. lia.
  - cbn. lia.
  - vm_compute. reflexivity.
  - vm_compute. reflexivity.
  - vm_compute. reflexivity.
Defined.
